(** * llmcord: conversation-graph reconstruction and streaming render scheduler

    A shallow embedding of [src/llmcord.py].  The module-level tables
    [message_nodes] and [in_progress_message_ids] are threaded as explicit
    state; [MessageNode] objects live in a store addressed by allocation
    order, so that the aliasing created by [replied_to] is the aliasing of
    the Python objects.  Everything the handler obtains from the outside
    (the channel's [fetch_message], the identifiers Discord gives to new
    messages, the clock and the state of the pending edit task, the image
    service) is an explicit input.

    The model follows one run of [on_message] from its call to its return.
    Other runs interleaved with it at its [await]s are not modelled, and
    neither are exceptions raised by the Discord, completion and image
    services other than the two the handler catches when it fetches a
    message. *)

From stdpp Require Import gmap strings list pretty.
From Stdlib Require Import Sorted.

Open Scope Z_scope.

(** ** Python values used by the handler *)

(** Discord identifiers (snowflakes) are positive integers. *)
Abbreviation snowflake := positive (only parsing).

(** [len(s)] on a [str]. *)
Definition len (s : string) : Z := Z.of_nat (String.length s).

(** Truth value of [s] for a variable holding [None] or a [str]. *)
Definition truthy (s : option string) : bool :=
  match s with
  | None => false
  | Some s => negb (String.eqb s "")
  end.

(** [l[-1]] for a list of [str]; the handler only evaluates it on a list
    with at least one element (see [stream_lists_parallel]). *)
Definition last_content (l : list string) : string := List.last l "".

(** [l[-1] += p]. *)
Fixpoint append_to_last (l : list string) (p : string) : list string :=
  match l with
  | [] => []
  | [s] => [s +:+ p]
  | s :: l' => s :: append_to_last l' p
  end.

(** ["".join(l)] *)
Definition str_join (l : list string) : string := foldr String.append "" l.

(** [s * n] on a [str]. *)
Fixpoint str_mul (s : string) (n : nat) : string :=
  match n with
  | O => ""
  | S n' => s +:+ str_mul s n'
  end.

(** [l[-1]] for the list of response messages. *)
Definition last_message (dflt : snowflake) (l : list snowflake) : snowflake :=
  List.last l dflt.

(** [list.remove(x)]: drops the first occurrence, [ValueError] when absent. *)
Fixpoint list_remove (x : snowflake) (l : list snowflake) : option (list snowflake) :=
  match l with
  | [] => None
  | y :: l' => if decide (x = y) then Some l'
               else match list_remove x l' with
                    | Some r => Some (y :: r)
                    | None => None
                    end
  end.

(** [sorted(ws)] for a set of strings: insertion into an ordered list. *)
Fixpoint insert_sorted (w : string) (l : list string) : list string :=
  match l with
  | [] => [w]
  | x :: l' => if String.leb w x then w :: l else x :: insert_sorted w l'
  end.

Definition sorted (ws : gset string) : list string :=
  foldr insert_sorted [] (elements ws).

(** ** Constants *)

Definition EMBED_MAX_LENGTH : Z := 4096.

(** Keys of [EMBED_COLOR]: the status a block is rendered with. *)
Inductive Status : Set := incomplete | complete.

#[global] Instance Status_eq_dec : EqDecision Status.
Proof. solve_decision. Defined.

(** ** Streaming render scheduler (lines 147-188) *)

(** [discord.Embed]: the fields the handler sets. *)
Record Embed : Type := mkEmbed {
  description : string;
  color : Status;
  fields : list string
}.

(** What the loop does to the outside, in program order.  A segment is
    named by its position in [response_messages]. *)
Inductive Event : Type :=
| Reply (seg : nat) (target : snowflake) (e : Embed) (new_id : snowflake)
    (* line 166: [await reply_message.reply(embed=embed, silent=True)] *)
| AwaitEdit
    (* lines 182-183: spin until the outstanding edit task is done *)
| Edit (seg : nat) (block : snowflake) (e : Embed)
    (* line 186: [asyncio.create_task(response_messages[-1].edit(embed=embed))] *)
| ReplyFile (target : snowflake)
    (* line 210: [await message.reply(file=...)] *)
| ReplyText (target : snowflake) (text : string).
    (* line 212: [await message.reply("Sorry, ...")] *)

(** What the loop reads from the outside while it processes the [i]-th
    chunk of the stream. *)
Record StreamEnv : Type := mkStreamEnv {
  reply_id : nat -> snowflake;
    (* identifier of the message returned by the k-th [reply] of this response *)
  task_done : nat -> bool;
    (* [edit_message_task.done()] *)
  throttle_open : nat -> bool
    (* [datetime.now().timestamp() - last_message_task_time
        >= len(in_progress_message_ids) / EDITS_PER_SECOND] *)
}.

(** Local variables of the loop, the registry, and the trace. *)
Record Stream : Type := mkStream {
  response_messages : list snowflake;
  response_message_contents : list string;
  previous_content : option string;
  edit_message_task : bool;                (* [false] is [None] *)
  in_progress_message_ids : list snowflake;
  trace : list Event
}.

Definition stream_start (registry : list snowflake) : Stream :=
  {| response_messages := [];
     response_message_contents := [];
     previous_content := None;
     edit_message_task := false;
     in_progress_message_ids := registry;
     trace := [] |}.

(** [chunk.choices[0].delta.content or ""] *)
Definition current_content_of (delta_content : option string) : string :=
  match delta_content with
  | Some s => s
  | None => ""
  end.

Section Scheduler.

Variable message_id : snowflake.          (* [message.id] of the request *)
Variable user_warnings : gset string.
Variable env : StreamEnv.

(** Lines 159-173: open a new segment when there is none or the previous
    fragment does not fit into the current one. *)
Definition needs_new_segment (st : Stream) (p : string) : bool :=
  match response_messages st with
  | [] => true
  | _ => EMBED_MAX_LENGTH <? len (last_content (response_message_contents st) +:+ p)
  end.

Definition open_segment (st : Stream) (p current_content : string) : Stream :=
  let seg := length (response_messages st) in
  let reply_message := last_message message_id (response_messages st) in
  let embed :=
    {| description := p;
       color := if String.eqb current_content "" then complete else incomplete;
       fields := sorted user_warnings |} in
  let new_id := reply_id env seg in
  {| response_messages := response_messages st ++ [new_id];
     response_message_contents := response_message_contents st ++ [""];
     previous_content := previous_content st;
     edit_message_task := edit_message_task st;
     in_progress_message_ids := in_progress_message_ids st ++ [new_id];
     trace := trace st ++ [Reply seg reply_message embed new_id] |}.

(** Line 174. *)
Definition append_previous (st : Stream) (p : string) : Stream :=
  {| response_messages := response_messages st;
     response_message_contents := append_to_last (response_message_contents st) p;
     previous_content := previous_content st;
     edit_message_task := edit_message_task st;
     in_progress_message_ids := in_progress_message_ids st;
     trace := trace st |}.

(** Line 176. *)
Definition final_message_edit (st : Stream) (current_content : string) : bool :=
  (EMBED_MAX_LENGTH <? len (last_content (response_message_contents st) +:+ current_content))
  || String.eqb current_content "".

(** Lines 177-181. *)
Definition edit_now (st : Stream) (i : nat) (current_content : string) : bool :=
  final_message_edit st current_content
  || ((negb (edit_message_task st) || task_done env i) && throttle_open env i).

(** Lines 182-187.  The embed object is the one built when the segment was
    opened; its description and colour are overwritten, its fields stay. *)
Definition dispatch_edit (st : Stream) (i : nat) (current_content : string) : Stream :=
  let waited :=
    if edit_message_task st && negb (task_done env i) then [AwaitEdit] else [] in
  let embed :=
    {| description := last_content (response_message_contents st);
       color := if final_message_edit st current_content then complete else incomplete;
       fields := sorted user_warnings |} in
  let seg := Nat.pred (length (response_messages st)) in
  {| response_messages := response_messages st;
     response_message_contents := response_message_contents st;
     previous_content := previous_content st;
     edit_message_task := true;
     in_progress_message_ids := in_progress_message_ids st;
     trace := trace st ++ waited
                ++ [Edit seg (last_message message_id (response_messages st)) embed] |}.

(** Lines 175-187. *)
Definition maybe_edit (st : Stream) (i : nat) (p current_content : string) : Stream :=
  if String.eqb (last_content (response_message_contents st)) p then st
  else if edit_now st i current_content then dispatch_edit st i current_content
  else st.

Definition set_previous (st : Stream) (current_content : string) : Stream :=
  {| response_messages := response_messages st;
     response_message_contents := response_message_contents st;
     previous_content := Some current_content;
     edit_message_task := edit_message_task st;
     in_progress_message_ids := in_progress_message_ids st;
     trace := trace st |}.

(** One iteration of the [async for] body (lines 157-188) on the [i]-th
    chunk. *)
Definition on_chunk (i : nat) (delta_content : option string) (st : Stream) : Stream :=
  let current_content := current_content_of delta_content in
  let st' :=
    if truthy (previous_content st) then
      let p := current_content_of (previous_content st) in
      let st1 := if needs_new_segment st p
                 then open_segment st p current_content else st in
      let st2 := append_previous st1 p in
      maybe_edit st2 i p current_content
    else st in
  set_previous st' current_content.

(** The loop over the stream, from chunk number [i] on. *)
Fixpoint stream_from (i : nat) (chunks : list (option string)) (st : Stream) : Stream :=
  match chunks with
  | [] => st
  | c :: chunks' => stream_from (S i) chunks' (on_chunk i c st)
  end.

Definition stream (registry : list snowflake) (chunks : list (option string)) : Stream :=
  stream_from 0 chunks (stream_start registry).

End Scheduler.


(** ** Discord objects, configuration, prompt entries *)

(** [needle in hay] on [str]. *)
Fixpoint contains (needle hay : string) : bool :=
  String.prefix needle hay
  || match hay with
     | EmptyString => false
     | String _ hay' => contains needle hay'
     end.

(** Characters are code points below 256.  [c.isspace()]: *)
Definition isspace (c : Ascii.ascii) : bool :=
  let n := Ascii.N_of_ascii c in
  ((9 <=? n) && (n <=? 13) || (28 <=? n) && (n <=? 32) || (n =? 133) || (n =? 160))%N.

(** [c.lower()]: *)
Definition lower_char (c : Ascii.ascii) : Ascii.ascii :=
  let n := Ascii.N_of_ascii c in
  if ((65 <=? n) && (n <=? 90) || (192 <=? n) && (n <=? 222) && negb (n =? 215))%N
  then Ascii.ascii_of_N (n + 32) else c.

Fixpoint lower (s : string) : string :=
  match s with
  | EmptyString => EmptyString
  | String c s' => String (lower_char c) (lower s')
  end.

(** [s.lstrip()] *)
Fixpoint lstrip (s : string) : string :=
  match s with
  | EmptyString => EmptyString
  | String c s' => if isspace c then lstrip s' else s
  end.

(** [s[n:]] for [n >= 0]. *)
Fixpoint drop_chars (n : nat) (s : string) : string :=
  match n, s with
  | O, _ => s
  | S n', String _ s' => drop_chars n' s'
  | S _, EmptyString => EmptyString
  end.

(** [l[:k]] for any integer [k]: a negative [k] counts from the end. *)
Definition slice_to {A} (k : Z) (l : list A) : list A :=
  if 0 <=? k then take (Z.to_nat k) l
  else take (Z.to_nat (Z.of_nat (length l) + k)) l.

(** [s.rstrip()] *)
Fixpoint rstrip (s : string) : string :=
  match s with
  | EmptyString => EmptyString
  | String c s' =>
      match rstrip s' with
      | EmptyString => if isspace c then EmptyString else String c EmptyString
      | r => String c r
      end
  end.

(** [s.strip()] *)
Definition strip (s : string) : string := lstrip (rstrip s).

(** [s.split(sep)] for a separator that is not empty: the pieces between
    the occurrences of [sep], found from the left.  [skip] counts the
    characters of the occurrence just found that are still to be passed
    over. *)
Fixpoint split_from (sep : string) (skip : nat) (s : string) : list string :=
  match s with
  | EmptyString => [""]
  | String c s' =>
      match skip with
      | S k => split_from sep k s'
      | O =>
          if String.prefix sep s
          then "" :: split_from sep (Nat.pred (String.length sep)) s'
          else match split_from sep 0 s' with
               | piece :: pieces => String c piece :: pieces
               | [] => [String c ""]
               end
      end
  end.

Definition str_split (sep s : string) : list string := split_from sep 0 s.

Module Discord.

Record Attachment : Type := mkAttachment {
  url : string;
  content_type : option string
}.

(** [reference.resolved] is [Some m] when it is a [discord.Message]. *)
Inductive Message : Type := mkMessage {
  id : snowflake;
  author_id : snowflake;               (* [message.author.id] *)
  author_bot : bool;                   (* [message.author.bot] *)
  channel_private : bool;              (* [channel.type == ChannelType.private] *)
  mentions : list snowflake;           (* ids of [message.mentions] *)
  content : string;
  embeds : list Embed;
  attachments : list Attachment;
  reference : option MessageReference
}
with MessageReference : Type := mkReference {
  message_id : snowflake;
  resolved : option Message
}.

(** What [channel.fetch_message] does. *)
Inductive Fetched : Type :=
| Found (m : Message)
| NotFound
| HTTPException.

End Discord.

Import Discord (Message, MessageReference, Attachment, Fetched, Found, NotFound, HTTPException).

(** The environment variables and the client's own user. *)
Record Config : Type := mkConfig {
  LLM : string;
  MAX_IMAGES_env : Z;                    (* [int(os.environ["MAX_IMAGES"])] *)
  MAX_MESSAGES : Z;
  CUSTOM_SYSTEM_PROMPT : string;
  client_user_id : snowflake             (* [discord_client.user.id] *)
}.

Inductive Role : Set := user | assistant | system.

Inductive Part : Type :=
| TextPart (text : string)               (* [{"type": "text", "text": ...}] *)
| ImagePart (image_url detail : string). (* [{"type": "image_url", ...}] *)

Inductive Content : Type :=
| Parts (l : list Part)
| Text (s : string).

(** The dictionaries sent to the completion endpoint. *)
Record PromptEntry : Type := mkEntry {
  role : Role;
  content : Content;
  name : option string
}.

Definition is_image_part (p : Part) : bool :=
  match p with
  | ImagePart _ _ => true
  | TextPart _ => false
  end.

(** The image references a content carries. *)
Definition image_parts (c : Content) : list Part :=
  match c with
  | Parts l => filter (fun p => is_image_part p = true) l
  | Text _ => []
  end.

(** [MessageNode]: [replied_to] refers to another node object. *)
Record MessageNode : Type := mkNode {
  message : PromptEntry;
  too_many_images : bool;
  replied_to : option nat
}.

(** The node objects, in allocation order, and [message_nodes]. *)
Record Store : Type := mkStore {
  objects : list MessageNode;
  message_nodes : gmap snowflake nat
}.

Inductive Exn : Set := IndexError | TypeError | KeyError | ValueError.

Inductive Outcome (A : Type) : Type :=
| Done (a : A)
| Raised (e : Exn)
| Unfinished.

Arguments Done {A} a.
Arguments Raised {A} e.
Arguments Unfinished {A}.

#[global] Instance Outcome_bind : MBind Outcome :=
  fun A B (f : A -> Outcome B) (x : Outcome A) =>
    match x with
    | Done a => f a
    | Raised e => Raised e
    | Unfinished => Unfinished
    end.

Definition or_raise {A} (e : Exn) (x : option A) : Outcome A :=
  match x with
  | Some a => Done a
  | None => Raised e
  end.

(** The process-wide state: the nodes and [in_progress_message_ids]. *)
Record World : Type := mkWorld {
  store : Store;
  registry : list snowflake
}.

(** What one run of the handler reads from the outside. *)
Record HandlerEnv : Type := mkHandlerEnv {
  fetch_message : snowflake -> Fetched;  (* [message.channel.fetch_message] *)
  today : string;                        (* the date in the system prompt *)
  completion : list PromptEntry -> list (option string);
    (* [delta.content] of the chunks streamed for a prompt *)
  stream_env : StreamEnv;
  sd_status : Z                          (* [sd_response.status_code] *)
}.

(** How a run of [on_message] ends. *)
Inductive Handled : Type :=
| Filtered                               (* line 78 *)
| Waiting                                (* lines 81-82 keep yielding *)
| Finished (w : World) (tr : list Event)
| Crashed (e : Exn) (registry : list snowflake) (tr : list Event)
| OutOfFuel.

Section Handler.

Variable cfg : Config.

Definition LLM_VISION_SUPPORT : bool := contains "vision" (LLM cfg).

Definition MAX_IMAGES : Z := if LLM_VISION_SUPPORT then MAX_IMAGES_env cfg else 0.

Definition MAX_IMAGE_WARNING : string :=
  if 0 <? MAX_IMAGES
  then "⚠️ Max " +:+ pretty MAX_IMAGES +:+ " image"
         +:+ (if MAX_IMAGES =? 1 then "" else "s") +:+ " per message"
  else "⚠️ Can't see images".

Definition MAX_MESSAGE_WARNING : string :=
  "⚠️ Only using last " +:+ pretty (MAX_MESSAGES cfg) +:+ " messages".

(** [str(user.id)] and [user.mention]. *)
Definition str_id (i : snowflake) : string := pretty (Zpos i).

Definition client_mention : string := "<@" +:+ str_id (client_user_id cfg) +:+ ">".

(** [get_system_prompt()]; [today] is [datetime.now().strftime('%B %d %Y')]. *)
Definition get_system_prompt (today : string) : list PromptEntry :=
  if String.eqb (LLM cfg) "local-model" || contains "mistral" (LLM cfg)
  then [ {| role := system;
            content := Text (CUSTOM_SYSTEM_PROMPT cfg +:+ "
Current date: " +:+ today);
            name := None |} ]
  else [ {| role := system;
            content := Text (CUSTOM_SYSTEM_PROMPT cfg +:+ "
User's names are their Discord IDs and should be typed as '<@ID>'.
Current date: " +:+ today);
            name := None |} ].

(** *** ChainBuilder (lines 86-130) *)

Definition by_client (m : Message) : bool :=
  bool_decide (Discord.author_id m = client_user_id cfg).

(** Lines 89-91. *)
Definition message_text (m : Message) : Outcome string :=
  text ← (if by_client m
           then match Discord.embeds m with
                | e :: _ => Done (description e)
                | [] => Raised IndexError
                end
           else Done (Discord.content m));
  Done (if String.prefix client_mention text
        then lstrip (drop_chars (String.length client_mention) text)
        else text).

(** Lines 93-100. *)
Fixpoint message_images (atts : list Attachment) : Outcome (list Part) :=
  match atts with
  | [] => Done []
  | att :: atts' =>
      match Discord.content_type att with
      | None => Raised TypeError
      | Some ct =>
          rest ← message_images atts';
          Done (if contains "image" ct
                then ImagePart (Discord.url att) "low" :: rest
                else rest)
      end
  end.

(** Lines 89-114: the node built for one message of the chain. *)
Definition new_message_node (m : Message) : Outcome MessageNode :=
  current_message_text ← message_text m;
  current_message_images ← message_images (Discord.attachments m);
  let current_message_content :=
    (if String.eqb current_message_text "" then [] else [TextPart current_message_text])
    ++ slice_to MAX_IMAGES current_message_images in
  Done {| message :=
            {| role := if by_client m then assistant else user;
               content := if contains "mistral" (LLM cfg)
                          then Text current_message_text
                          else Parts current_message_content;
               name := Some (str_id (Discord.author_id m)) |};
          too_many_images := MAX_IMAGES <? Z.of_nat (length current_message_images);
          replied_to := None |}.

(** [message_nodes[key] = node] for a node object just created. *)
Definition store_node (key : snowflake) (node : MessageNode) (st : Store) : Store :=
  {| objects := objects st ++ [node];
     message_nodes := <[key := length (objects st)]> (message_nodes st) |}.

Definition set_replied_to (target : nat) (node : MessageNode) : MessageNode :=
  {| message := message node;
     too_many_images := too_many_images node;
     replied_to := Some target |}.

(** [message_nodes[src].replied_to = message_nodes[dst]] *)
Definition link (src dst : snowflake) (st : Store) : Outcome Store :=
  b ← or_raise KeyError (message_nodes st !! dst);
  a ← or_raise KeyError (message_nodes st !! src);
  Done {| objects := alter (set_replied_to b) a (objects st);
          message_nodes := message_nodes st |}.

(** Lines 123-130: [Some] is the message to go on with, [None] the
    [break] of the exception handler. *)
Definition referenced_message (fetch_message : snowflake -> Fetched)
    (r : MessageReference) : option Message :=
  match Discord.resolved r with
  | Some m => Some m
  | None =>
      match fetch_message (Discord.message_id r) with
      | Found m => Some m
      | NotFound | HTTPException => None
      end
  end.

(** The [while True] loop of lines 88-130; [fuel] bounds its iterations. *)
Fixpoint build_chain (fuel : nat) (fetch_message : snowflake -> Fetched)
    (current_message : Message) (previous_message_id : option snowflake)
    (st : Store) : Outcome Store :=
  match fuel with
  | O => Unfinished
  | S fuel' =>
      node ← new_message_node current_message;
      let st := store_node (Discord.id current_message) node st in
      st ← match previous_message_id with
            | Some previous => link previous (Discord.id current_message) st
            | None => Done st
            end;
      match Discord.reference current_message with
      | None => Done st
      | Some r =>
          if bool_decide (is_Some (message_nodes st !! Discord.message_id r))
          then link (Discord.id current_message) (Discord.message_id r) st
          else match referenced_message fetch_message r with
               | Some next =>
                   build_chain fuel' fetch_message next
                     (Some (Discord.id current_message)) st
               | None => Done st
               end
      end
  end.

(** *** HistoryAssembler (lines 133-143) *)

(** The [while] loop of lines 136-142; it runs at most [MAX_MESSAGES]
    times, [fuel] only makes that structural. *)
Fixpoint collect_chain (fuel : nat) (objs : list MessageNode)
    (reply_chain : list PromptEntry) (user_warnings : gset string)
    (current_node : option nat) : Outcome (list PromptEntry * gset string) :=
  match current_node with
  | None => Done (reply_chain, user_warnings)
  | Some a =>
      if Z.of_nat (length reply_chain) <? MAX_MESSAGES cfg then
        match fuel with
        | O => Unfinished
        | S fuel' =>
            node ← or_raise KeyError (objs !! a);
            let reply_chain := reply_chain ++ [message node] in
            let user_warnings :=
              if too_many_images node
              then user_warnings ∪ {[MAX_IMAGE_WARNING]} else user_warnings in
            let user_warnings :=
              if (Z.of_nat (length reply_chain) =? MAX_MESSAGES cfg)
                 && bool_decide (is_Some (replied_to node))
              then user_warnings ∪ {[MAX_MESSAGE_WARNING]} else user_warnings in
            collect_chain fuel' objs reply_chain user_warnings (replied_to node)
        end
      else Done (reply_chain, user_warnings)
  end.

(** Lines 133-143: the prompt and the warnings for the request [key]. *)
Definition assemble (today : string) (st : Store) (key : snowflake)
    : Outcome (list PromptEntry * list PromptEntry * gset string) :=
  leaf ← or_raise KeyError (message_nodes st !! key);
  '(reply_chain, user_warnings) ←
     collect_chain (Z.to_nat (MAX_MESSAGES cfg)) (objects st) [] ∅ (Some leaf);
  Done (get_system_prompt today ++ rev reply_chain, reply_chain, user_warnings).

(** *** After the stream (lines 190-227) *)

(** Lines 218-227, for the response messages still to be registered;
    [key] is [message.id] and [reply] is ["".join(response_message_contents)]. *)
Fixpoint register_response (reply : string) (key : snowflake)
    (response_messages : list snowflake)
    (st : Store) (registry : list snowflake) : Outcome (Store * list snowflake) :=
  match response_messages with
  | [] => Done (st, registry)
  | response_message :: rest =>
      request_node ← or_raise KeyError (message_nodes st !! key);
      let node :=
        {| message := {| role := assistant;
                         content := Text reply;
                         name := Some (str_id (client_user_id cfg)) |};
           too_many_images := false;
           replied_to := Some request_node |} in
      let st := store_node response_message node st in
      registry ← or_raise ValueError (list_remove response_message registry);
      register_response reply key rest st registry
  end.

(** *** The handler *)

(** Line 77. *)
Definition unwanted (m : Message) : bool :=
  (negb (Discord.channel_private m)
   && negb (bool_decide (client_user_id cfg ∈ Discord.mentions m)))
  || Discord.author_bot m.

(** Line 81: the condition of the polling loop. *)
Definition still_generating (m : Message) (registry : list snowflake) : bool :=
  match Discord.reference m with
  | Some r => bool_decide (Discord.message_id r ∈ registry)
  | None => false
  end.

(** Lines 190-227, after the stream [s] has been consumed. *)
Definition after_stream (env : HandlerEnv) (m : Message) (st : Store) (s : Stream)
    : Handled :=
  if contains "draw me" (lower (Discord.content m)) then
    if contains "draw me" (Discord.content m) then
      if sd_status env =? 200 then
        let tr := trace s ++ [ReplyFile (Discord.id m)] in
        match register_response (str_join (response_message_contents s)) (Discord.id m)
                (response_messages s) st (in_progress_message_ids s) with
        | Done (st', registry') =>
            Finished {| store := st'; registry := registry' |} tr
        | Raised e => Crashed e (in_progress_message_ids s) tr
        | Unfinished => OutOfFuel
        end
      else
        Finished {| store := st; registry := in_progress_message_ids s |}
          (trace s ++ [ReplyText (Discord.id m) "Sorry, I couldn't generate the image."])
    else
      (* line 192: [split('draw me')[1]] on a text without that spelling *)
      Crashed IndexError (in_progress_message_ids s) (trace s)
  else
    Finished {| store := st; registry := in_progress_message_ids s |} (trace s).

(** [on_message], run up to its return on the process-wide state [w]. *)
Definition on_message (fuel : nat) (env : HandlerEnv) (m : Message) (w : World)
    : Handled :=
  if unwanted m then Filtered
  else if still_generating m (registry w) then Waiting
  else
    match build_chain fuel (fetch_message env) m None (store w) with
    | Unfinished => OutOfFuel
    | Raised e => Crashed e (registry w) []
    | Done st =>
        match assemble (today env) st (Discord.id m) with
        | Unfinished => OutOfFuel
        | Raised e => Crashed e (registry w) []
        | Done (messages, reply_chain, user_warnings) =>
            match reply_chain with
            | [] => Crashed IndexError (registry w) []     (* line 146 *)
            | _ :: _ =>
                after_stream env m st
                  (stream (Discord.id m) user_warnings (stream_env env)
                     (registry w) (completion env messages))
            end
        end
    end.

End Handler.


(** ** The drawing prompt (line 192) and the endpoint (line 41) *)

(** Line 192: [message.content.split('draw me')[1].strip()]. *)
Definition prompt_text (content : string) : Outcome string :=
  piece ← or_raise IndexError (str_split "draw me" content !! 1%nat);
  Done (strip piece).

(** The entries of [LLM_CONFIG]: the base URL of each provider. *)
Definition LLM_CONFIG (provider : string) : option string :=
  if String.eqb provider "local" then Some "http://localhost:1234/v1"
  else if String.eqb provider "mistral" then Some "https://api.mistral.ai/v1"
  else None.

(** Line 41: the endpoint [llm_client] is created for.  The key is
    [os.environ["LLM"].split("-", 1)[0]], the text before the first "-"
    (the first piece is the same with and without a limit on the splits);
    a key that [LLM_CONFIG] does not have raises [KeyError].  The
    environment is taken to define both API keys, so that building
    [LLM_CONFIG] itself raises nothing. *)
Definition llm_base_url (cfg : Config) : Outcome string :=
  or_raise KeyError (LLM_CONFIG (hd "" (str_split "-" (LLM cfg)))).

(** ** Reply chains in the store *)

(** The nodes reached from [a] by following [replied_to], newest first. *)
Inductive chain_from (objs : list MessageNode) : option nat -> list MessageNode -> Prop :=
| chain_end : chain_from objs None []
| chain_step a node rest :
    objs !! a = Some node ->
    chain_from objs (replied_to node) rest ->
    chain_from objs (Some a) (node :: rest).

(** Nodes stored one after the other from address [base] on, each replying
    to the next, the last to nothing. *)
Fixpoint linked_nodes (base : nat) (built : list MessageNode) : list MessageNode :=
  match built with
  | [] => []
  | [node] => [node]
  | node :: rest => set_replied_to (S base) node :: linked_nodes (S base) rest
  end.

(** Line 99: the attachments that become image references. *)
Definition is_image (att : Attachment) : bool :=
  match Discord.content_type att with
  | Some ct => contains "image" ct
  | None => false
  end.

Definition image_part (att : Attachment) : Part := ImagePart (Discord.url att) "low".

(** A walk up the reply chain from [m] that ends at a failed fetch: [path]
    lists the messages walked, [m] first.  Every message but the last
    refers to one that is not cached and is obtained (already resolved, or
    fetched) under the id asked for; the last refers to one that is not
    cached, is not resolved, and whose fetch fails.  [known] are the ids in
    [message_nodes] when [m] is reached. *)
Inductive ascent_fails (fetch : snowflake -> Fetched)
    : gset snowflake -> Message -> list Message -> Prop :=
| fails_here known m r :
    Discord.reference m = Some r ->
    Discord.message_id r ∉ known ∪ {[Discord.id m]} ->
    Discord.resolved r = None ->
    fetch (Discord.message_id r) = NotFound
    \/ fetch (Discord.message_id r) = HTTPException ->
    ascent_fails fetch known m [m]
| fails_above known m r m' path :
    Discord.reference m = Some r ->
    Discord.message_id r ∉ known ∪ {[Discord.id m]} ->
    referenced_message fetch r = Some m' ->
    Discord.id m' = Discord.message_id r ->
    ascent_fails fetch (known ∪ {[Discord.id m]}) m' path ->
    ascent_fails fetch known m (m :: path).

(** Building the node of [m] raises nothing. *)
Definition buildable (cfg : Config) (m : Message) : Prop :=
  exists node, new_message_node cfg m = Done node.

(** A message of the client carries an embed, and every attachment has a
    content type. *)
Definition well_formed (cfg : Config) (m : Message) : Prop :=
  (by_client cfg m = true -> Discord.embeds m <> [])
  /\ Forall (fun att => is_Some (Discord.content_type att)) (Discord.attachments m).

(** The objects after linking the node stored for [previous] to the node
    about to be stored. *)
Definition relinked (st : Store) (previous : option snowflake) : list MessageNode :=
  match previous ≫= (fun key => message_nodes st !! key) with
  | Some a => alter (set_replied_to (length (objects st))) a (objects st)
  | None => objects st
  end.

(** The node lines 219-226 create for each response message. *)
Definition response_node (cfg : Config) (reply : string) (request_node : nat)
    : MessageNode :=
  {| message := {| role := assistant;
                   content := Text reply;
                   name := Some (str_id (client_user_id cfg)) |};
     too_many_images := false;
     replied_to := Some request_node |}.

(** Every reference held in the store is to a node object that exists: the
    entries of [message_nodes] and the [replied_to] of every node. *)
Definition store_closed (st : Store) : Prop :=
  (forall key a, message_nodes st !! key = Some a -> (a < length (objects st))%nat)
  /\ (forall i node a, objects st !! i = Some node -> replied_to node = Some a ->
        (a < length (objects st))%nat).

(** Nodes stored one after the other from address [base] on, each replying
    to the next, the last to the node at [target]. *)
Fixpoint linked_up (base : nat) (target : option nat) (built : list MessageNode)
    : list MessageNode :=
  match built with
  | [] => []
  | [node] => [match target with
               | Some a => set_replied_to a node
               | None => node
               end]
  | node :: rest => set_replied_to (S base) node :: linked_up (S base) target rest
  end.

(** A walk up the reply chain from [m] that ends where the loop of lines
    88-130 leaves by one of its first two [break]s: at a message without a
    reference ([stop = None], line 118), or at a message whose reply target
    is cached ([stop] is that target's id, line 121).  [path] lists the
    messages walked, [m] first; every message but the last refers to one
    that is not cached and is obtained under the id asked for.  [known] are
    the ids in [message_nodes] when [m] is reached. *)
Inductive ascent_ends (fetch : snowflake -> Fetched)
    : gset snowflake -> Message -> list Message -> option snowflake -> Prop :=
| ends_at_root known m :
    Discord.reference m = None ->
    ascent_ends fetch known m [m] None
| ends_at_cached known m r :
    Discord.reference m = Some r ->
    Discord.message_id r ∈ known ->
    Discord.message_id r <> Discord.id m ->
    ascent_ends fetch known m [m] (Some (Discord.message_id r))
| ends_above known m r m' path stop :
    Discord.reference m = Some r ->
    Discord.message_id r ∉ known ∪ {[Discord.id m]} ->
    referenced_message fetch r = Some m' ->
    Discord.id m' = Discord.message_id r ->
    ascent_ends fetch (known ∪ {[Discord.id m]}) m' path stop ->
    ascent_ends fetch known m (m :: path) stop.

(** ** What a response shows *)

(** The fragments of a stream, as the loop reads them. *)
Definition fragments (chunks : list (option string)) : list string :=
  current_content_of <$> chunks.

(** The embeds the trace has rendered, with the segment each belongs to. *)
Definition rendered (ev : Event) : option (nat * Embed) :=
  match ev with
  | Reply seg _ e _ => Some (seg, e)
  | Edit seg _ e => Some (seg, e)
  | _ => None
  end.

(** The [reply] calls of a trace: whom each block answers, and its id. *)
Definition reply_link (ev : Event) : option (snowflake * snowflake) :=
  match ev with
  | Reply _ target _ new_id => Some (target, new_id)
  | _ => None
  end.

Definition reply_links (tr : list Event) : list (snowflake * snowflake) :=
  omap reply_link tr.

(** The embeds sent for segment [seg], oldest first, and the one sent last:
    what the block shows once every edit has been applied. *)
Definition render_of (seg : nat) (ev : Event) : option Embed :=
  match rendered ev with
  | Some (k, e) => if decide (k = seg) then Some e else None
  | None => None
  end.

Definition renders_of (seg : nat) (tr : list Event) : list Embed :=
  omap (render_of seg) tr.

Definition displayed (seg : nat) (tr : list Event) : option Embed :=
  last (renders_of seg tr).

(** A text that fits into one embed. *)
Definition within_cap (s : string) : Prop := len s <= EMBED_MAX_LENGTH.

(** Every embed the trace has sent fits. *)
Definition renders_within_cap (tr : list Event) : Prop :=
  forall ev seg e, ev ∈ tr -> rendered ev = Some (seg, e) -> within_cap (description e).

(** The two lists of the loop grow together. *)
Definition lists_parallel (st : Stream) : Prop :=
  length (response_messages st) = length (response_message_contents st).

(** Line 159/176: the text no longer fits with [p] added. *)
Definition overflows (text p : string) : bool :=
  EMBED_MAX_LENGTH <? len (text +:+ p).

(** Line 176: after [text], the fragment [p] ends the segment. *)
Definition sealed (text p : string) : bool :=
  overflows text p || String.eqb p "".

Definition is_edit (ev : Event) : bool :=
  match ev with
  | Edit _ _ _ => true
  | _ => false
  end.

(** The fragment read last, not yet appended. *)
Definition pending (st : Stream) : string :=
  current_content_of (previous_content st).

(** An embed [e] sent by [ev] for a segment whose text will stay [text]:
    it is complete only if it shows all of [text], and an edit that shows
    all of [text] is complete. *)
Definition status_settled (ev : Event) (e : Embed) (text : string) : Prop :=
  (color e = complete -> description e = text)
  /\ (is_edit ev = true -> description e = text -> color e = complete).

(** The same for the segment still open, whose text is [text] so far, with
    the fragment [p] pending. *)
Definition status_open (p : string) (ev : Event) (e : Embed) (text : string) : Prop :=
  len (description e) <= len text
  /\ (color e = complete -> description e = text /\ sealed text p = true)
  /\ (is_edit ev = true -> description e = text -> color e = incomplete ->
      sealed text p = false).

(** The embed [e] sent by [ev] for segment [seg], seen when the segments'
    texts are [texts] and [p] is pending. *)
Definition status_at (texts : list string) (p : string)
    (ev : Event) (seg : nat) (e : Embed) : Prop :=
  exists text,
    texts !! seg = Some text
    /\ (S seg = length texts -> status_open p ev e text)
    /\ (S seg <> length texts -> status_settled ev e text).

(** What the loop keeps true of the statuses sent so far. *)
Definition statuses_follow (st : Stream) : Prop :=
  lists_parallel st
  /\ Forall (fun s => s <> "") (response_message_contents st)
  /\ forall ev seg e, ev ∈ trace st -> rendered ev = Some (seg, e) ->
       status_at (response_message_contents st) (pending st) ev seg e.

(** Until the first fragment is pending, nothing has been sent. *)
Definition quiet_start (st : Stream) : Prop :=
  truthy (previous_content st) = false ->
  response_message_contents st = [] /\ trace st = [].



(** Every embed of the trace belongs to one of the first [n] segments. *)
Definition renders_below (n : nat) (tr : list Event) : Prop :=
  forall ev seg e, ev ∈ tr -> rendered ev = Some (seg, e) -> (seg < n)%nat.


(** Each block answers the one before it, the first the request
    [message_id]. *)
Definition linked (message_id : snowflake) (st : Stream) : Prop :=
  reply_links (trace st)
  = zip (message_id :: response_messages st) (response_messages st).

(** No segment, no pending fragment and no embed sent is longer than the cap. *)
Definition capped (st : Stream) : Prop :=
  Forall within_cap (response_message_contents st)
  /\ within_cap (current_content_of (previous_content st))
  /\ renders_within_cap (trace st).

(** ** Blocks and edits in the order of the calls *)

(** Each [Reply] creates the segment numbered [next], and every [Edit] is
    for the segment created last and addresses the block [newest] that the
    last [Reply] returned. *)
Fixpoint edits_newest_block (next : nat) (newest : option snowflake)
    (tr : list Event) : bool :=
  match tr with
  | [] => true
  | Reply seg _ _ new_id :: rest =>
      bool_decide (seg = next) && edits_newest_block (S next) (Some new_id) rest
  | Edit seg block _ :: rest =>
      bool_decide (S seg = next /\ newest = Some block)
      && edits_newest_block next newest rest
  | _ :: rest => edits_newest_block next newest rest
  end.

(** The number of blocks created and the block created last, after an
    event. *)
Definition blocks_after (acc : nat * option snowflake) (ev : Event)
    : nat * option snowflake :=
  match ev with
  | Reply _ _ _ new_id => (S acc.1, Some new_id)
  | _ => acc
  end.

(** At most one block, the first Discord created for this response. *)
Definition one_block (env : StreamEnv) (st : Stream) : Prop :=
  (response_message_contents st = [] /\ response_messages st = [])
  \/ exists text, response_message_contents st = [text]
                  /\ response_messages st = [reply_id env 0].

(** Every block shows the whole text of its segment. *)
Definition shows_all (st : Stream) : Prop :=
  lists_parallel st
  /\ Forall (fun s => s <> "") (response_message_contents st)
  /\ renders_below (length (response_message_contents st)) (trace st)
  /\ forall seg text,
       response_message_contents st !! seg = Some text ->
       exists e, displayed seg (trace st) = Some e /\ description e = text.

(** Every embed sent so far shows a beginning of the text its segment holds
    now. *)
Definition shows_beginnings (st : Stream) : Prop :=
  lists_parallel st
  /\ forall ev seg e, ev ∈ trace st -> rendered ev = Some (seg, e) ->
       exists text rest,
         response_message_contents st !! seg = Some text
         /\ text = description e +:+ rest.

(** ** Sample configurations and conversations *)

(** An outside in which every edit has finished before the next chunk, the
    edit budget is never used up, and Discord numbers the new blocks 1001,
    1002, ... *)
Definition calm_env : StreamEnv :=
  {| reply_id := fun k => Pos.of_nat (1001 + k);
     task_done := fun _ => true;
     throttle_open := fun _ => true |}.

(** An outside in which an edit is still running whenever the loop looks
    at it. *)
Definition slow_env : StreamEnv :=
  {| reply_id := fun k => Pos.of_nat (1001 + k);
     task_done := fun _ => false;
     throttle_open := fun _ => true |}.

(** A text-only local model, at most two messages of history. *)
Definition local_cfg : Config :=
  {| LLM := "local-model";
     MAX_IMAGES_env := 5;
     MAX_MESSAGES := 2;
     CUSTOM_SYSTEM_PROMPT := "You are a helpful assistant.";
     client_user_id := 7 |}.

(** A model that sees one image per message. *)
Definition vision_cfg : Config :=
  {| LLM := "local-vision";
     MAX_IMAGES_env := 1;
     MAX_MESSAGES := 2;
     CUSTOM_SYSTEM_PROMPT := "You are a helpful assistant.";
     client_user_id := 7 |}.

Definition entry_of (r : Role) (text author : string) : PromptEntry :=
  {| role := r; content := Parts [TextPart text]; name := Some author |}.

(** The thread A <- B <- C in the store: C (message 13) replies to B
    (message 12), which replies to A (message 11). *)
Definition node_A : MessageNode :=
  {| message := entry_of user "A" "3"; too_many_images := false; replied_to := None |}.
Definition node_B : MessageNode :=
  {| message := entry_of assistant "B" "7"; too_many_images := false;
     replied_to := Some 0%nat |}.
Definition node_C : MessageNode :=
  {| message := entry_of user "C" "3"; too_many_images := false;
     replied_to := Some 1%nat |}.

Definition thread_store : Store :=
  {| objects := [node_A; node_B; node_C];
     message_nodes := {[ 11%positive := 0%nat; 12%positive := 1%nat; 13%positive := 2%nat ]} |}.

(** A direct message from user 3 with the given text and attachments. *)
Definition direct_message (i : snowflake) (text : string)
    (atts : list Attachment) (ref : option MessageReference) : Message :=
  {| Discord.id := i;
     Discord.author_id := 3;
     Discord.author_bot := false;
     Discord.channel_private := true;
     Discord.mentions := [];
     Discord.content := text;
     Discord.embeds := [];
     Discord.attachments := atts;
     Discord.reference := ref |}.

Definition attachment (u ct : string) : Attachment :=
  {| Discord.url := u; Discord.content_type := Some ct |}.

Definition two_pdfs : Message :=
  direct_message 21 "see attached"
    [attachment "u1" "application/pdf"; attachment "u2" "application/pdf"] None.

Definition two_photos : Message :=
  direct_message 22 "look"
    [attachment "u1" "image/png"; attachment "u2" "image/jpeg"] None.

Definition photo_node : MessageNode :=
  {| message := {| role := user;
                   content := Parts [TextPart "look"; ImagePart "u1" "low"];
                   name := Some "3" |};
     too_many_images := true;
     replied_to := None |}.

Definition photo_store : Store :=
  {| objects := [photo_node]; message_nodes := {[ 22%positive := 0%nat ]} |}.

Definition empty_store : Store := {| objects := []; message_nodes := ∅ |}.

(** C (message 13) replies to B (message 12), a reply of the client that
    itself replies to message 11, which has been deleted. *)
Definition message_B : Message :=
  {| Discord.id := 12;
     Discord.author_id := 7;
     Discord.author_bot := true;
     Discord.channel_private := true;
     Discord.mentions := [];
     Discord.content := "";
     Discord.embeds := [ {| description := "B"; color := complete; fields := [] |} ];
     Discord.attachments := [];
     Discord.reference :=
       Some {| Discord.message_id := 11; Discord.resolved := None |} |}.

Definition message_C : Message :=
  direct_message 13 "C" []
    (Some {| Discord.message_id := 12; Discord.resolved := None |}).

Definition fetch_B_only (i : snowflake) : Fetched :=
  if decide (i = 12%positive) then Found message_B else NotFound.

Definition empty_world : World := {| store := empty_store; registry := [] |}.

Definition hello_chunks : list (option string) :=
  [Some "Hel"; Some "lo "; Some "world"; None].

(** Nothing can be fetched, the model answers "Hello world", the image
    service is down. *)
Definition hello_env : HandlerEnv :=
  {| fetch_message := fun _ => NotFound;
     today := "November 03 2026";
     completion := fun _ => hello_chunks;
     stream_env := calm_env;
     sd_status := 500 |}.

(** The model answers with 4097 characters, the image service works. *)
Definition long_env : HandlerEnv :=
  {| fetch_message := fun _ => NotFound;
     today := "November 03 2026";
     completion := fun _ => [Some (str_mul "a" 4096); Some "b"; None];
     stream_env := calm_env;
     sd_status := 200 |}.

Definition greeting : Message := direct_message 10 "hello" [] None.

(** A reply to block 1001. *)
Definition follow_up : Message :=
  direct_message 14 "and then?" []
    (Some {| Discord.message_id := 1001; Discord.resolved := None |}).

Definition drawing : Message := direct_message 15 "draw me a cat" [] None.

(** The store once the chain of [drawing] has been built. *)
Definition drawing_store : Store :=
  {| objects := [ {| message := entry_of user "draw me a cat" "3";
                     too_many_images := false;
                     replied_to := None |} ];
     message_nodes := {[ 15%positive := 0%nat ]} |}.

(** An outside in which the edit budget is always used up. *)
Definition throttled_env : StreamEnv :=
  {| reply_id := fun k => Pos.of_nat (1001 + k);
     task_done := fun _ => true;
     throttle_open := fun _ => false |}.

(** A message of user 3 in a server channel that starts by mentioning the
    client. *)
Definition mentioning : Message :=
  {| Discord.id := 16;
     Discord.author_id := 3;
     Discord.author_bot := false;
     Discord.channel_private := false;
     Discord.mentions := [7%positive];
     Discord.content := "<@7>  what is this?";
     Discord.embeds := [];
     Discord.attachments := [];
     Discord.reference := None |}.

(** A direct message with an attachment for which Discord gives no content
    type. *)
Definition untyped_upload : Message :=
  direct_message 17 "see attached"
    [attachment "u1" "image/png";
     {| Discord.url := "u2"; Discord.content_type := None |}] None.

(** The client's reply that carries the generated image (line 210): it has
    no embed. *)
Definition image_reply : Message :=
  {| Discord.id := 1003;
     Discord.author_id := 7;
     Discord.author_bot := true;
     Discord.channel_private := true;
     Discord.mentions := [];
     Discord.content := "";
     Discord.embeds := [];
     Discord.attachments := [attachment "generated_image.png" "image/png"];
     Discord.reference :=
       Some {| Discord.message_id := 15; Discord.resolved := None |} |}.

(** A reply to the generated image, which Discord delivers resolved. *)
Definition nice_cat : Message :=
  direct_message 18 "nice cat" []
    (Some {| Discord.message_id := 1003; Discord.resolved := Some image_reply |}).

(** D (message 14) replies to C (message 13). *)
Definition message_D : Message :=
  direct_message 14 "D" []
    (Some {| Discord.message_id := 13; Discord.resolved := None |}).

(** A cap of no message at all. *)
Definition mute_cfg : Config :=
  {| LLM := "local-model";
     MAX_IMAGES_env := 5;
     MAX_MESSAGES := 0;
     CUSTOM_SYSTEM_PROMPT := "You are a helpful assistant.";
     client_user_id := 7 |}.

(** Two nodes that reply to each other. *)
Definition circle_store : Store :=
  {| objects := [ {| message := entry_of user "A" "3"; too_many_images := false;
                     replied_to := Some 1%nat |};
                  {| message := entry_of assistant "B" "7"; too_many_images := false;
                     replied_to := Some 0%nat |} ];
     message_nodes := {[ 11%positive := 0%nat; 12%positive := 1%nat ]} |}.

(** Two nodes that reply to each other, with a cap of two messages. *)

(** "Draw me a cat". *)
Definition shouted_drawing : Message := direct_message 19 "Draw me a cat" [] None.

(** "Draw me a cat", answered with "Hello world". *)

(** * Properties *)

(** ** Strings *)

Lemma string_app_cons (a : Ascii.ascii) (s t : string) :
  String a s +:+ t = String a (s +:+ t).
Proof. reflexivity. Qed.

Lemma string_app_nil_r (s : string) : s +:+ "" = s.
Proof. induction s as [|a s IH]; [done | by rewrite string_app_cons, IH]. Qed.

Lemma string_app_assoc (s t u : string) : (s +:+ t) +:+ u = s +:+ (t +:+ u).
Proof. induction s as [|a s IH]; [done | by rewrite !string_app_cons, IH]. Qed.

Lemma string_length_app (s t : string) :
  String.length (s +:+ t) = (String.length s + String.length t)%nat.
Proof. induction s as [|a s IH]; [done | rewrite string_app_cons; simpl; by rewrite IH]. Qed.

Lemma len_app (s t : string) : len (s +:+ t) = len s + len t.
Proof. unfold len. rewrite string_length_app. lia. Qed.

Lemma len_nonneg (s : string) : 0 <= len s.
Proof. unfold len. lia. Qed.

Lemma len_empty (s : string) : len s = 0 <-> s = "".
Proof. unfold len. destruct s; simpl; split; intros; (done || lia). Qed.

Lemma str_join_app (l k : list string) : str_join (l ++ k) = str_join l +:+ str_join k.
Proof.
  induction l as [|s l IH]; simpl; [done|].
  by rewrite IH, string_app_assoc.
Qed.

Lemma truthy_false_content (o : option string) :
  truthy o = false -> current_content_of o = "".
Proof.
  destruct o as [s|]; simpl; [|done].
  destruct (String.eqb_spec s ""); [done | discriminate].
Qed.

Lemma truthy_true_content (o : option string) :
  truthy o = true -> current_content_of o <> "".
Proof.
  destruct o as [s|]; simpl; [|discriminate].
  destruct (String.eqb_spec s ""); [discriminate | done].
Qed.

(** ** Lists with a distinguished last element *)

Lemma append_to_last_snoc (l : list string) (s p : string) :
  append_to_last (l ++ [s]) p = l ++ [s +:+ p].
Proof.
  induction l as [|x l IH]; simpl; [done|].
  rewrite IH. by destruct l.
Qed.

Lemma append_to_last_length (l : list string) (p : string) :
  length (append_to_last l p) = length l.
Proof.
  induction l as [|x l IH]; simpl; [done|].
  destruct l; simpl in *; [done | by rewrite IH].
Qed.

Lemma snoc_cases {A} (l : list A) : l = [] \/ exists l' x, l = l' ++ [x].
Proof.
  destruct l as [|a l] using rev_ind; [by left | right; eauto].
Qed.

Lemma last_content_snoc (l : list string) (s : string) :
  last_content (l ++ [s]) = s.
Proof. apply last_last. Qed.

Lemma str_join_append_to_last (l : list string) (p : string) :
  l <> [] -> str_join (append_to_last l p) = str_join l +:+ p.
Proof.
  intros Hne. destruct (snoc_cases l) as [->|(l' & s & ->)]; [done|].
  rewrite append_to_last_snoc, !str_join_app. simpl.
  by rewrite !string_app_nil_r, string_app_assoc.
Qed.

(** ** The scheduler, step by step *)

Section SchedulerFacts.

Variable message_id : snowflake.
Variable user_warnings : gset string.
Variable env : StreamEnv.

Local Abbreviation step := (on_chunk message_id user_warnings env).
Local Abbreviation run_from := (stream_from message_id user_warnings env).
Local Abbreviation run := (stream message_id user_warnings env).

Lemma stream_from_app (i : nat) (cs ds : list (option string)) (st : Stream) :
  run_from i (cs ++ ds) st = run_from (i + length cs) ds (run_from i cs st).
Proof.
  revert i st. induction cs as [|c cs IH]; intros i st; simpl.
  - by rewrite Nat.add_0_r.
  - rewrite IH. f_equal. lia.
Qed.

Lemma stream_snoc (registry : list snowflake) (cs : list (option string)) (c : option string) :
  run registry (cs ++ [c]) = step (length cs) c (run registry cs).
Proof. unfold stream. by rewrite stream_from_app. Qed.

(** A property kept by every iteration holds when the loop is left. *)
Lemma stream_from_invariant (P : Stream -> Prop) :
  (forall i c st, P st -> P (step i c st)) ->
  forall cs i st, P st -> P (run_from i cs st).
Proof.
  intros Hstep cs. induction cs as [|c cs IH]; intros i st Hst; simpl; [done|].
  apply IH, Hstep, Hst.
Qed.

Lemma on_chunk_parallel i c st : lists_parallel st -> lists_parallel (step i c st).
Proof.
  unfold lists_parallel, on_chunk, maybe_edit. intros H.
  destruct (truthy (previous_content st)); simpl; [|done].
  destruct (needs_new_segment _ _); simpl;
    repeat (case_match; simpl); rewrite ?append_to_last_length, ?length_app; simpl; lia.
Qed.

Lemma stream_lists_parallel registry cs : lists_parallel (run registry cs).
Proof. unfold stream. apply stream_from_invariant; [apply on_chunk_parallel | done]. Qed.

(** *** What one iteration does to each variable *)

Lemma on_chunk_previous i c st :
  previous_content (step i c st) = Some (current_content_of c).
Proof. done. Qed.

Lemma on_chunk_contents i c st :
  response_message_contents (step i c st) =
  if truthy (previous_content st) then
    let p := current_content_of (previous_content st) in
    append_to_last
      (if needs_new_segment st p
       then response_message_contents st ++ [""]
       else response_message_contents st) p
  else response_message_contents st.
Proof.
  unfold on_chunk, maybe_edit.
  destruct (truthy (previous_content st)); [|done].
  destruct (needs_new_segment _ _); simpl; repeat (case_match; simpl); done.
Qed.

Lemma on_chunk_messages i c st :
  response_messages (step i c st) =
  if truthy (previous_content st)
     && needs_new_segment st (current_content_of (previous_content st))
  then response_messages st ++ [reply_id env (length (response_messages st))]
  else response_messages st.
Proof.
  unfold on_chunk, maybe_edit.
  destruct (truthy (previous_content st)); [|done].
  destruct (needs_new_segment _ _); simpl; repeat (case_match; simpl); done.
Qed.

Lemma on_chunk_registry i c st :
  in_progress_message_ids (step i c st) =
  if truthy (previous_content st)
     && needs_new_segment st (current_content_of (previous_content st))
  then in_progress_message_ids st ++ [reply_id env (length (response_messages st))]
  else in_progress_message_ids st.
Proof.
  unfold on_chunk, maybe_edit.
  destruct (truthy (previous_content st)); [|done].
  destruct (needs_new_segment _ _); simpl; repeat (case_match; simpl); done.
Qed.

(** A segment that has just been opened is not edited (line 175). *)
Lemma maybe_edit_fresh st i p cur :
  maybe_edit message_id user_warnings env
    (append_previous (open_segment message_id user_warnings env st p cur) p) i p cur
  = append_previous (open_segment message_id user_warnings env st p cur) p.
Proof.
  unfold maybe_edit. simpl.
  rewrite append_to_last_snoc, last_content_snoc.
  change ("" +:+ p) with p. by rewrite String.eqb_refl.
Qed.

(** The text shown after an iteration is the text shown before it followed
    by the fragment that was pending. *)
Lemma on_chunk_join i c st :
  lists_parallel st ->
  str_join (response_message_contents (step i c st)) =
  str_join (response_message_contents st) +:+ current_content_of (previous_content st).
Proof.
  intros Hpar. rewrite on_chunk_contents.
  destruct (truthy (previous_content st)) eqn:Ht.
  - cbv zeta. unfold needs_new_segment.
    destruct (response_messages st) as [|m ms] eqn:Hm.
    + rewrite append_to_last_snoc, str_join_app. simpl.
      by rewrite string_app_nil_r.
    + assert (response_message_contents st <> []) as Hne.
      { intros E. unfold lists_parallel in Hpar. rewrite Hm, E in Hpar. done. }
      case_match.
      * rewrite append_to_last_snoc, str_join_app. simpl.
        by rewrite string_app_nil_r.
      * by apply str_join_append_to_last.
  - by rewrite (truthy_false_content _ Ht), string_app_nil_r.
Qed.

Lemma stream_join registry cs :
  str_join (response_message_contents (run registry cs))
    +:+ current_content_of (previous_content (run registry cs))
  = str_join (fragments cs).
Proof.
  induction cs as [|c cs IH] using rev_ind; [done|].
  rewrite stream_snoc, on_chunk_join by apply stream_lists_parallel.
  rewrite on_chunk_previous, IH. unfold fragments.
  rewrite fmap_app, str_join_app. simpl. by rewrite string_app_nil_r.
Qed.

(** The ids of the blocks opened are appended to the registry. *)
Lemma stream_registry registry cs :
  in_progress_message_ids (run registry cs)
  = registry ++ response_messages (run registry cs).
Proof.
  induction cs as [|c cs IH] using rev_ind; [by rewrite app_nil_r|].
  rewrite stream_snoc, on_chunk_registry, on_chunk_messages, IH.
  destruct (_ && _); [by rewrite app_assoc | done].
Qed.

(** *** The four ways through an iteration *)

Lemma on_chunk_cases i c st :
  let cur := current_content_of c in
  let p := current_content_of (previous_content st) in
  let st2 := append_previous st p in
  (truthy (previous_content st) = false /\ step i c st = set_previous st cur)
  \/ (truthy (previous_content st) = true /\ needs_new_segment st p = true
      /\ step i c st
         = set_previous
             (append_previous (open_segment message_id user_warnings env st p cur) p) cur)
  \/ (truthy (previous_content st) = true /\ needs_new_segment st p = false
      /\ (String.eqb (last_content (response_message_contents st2)) p = true
          \/ edit_now env st2 i cur = false)
      /\ step i c st = set_previous st2 cur)
  \/ (truthy (previous_content st) = true /\ needs_new_segment st p = false
      /\ String.eqb (last_content (response_message_contents st2)) p = false
      /\ edit_now env st2 i cur = true
      /\ step i c st
         = set_previous (dispatch_edit message_id user_warnings env st2 i cur) cur).
Proof.
  intros cur p st2. unfold on_chunk. fold cur. fold p.
  destruct (truthy (previous_content st)); [|by left].
  right. destruct (needs_new_segment st p) eqn:Hn.
  { left. repeat split; try done. by rewrite maybe_edit_fresh. }
  right. fold st2. unfold maybe_edit.
  destruct (String.eqb (last_content (response_message_contents st2)) p) eqn:He.
  { left. repeat split; auto. }
  destruct (edit_now env st2 i cur) eqn:Hd; [right | left]; repeat split; auto.
Qed.

(** Every embed sent during an iteration is sent for the segment that is
    current when the iteration ends, and carries that segment's text. *)
Lemma on_chunk_trace i c st :
  exists new,
    trace (step i c st) = trace st ++ new
    /\ forall ev seg e, ev ∈ new -> rendered ev = Some (seg, e) ->
         seg = Nat.pred (length (response_messages (step i c st)))
         /\ description e = last_content (response_message_contents (step i c st))
         /\ fields e = sorted user_warnings.
Proof.
  destruct (on_chunk_cases i c st)
    as [(_ & E)|[(_ & _ & E)|[(_ & _ & _ & E)|(_ & _ & _ & _ & E)]]]; rewrite E; simpl.
  - exists []. rewrite app_nil_r. split; [done|]. by intros ev seg e ?%elem_of_nil.
  - eexists. split; [done|]. intros ev seg e ->%list_elem_of_singleton Hr.
    simpl in Hr. simplify_eq. simpl.
    rewrite append_to_last_snoc, last_content_snoc, length_app. simpl.
    repeat split; try done. lia.
  - exists []. rewrite app_nil_r. split; [done|]. by intros ev seg e ?%elem_of_nil.
  - eexists. split; [done|]. intros ev seg e Hin Hr.
    apply elem_of_app in Hin as [Hin|Hin].
    + destruct (_ && _); [|by apply elem_of_nil in Hin].
      by apply list_elem_of_singleton in Hin as ->.
    + apply list_elem_of_singleton in Hin as ->. simpl in Hr. by simplify_eq.
Qed.

(** *** The iteration in terms of the segments' texts *)

Lemma parallel_snoc st :
  lists_parallel st -> response_messages st <> [] ->
  exists texts text, response_message_contents st = texts ++ [text].
Proof.
  unfold lists_parallel. intros Hpar Hne.
  destruct (snoc_cases (response_message_contents st)) as [E|(l & x & E)]; [|eauto].
  rewrite E in Hpar. destruct (response_messages st); done.
Qed.

Lemma needs_new_segment_overflows st p texts text :
  response_messages st <> [] ->
  response_message_contents st = texts ++ [text] ->
  needs_new_segment st p = overflows text p.
Proof.
  intros Hne E. unfold needs_new_segment, overflows.
  destruct (response_messages st); [done|]. by rewrite E, last_content_snoc.
Qed.

Lemma needs_new_segment_false st p :
  needs_new_segment st p = false -> response_messages st <> [].
Proof. unfold needs_new_segment. by destruct (response_messages st). Qed.

(** What an iteration leaves behind, by case.  [texts ++ [text]] are the
    segments before it, [p] the pending fragment, [cur] the one just read. *)
Lemma on_chunk_shape i c st :
  lists_parallel st ->
  let cur := current_content_of c in
  let p := pending st in
  let st' := step i c st in
  previous_content st' = Some cur /\
  ((* nothing pending *)
   (truthy (previous_content st) = false
    /\ response_message_contents st' = response_message_contents st
    /\ response_messages st' = response_messages st
    /\ trace st' = trace st)
   \/ (* a segment is opened *)
   (truthy (previous_content st) = true
    /\ (response_messages st = []
        \/ exists texts text, response_message_contents st = texts ++ [text]
                              /\ overflows text p = true)
    /\ response_message_contents st' = response_message_contents st ++ [p]
    /\ response_messages st'
       = response_messages st ++ [reply_id env (length (response_messages st))]
    /\ trace st'
       = trace st ++
         [Reply (length (response_messages st))
            (last_message message_id (response_messages st))
            {| description := p;
               color := if String.eqb cur "" then complete else incomplete;
               fields := sorted user_warnings |}
            (reply_id env (length (response_messages st)))])
   \/ (* the pending fragment joins the current segment *)
   (truthy (previous_content st) = true
    /\ exists texts text,
        response_message_contents st = texts ++ [text]
        /\ overflows text p = false
        /\ response_message_contents st' = texts ++ [text +:+ p]
        /\ response_messages st' = response_messages st
        /\ ((* the edit waits for a later iteration *)
            (trace st' = trace st
             /\ (text +:+ p = p \/ sealed (text +:+ p) cur = false))
            \/ (* the edit is dispatched *)
            (exists waited,
                trace st'
                = trace st ++ waited ++
                  [Edit (length texts)
                     (last_message message_id (response_messages st))
                     {| description := text +:+ p;
                        color := if sealed (text +:+ p) cur
                                 then complete else incomplete;
                        fields := sorted user_warnings |}]
                /\ (waited = [] \/ waited = [AwaitEdit]))))).
Proof.
  intros Hpar cur p st'. split; [done|]. subst st'.
  destruct (on_chunk_cases i c st)
    as [(Ht & E)|[(Ht & Hn & E)|[(Ht & Hn & Hc & E)|(Ht & Hn & Hc & Hd & E)]]];
    rewrite E; clear E.
  - left. done.
  - right; left. split; [done|]. split.
    { destruct (response_messages st) as [|m ms] eqn:Hm; [by left | right].
      destruct (parallel_snoc st Hpar) as (texts & text & Hx); [by rewrite Hm|].
      exists texts, text. split; [done|].
      rewrite <- Hn. symmetry.
      apply (needs_new_segment_overflows st p texts text); [by rewrite Hm | done]. }
    simpl. rewrite append_to_last_snoc. done.
  - right; right. split; [done|].
    pose proof (needs_new_segment_false _ _ Hn) as Hne.
    destruct (parallel_snoc st Hpar Hne) as (texts & text & Hx).
    exists texts, text. split; [done|].
    split; [by rewrite <- Hn; symmetry; apply (needs_new_segment_overflows st p texts text)|].
    simpl. rewrite Hx, append_to_last_snoc. split; [done|]. split; [done|].
    left. split; [done|].
    fold p in Hc. simpl in Hc. rewrite Hx, append_to_last_snoc, last_content_snoc in Hc.
    destruct Hc as [Hc|Hc].
    + left. by apply String.eqb_eq.
    + right. unfold edit_now, final_message_edit in Hc. simpl in Hc.
      rewrite Hx, append_to_last_snoc, last_content_snoc in Hc.
      apply orb_false_iff in Hc as [Hc _]. exact Hc.
  - right; right. split; [done|].
    pose proof (needs_new_segment_false _ _ Hn) as Hne.
    destruct (parallel_snoc st Hpar Hne) as (texts & text & Hx).
    exists texts, text. split; [done|].
    split; [by rewrite <- Hn; symmetry; apply (needs_new_segment_overflows st p texts text)|].
    simpl. rewrite Hx, append_to_last_snoc. split; [done|]. split; [done|].
    right. eexists. split.
    + unfold final_message_edit. simpl.
      rewrite Hx, append_to_last_snoc, last_content_snoc.
      replace (Nat.pred (length (response_messages st))) with (length texts); [done|].
      unfold lists_parallel in Hpar. rewrite Hpar, Hx, length_app. simpl. lia.
    + destruct (_ && _); auto.
Qed.

(** *** The status a segment is rendered with *)

Lemma sealed_empty text : sealed text "" = true.
Proof. unfold sealed. apply orb_true_r. Qed.

Lemma sealed_false text p : overflows text p = false -> p <> "" -> sealed text p = false.
Proof.
  intros Ho Hp. unfold sealed. rewrite Ho. simpl. by apply String.eqb_neq.
Qed.

Lemma len_app_longer text p : p <> "" -> len text < len (text +:+ p).
Proof.
  intros Hp. rewrite len_app. pose proof (len_nonneg p) as H0.
  pose proof (len_empty p) as He. destruct (decide (len p = 0)); [tauto | lia].
Qed.

(** Opening a segment settles the one before it. *)
Lemma status_at_opened texts p p' q ev seg e :
  status_at texts p ev seg e ->
  (forall ts text, texts = ts ++ [text] -> overflows text p = true) ->
  status_at (texts ++ [p']) q ev seg e.
Proof.
  intros (text & Hl & Hopen & Hset) Hov. exists text.
  pose proof (lookup_lt_Some _ _ _ Hl) as Hlt.
  split; [by apply lookup_app_l_Some|]. rewrite length_app. simpl.
  split; [lia|]. intros _.
  destruct (decide (S seg = length texts)) as [Hlast|Hin]; [|by apply Hset].
  destruct (Hopen Hlast) as (_ & Hc & Hi).
  destruct (snoc_cases texts) as [->|(ts & t & ->)]; [done|].
  rewrite length_app in Hlast. simpl in Hlast.
  assert (seg = length ts) as -> by lia.
  rewrite list_lookup_middle in Hl by done. simplify_eq.
  specialize (Hov ts text eq_refl).
  split; [intros Hcol; by destruct (Hc Hcol)|]. intros Hed Hd.
  destruct (color e) eqn:Hcol; [|done].
  specialize (Hi Hed Hd eq_refl). unfold sealed in Hi. by rewrite Hov in Hi.
Qed.

(** Appending to the open segment leaves every embed sent so far
    incomplete and short of the new text. *)
Lemma status_at_appended ts text p q ev seg e :
  status_at (ts ++ [text]) p ev seg e ->
  overflows text p = false -> p <> "" ->
  status_at (ts ++ [text +:+ p]) q ev seg e.
Proof.
  intros (t & Hl & Hopen & Hset) Hov Hp.
  pose proof (lookup_lt_Some _ _ _ Hl) as Hlt.
  rewrite !length_app in *. simpl in *.
  destruct (decide (seg = length ts)) as [->|Hne].
  - rewrite list_lookup_middle in Hl by done. simplify_eq.
    exists (t +:+ p). split; [by rewrite list_lookup_middle|].
    rewrite length_app. simpl. split; [|lia]. intros _.
    destruct Hopen as (Hlen & Hc & _); [lia|].
    pose proof (len_app_longer t p Hp) as Hlong.
    split; [lia|]. split.
    + intros Hcol. destruct (Hc Hcol) as (_ & Hs). by rewrite sealed_false in Hs.
    + intros _ Hd. rewrite Hd in Hlen. lia.
  - exists t. split.
    + rewrite lookup_app_l in Hl |- * by lia. done.
    + rewrite length_app. simpl. split; [lia|]. intros _. apply Hset. lia.
Qed.

Lemma on_chunk_statuses i c st :
  statuses_follow st -> quiet_start st -> statuses_follow (step i c st).
Proof.
  intros (Hpar & Hne & Hev) Hq.
  split; [by apply on_chunk_parallel|].
  destruct (on_chunk_shape i c st Hpar) as (Hprev & Hcases).
  assert (pending (step i c st) = current_content_of c) as Hpend
    by (unfold pending; by rewrite Hprev).
  rewrite Hpend. set (cur := current_content_of c) in *.
  destruct Hcases as [(Ht & Hc & _ & Htr)|[(Ht & Hwhy & Hc & Hm & Htr)
                     |(Ht & ts & text & Hx & Hov & Hc & Hm & Hedit)]].
  - destruct (Hq Ht) as [_ Hnil]. rewrite Hc, Htr, Hnil.
    split; [done|]. by intros ev seg e ?%elem_of_nil.
  - pose proof (truthy_true_content _ Ht) as Hp. fold (pending st) in Hp.
    rewrite Hc, Htr. split.
    { apply Forall_app. split; [done|]. by repeat constructor. }
    intros ev seg e [Hin| ->%list_elem_of_singleton]%elem_of_app Hr.
    + apply status_at_opened with (p := pending st); [by apply Hev|].
      intros ts text E. destruct Hwhy as [Hnil|(ts' & text' & E' & Ho)].
      * unfold lists_parallel in Hpar. rewrite Hnil, E, length_app in Hpar.
        simpl in Hpar. lia.
      * rewrite E in E'. apply app_inj_tail in E' as [_ ->]. done.
    + simpl in Hr. injection Hr as <- <-. exists (pending st).
      unfold lists_parallel in Hpar. rewrite Hpar.
      split; [by rewrite list_lookup_middle|].
      rewrite length_app. simpl. split; [|lia]. intros _.
      split; [simpl; lia|]. simpl. split; [|done].
      destruct (String.eqb_spec cur "") as [->|]; [|done].
      intros _. by rewrite sealed_empty.
  - pose proof (truthy_true_content _ Ht) as Hp. fold (pending st) in Hp.
    rewrite Hc. split.
    { rewrite Hx in Hne. apply Forall_app in Hne as [Hts _].
      apply Forall_app. split; [done|]. repeat constructor.
      intros E. pose proof (len_app_longer text _ Hp) as Hl.
      rewrite E in Hl. pose proof (len_nonneg text).
      change (len "") with 0 in Hl. lia. }
    assert (forall ev seg e, ev ∈ trace st -> rendered ev = Some (seg, e) ->
              status_at (ts ++ [text +:+ pending st]) cur ev seg e) as Hold.
    { intros ev seg e Hin Hr. apply status_at_appended with (p := pending st); [|done..].
      rewrite <- Hx. by apply Hev. }
    destruct Hedit as [(Htr & _)|(waited & Htr & Hw)]; rewrite Htr; [done|].
    intros ev seg e Hin Hr. rewrite !elem_of_app in Hin.
    destruct Hin as [Hin|[Hin|Hin]]; [by apply Hold| |].
    + destruct Hw as [-> | ->]; [by apply elem_of_nil in Hin|].
      by apply list_elem_of_singleton in Hin as ->.
    + apply list_elem_of_singleton in Hin as ->. simpl in Hr. injection Hr as <- <-.
      exists (text +:+ pending st). split; [by rewrite list_lookup_middle|].
      rewrite length_app. simpl. split; [|lia]. intros _.
      split; [simpl; lia|]. simpl.
      destruct (sealed (text +:+ pending st) cur); split; done.
Qed.

Lemma stream_statuses registry (body : list (option string)) :
  Forall (fun f => f <> "") (fragments body) ->
  statuses_follow (run registry body) /\ quiet_start (run registry body).
Proof.
  induction body as [|c body IH] using rev_ind; intros Hbody.
  - split; [|done]. split; [done|]. split; [done|].
    by intros ev seg e ?%elem_of_nil.
  - unfold fragments in Hbody. rewrite fmap_app in Hbody.
    apply Forall_app in Hbody as [Hbody Hc]. apply Forall_inv in Hc.
    destruct (IH Hbody) as [Hs Hq]. rewrite stream_snoc.
    split; [by apply on_chunk_statuses|].
    intros Ht. rewrite on_chunk_previous in Ht. unfold truthy in Ht.
    apply negb_false_iff, String.eqb_eq in Ht. done.
Qed.

(** *** What each block ends up showing *)

Lemma renders_of_app seg (tr new : list Event) :
  renders_of seg (tr ++ new) = renders_of seg tr ++ renders_of seg new.
Proof. apply omap_app. Qed.


Lemma renders_of_edit seg block e : renders_of seg [Edit seg block e] = [e].
Proof. unfold renders_of, render_of. simpl. by rewrite decide_True. Qed.

Lemma renders_of_reply seg target e new_id :
  renders_of seg [Reply seg target e new_id] = [e].
Proof. unfold renders_of, render_of. simpl. by rewrite decide_True. Qed.






(** *** When the loop waits *)




(** *** Whom each new block answers *)

Lemma last_message_default (m m' a : snowflake) (l : list snowflake) :
  last_message m (a :: l) = last_message m' (a :: l).
Proof.
  unfold last_message. revert a. induction l as [|b l IH]; intros a; [done|].
  change (List.last (b :: l) m = List.last (b :: l) m'). apply IH.
Qed.

Lemma last_message_cons (m a : snowflake) (l : list snowflake) :
  last_message m (a :: l) = last_message a l.
Proof.
  destruct l as [|b l]; [done|].
  change (last_message m (b :: l) = last_message a (b :: l)).
  apply last_message_default.
Qed.

Lemma zip_shift_snoc (m x : snowflake) (l : list snowflake) :
  zip (m :: l ++ [x]) (l ++ [x]) = zip (m :: l) l ++ [(last_message m l, x)].
Proof.
  revert m. induction l as [|a l IH]; intros m; [done|].
  rewrite last_message_cons. simpl. f_equal. apply IH.
Qed.

Lemma on_chunk_linked i c st :
  linked message_id st -> linked message_id (step i c st).
Proof.
  unfold linked, reply_links. intros H.
  destruct (on_chunk_cases i c st)
    as [(_ & E)|[(_ & _ & E)|[(_ & _ & _ & E)|(_ & _ & _ & _ & E)]]]; rewrite E;
    cbn [trace response_messages set_previous append_previous open_segment dispatch_edit];
    try done.
  - rewrite omap_app, H, zip_shift_snoc. done.
  - rewrite !omap_app, H. destruct (_ && _); simpl; by rewrite app_nil_r.
Qed.

(** *** No segment outgrows the cap when no fragment does *)

Lemma within_cap_last (l : list string) :
  Forall within_cap l -> within_cap (last_content l).
Proof.
  intros H. destruct (snoc_cases l) as [->|(l' & s & ->)].
  - unfold within_cap, EMBED_MAX_LENGTH. simpl. done.
  - rewrite last_content_snoc. apply Forall_app in H as [_ H]. by inversion H.
Qed.

Lemma on_chunk_capped i c st :
  within_cap (current_content_of c) -> capped st -> capped (step i c st).
Proof.
  intros Hc (Hcont & Hprev & Htr).
  assert (Forall within_cap (response_message_contents (step i c st))) as Hcont'.
  { rewrite on_chunk_contents. destruct (truthy (previous_content st)); [|done].
    cbv zeta. unfold needs_new_segment.
    destruct (response_messages st) as [|m ms].
    - rewrite append_to_last_snoc. apply Forall_app. split; [done|].
      by repeat constructor.
    - destruct (Z.ltb_spec EMBED_MAX_LENGTH
        (len (last_content (response_message_contents st)
                +:+ current_content_of (previous_content st)))) as [Hlt|Hle].
      + rewrite append_to_last_snoc. apply Forall_app. split; [done|].
        by repeat constructor.
      + destruct (snoc_cases (response_message_contents st)) as [->|(l' & s & E)];
          [done|].
        rewrite E in *. rewrite last_content_snoc in Hle.
        rewrite append_to_last_snoc. apply Forall_app in Hcont as [Hl' _].
        apply Forall_app. split; [done|]. by repeat constructor. }
  split; [done|]. split; [done|].
  destruct (on_chunk_trace i c st) as (new & -> & Hnew).
  intros ev seg e [Hin|Hin]%elem_of_app Hr.
  - by eapply Htr.
  - destruct (Hnew _ _ _ Hin Hr) as (_ & -> & _). by apply within_cap_last.
Qed.

Lemma stream_from_capped cs i st :
  Forall within_cap (fragments cs) -> capped st -> capped (run_from i cs st).
Proof.
  revert i st. induction cs as [|c cs IH]; intros i st Hcs Hst; simpl; [done|].
  apply Forall_cons in Hcs as [Hc Hcs]. by apply IH, on_chunk_capped.
Qed.

End SchedulerFacts.

(** ** The node of one message *)

Section NodeFacts.

Variable cfg : Config.

Lemma message_images_spec atts images :
  message_images atts = Done images ->
  images = image_part <$> filter (fun a => is_image a = true) atts.
Proof.
  revert images. induction atts as [|att atts IH]; intros images H; simpl in H.
  - by injection H as <-.
  - destruct (Discord.content_type att) as [ct|] eqn:Hct; [|done].
    destruct (message_images atts) as [rest| |] eqn:Hrest; simpl in H; try done.
    injection H as <-. rewrite (IH rest eq_refl), filter_cons.
    assert (is_image att = contains "image" ct) as Hi
      by (unfold is_image; by rewrite Hct).
    destruct (contains "image" ct).
    + by rewrite decide_True.
    + rewrite decide_False; [done|]. by rewrite Hi.
Qed.

Lemma slice_to_nonneg {A} (k : Z) (l : list A) :
  0 <= k -> slice_to k l = take (Z.to_nat k) l.
Proof. intros Hk. unfold slice_to. by destruct (Z.leb_spec 0 k); [|lia]. Qed.

Lemma filter_image_parts (atts : list Attachment) :
  filter (fun p => is_image_part p = true) (image_part <$> atts) = image_part <$> atts.
Proof.
  induction atts as [|a atts IH]; [done|].
  rewrite fmap_cons, filter_cons, IH. by rewrite decide_True.
Qed.

(** Lines 89-114 raise nothing on a well-formed message. *)
Lemma well_formed_buildable m : well_formed cfg m -> buildable cfg m.
Proof.
  intros [Hembed Hatts]. unfold buildable, new_message_node, message_text.
  assert (exists images, message_images (Discord.attachments m) = Done images)
    as (images & ->).
  { clear Hembed. induction Hatts as [|att atts [ct Hct] _ (images & IH)].
    - by eexists.
    - simpl. rewrite Hct, IH. by eexists. }
  destruct (by_client cfg m); [|by eexists].
  destruct (Discord.embeds m); [by destruct Hembed | by eexists].
Qed.

(** What lines 89-114 build, when they raise nothing. *)
Lemma new_message_node_spec m node :
  new_message_node cfg m = Done node ->
  let images := image_part <$> filter (fun a => is_image a = true) (Discord.attachments m) in
  too_many_images node = (MAX_IMAGES cfg <? Z.of_nat (length images))
  /\ replied_to node = None
  /\ image_parts (content (message node))
     = (if contains "mistral" (LLM cfg) then [] else slice_to (MAX_IMAGES cfg) images).
Proof.
  unfold new_message_node. intros H.
  destruct (message_text cfg m) as [text| |]; simpl in H; try done.
  destruct (message_images (Discord.attachments m)) as [images| |] eqn:Himg;
    simpl in H; try done.
  apply message_images_spec in Himg. subst images.
  injection H as <-. simpl. split; [done|]. split; [done|].
  destruct (contains "mistral" (LLM cfg)); [done|]. simpl.
  rewrite filter_app.
  assert (filter (fun p => is_image_part p = true)
            (if String.eqb text "" then [] else [TextPart text]) = []) as ->
    by (by destruct (String.eqb text "")).
  simpl. unfold slice_to.
  destruct (0 <=? MAX_IMAGES cfg); rewrite <- fmap_take; apply filter_image_parts.
Qed.

End NodeFacts.

(** ** ChainBuilder *)

Section ChainFacts.

Variable cfg : Config.
Variable fetch : snowflake -> Fetched.

Lemma ascent_fails_nonempty known m path :
  ascent_fails fetch known m path -> exists rest, path = m :: rest.
Proof. destruct 1; eauto. Qed.

Lemma linked_nodes_cons base node next rest :
  linked_nodes base (node :: next :: rest)
  = set_replied_to (S base) node :: linked_nodes (S base) (next :: rest).
Proof. done. Qed.

Lemma linked_nodes_length base built : length (linked_nodes base built) = length built.
Proof.
  revert base. induction built as [|n [|n' rest] IH]; intros base; [done..|].
  rewrite linked_nodes_cons. simpl in *. by rewrite IH.
Qed.

(** Linking changes nothing but [replied_to]. *)
Lemma linked_nodes_same base built :
  Forall2 (fun n0 node => message node = message n0
                          /\ too_many_images node = too_many_images n0)
          built (linked_nodes base built).
Proof.
  revert base. induction built as [|n [|n' rest] IH]; intros base.
  - constructor.
  - by repeat constructor.
  - rewrite linked_nodes_cons. constructor; [done | apply IH].
Qed.

(** Nodes stored in a row and linked each to the next form a chain. *)
Lemma chain_from_linked built :
  built <> [] ->
  Forall (fun n => replied_to n = None) built ->
  forall pre,
    chain_from (pre ++ linked_nodes (length pre) built) (Some (length pre))
      (linked_nodes (length pre) built).
Proof.
  induction built as [|n [|n' rest] IH]; intros Hne Hnone pre; [done| |].
  - simpl. econstructor; [by apply list_lookup_middle|].
    apply Forall_inv in Hnone. rewrite Hnone. constructor.
  - rewrite linked_nodes_cons.
    econstructor; [by apply list_lookup_middle|]. simpl.
    apply Forall_inv_tail in Hnone.
    specialize (IH ltac:(done) Hnone (pre ++ [set_replied_to (S (length pre)) n])).
    rewrite length_app in IH. simpl in IH.
    replace (length pre + 1)%nat with (S (length pre)) in IH by lia.
    by rewrite <- app_assoc in IH.
Qed.

Lemma relinked_length st previous : length (relinked st previous) = length (objects st).
Proof. unfold relinked. destruct (_ ≫= _); [apply length_alter | done]. Qed.

(** Lines 106-116. *)
Lemma store_and_link st previous key node :
  match previous with
  | Some p => p <> key
              /\ exists a, message_nodes st !! p = Some a
                           /\ (a < length (objects st))%nat
  | None => True
  end ->
  exists st2,
    match previous with
    | Some p => link p key (store_node key node st)
    | None => Done (store_node key node st)
    end = Done st2
    /\ objects st2 = relinked st previous ++ [node]
    /\ message_nodes st2 = <[key := length (objects st)]> (message_nodes st).
Proof.
  destruct previous as [p|]; [|by eexists].
  intros (Hne & a & Hp & Ha). unfold link, store_node. simpl.
  rewrite lookup_insert_eq. simpl.
  rewrite (lookup_insert_ne _ key p), Hp by done. simpl.
  eexists. split; [done|]. simpl.
  split; [|done]. unfold relinked. simpl. rewrite Hp. by rewrite alter_app_l.
Qed.

(** The loop of lines 88-130 along a walk that ends at a failed fetch:
    it stores one node per message walked, links each to the next, and
    returns. *)
Lemma build_chain_ascent known m path :
  ascent_fails fetch known m path ->
  forall fuel st previous built,
    (forall k, k ∈ known <-> is_Some (message_nodes st !! k)) ->
    Forall2 (fun msg node => new_message_node cfg msg = Done node) path built ->
    (length path <= fuel)%nat ->
    match previous with
    | Some key => key <> Discord.id m
                  /\ exists a, message_nodes st !! key = Some a
                               /\ (a < length (objects st))%nat
    | None => True
    end ->
    exists st',
      build_chain cfg fuel fetch m previous st = Done st'
      /\ objects st' = relinked st previous ++ linked_nodes (length (objects st)) built
      /\ message_nodes st' !! Discord.id m = Some (length (objects st))
      /\ forall k, k ∈ known -> k <> Discord.id m ->
                   message_nodes st' !! k = message_nodes st !! k.
Proof.
  induction 1 as [known m r Href Hfresh Hres Hfail
                 |known m r m' path Href Hfresh Hnext Hid Hrest IH];
    intros fuel st previous built Hknown Hbuilt Hfuel Hprev.
  all: destruct fuel as [|fuel]; [simpl in Hfuel; lia|].
  all: apply Forall2_cons_inv_l in Hbuilt as (node & built' & Hnode & Hbuilt' & ->).
  all: simpl; rewrite Hnode; simpl.
  all: set (base := length (objects st)).
  all: destruct (store_and_link st previous (Discord.id m) node Hprev)
         as (st2 & -> & Hobj2 & Hmap2).
  all: simpl; rewrite Href.
  all: assert (message_nodes st2 !! Discord.message_id r = None) as Hnew
         by (rewrite Hmap2; apply eq_None_not_Some; intros Hsome;
             apply Hfresh; apply elem_of_union;
             destruct (decide (Discord.id m = Discord.message_id r)) as [E|E];
             [right; by apply elem_of_singleton
             |left; apply Hknown; by rewrite lookup_insert_ne in Hsome]).
  all: rewrite bool_decide_eq_false_2 by (rewrite Hnew; by intros [? ?]).
  - (* the fetch fails here *)
    unfold referenced_message. rewrite Hres.
    assert (match fetch (Discord.message_id r) with
            | Found m0 => Some m0
            | _ => None
            end = None) as -> by (by destruct Hfail as [-> | ->]).
    apply Forall2_nil_inv_l in Hbuilt' as ->.
    exists st2. split; [done|]. split; [done|]. rewrite Hmap2. split.
    + by rewrite lookup_insert_eq.
    + intros k _ Hk. by rewrite lookup_insert_ne.
  - (* the walk goes on *)
    rewrite Hnext.
    destruct (ascent_fails_nonempty _ _ _ Hrest) as (rest & ->).
    destruct (IH fuel st2 (Some (Discord.id m)) built') as (st' & Hrun & Hobj & Hleaf & Hkeep).
    + intros k. rewrite Hmap2, elem_of_union, elem_of_singleton, Hknown.
      destruct (decide (Discord.id m = k)) as [->|Hk].
      * rewrite lookup_insert_eq. split; [eauto | by right].
      * rewrite lookup_insert_ne by done. split; [by intros [?|?] | by left].
    + done.
    + simpl in Hfuel |- *. lia.
    + split.
      * intros E. apply Hfresh. rewrite E, Hid. apply elem_of_union. right.
        by apply elem_of_singleton.
      * exists base. rewrite Hmap2, lookup_insert_eq, Hobj2, length_app, relinked_length.
        split; [done | simpl; lia].
    + exists st'. split; [done|].
      assert (length (objects st2) = S base) as Hlen2
        by (rewrite Hobj2, length_app, relinked_length; simpl; lia).
      apply Forall2_cons_inv_l in Hbuilt' as (node' & built'' & _ & _ & ->).
      split; [|split].
      * rewrite Hobj, Hlen2. unfold relinked at 1. simpl.
        rewrite Hmap2, lookup_insert_eq, Hlen2, Hobj2.
        rewrite alter_app_r_alt by (by rewrite relinked_length).
        rewrite relinked_length, Nat.sub_diag. simpl. by rewrite <- app_assoc.
      * rewrite Hkeep.
        -- by rewrite Hmap2, lookup_insert_eq.
        -- apply elem_of_union. right. by apply elem_of_singleton.
        -- intros E. apply Hfresh. rewrite <- Hid, <- E. apply elem_of_union. right.
           by apply elem_of_singleton.
      * intros k Hk Hkm. rewrite Hkeep.
        -- by rewrite Hmap2, lookup_insert_ne.
        -- apply elem_of_union. by left.
        -- intros E. apply Hfresh. rewrite <- Hid, <- E. apply elem_of_union. by left.
Qed.

Lemma new_message_node_unlinked m node :
  new_message_node cfg m = Done node -> replied_to node = None.
Proof. intros H. by destruct (new_message_node_spec cfg m node H) as (_ & ? & _). Qed.

End ChainFacts.

(** ** HistoryAssembler *)

Section AssemblerFacts.

Variable cfg : Config.

Lemma chain_from_last objs a nodes :
  chain_from objs a nodes -> (a = None <-> nodes = []).
Proof. intros H. destruct H; split; intros; done. Qed.

(** The loop of lines 136-142 from any of its states: it takes the [k]
    next nodes of the chain, where [k] is what is missing to
    [MAX_MESSAGES], warns about images when one of them is flagged, and
    about the message count when it stops before the chain does. *)
Lemma collect_chain_spec objs current nodes :
  chain_from objs current nodes ->
  forall fuel reply_chain user_warnings,
    let k := Z.to_nat (MAX_MESSAGES cfg - Z.of_nat (length reply_chain)) in
    (k <= fuel)%nat ->
    exists ws,
      collect_chain cfg fuel objs reply_chain user_warnings current
      = Done (reply_chain ++ (message <$> take k nodes), ws)
      /\ forall x, x ∈ ws <->
           x ∈ user_warnings
           \/ (x = MAX_IMAGE_WARNING cfg
               /\ exists n, n ∈ take k nodes /\ too_many_images n = true)
           \/ (x = MAX_MESSAGE_WARNING cfg /\ (0 < k < length nodes)%nat).
Proof.
  induction 1 as [|a node rest Hobj Hrest IH]; intros fuel rc ws k Hfuel.
  - exists ws. split.
    + rewrite take_nil. destruct fuel; simpl; by rewrite app_nil_r.
    + intros x. rewrite take_nil. split; [auto|].
      intros [?|[(_ & n & Hn & _)|(_ & ? & ?)]]; [done | by apply elem_of_nil in Hn | simpl in *; lia].
  - assert (collect_chain cfg fuel objs rc ws (Some a)
            = if Z.of_nat (length rc) <? MAX_MESSAGES cfg
              then match fuel with
                   | O => Unfinished
                   | S fuel' =>
                       node ← or_raise KeyError (objs !! a);
                       let rc' := rc ++ [message node] in
                       let w1 := if too_many_images node
                                 then ws ∪ {[MAX_IMAGE_WARNING cfg]} else ws in
                       let w2 := if (Z.of_nat (length rc') =? MAX_MESSAGES cfg)
                                    && bool_decide (is_Some (replied_to node))
                                 then w1 ∪ {[MAX_MESSAGE_WARNING cfg]} else w1 in
                       collect_chain cfg fuel' objs rc' w2 (replied_to node)
                   end
              else Done (rc, ws)) as -> by (by destruct fuel).
    destruct (Z.ltb_spec (Z.of_nat (length rc)) (MAX_MESSAGES cfg)) as [Hlt|Hge].
    2:{ exists ws. assert (k = 0%nat) as -> by (subst k; lia).
        split; [simpl; by rewrite app_nil_r|].
        intros x. split; [auto|].
        intros [?|[(_ & n & Hn & _)|(_ & ? & ?)]]; [done | by apply elem_of_nil in Hn | lia]. }
    destruct fuel as [|fuel]; [subst k; lia|].
    rewrite Hobj. simpl.
    set (rc' := rc ++ [message node]).
    set (w1 := if too_many_images node then ws ∪ {[MAX_IMAGE_WARNING cfg]} else ws).
    set (w2 := if (Z.of_nat (length rc') =? MAX_MESSAGES cfg)
                  && bool_decide (is_Some (replied_to node))
               then w1 ∪ {[MAX_MESSAGE_WARNING cfg]} else w1).
    assert (length rc' = S (length rc)) as Hlen
      by (subst rc'; rewrite length_app; simpl; lia).
    destruct (IH fuel rc' w2) as (ws' & Hrun & Hws).
    { rewrite Hlen. subst k. lia. }
    exists ws'. split.
    + rewrite Hrun. f_equal. f_equal. subst rc'. rewrite <- app_assoc. f_equal.
      assert (k = S (Z.to_nat (MAX_MESSAGES cfg - Z.of_nat (length (rc ++ [message node])))))
        as -> by (rewrite Hlen; subst k; lia).
      done.
    + assert (exists k', k = S k' /\
                k' = Z.to_nat (MAX_MESSAGES cfg - Z.of_nat (length rc')))
        as (k' & Hk & Hk') by (eexists; split; [|done]; rewrite Hlen; subst k; lia).
      rewrite <- Hk' in Hws. rewrite Hk. clear Hrun.
      assert (is_Some (replied_to node) <-> rest <> []) as Hsome.
      { pose proof (chain_from_last _ _ _ Hrest) as [H1 H2].
        rewrite <- not_eq_None_Some. split; intros Hx Hy; apply Hx; auto. }
      assert (Z.of_nat (length rc') = MAX_MESSAGES cfg <-> k' = 0%nat) as Hfull by lia.
      assert (forall x, x ∈ w2 <->
                x ∈ ws
                \/ (x = MAX_IMAGE_WARNING cfg /\ too_many_images node = true)
                \/ (x = MAX_MESSAGE_WARNING cfg /\ k' = 0%nat /\ rest <> [])) as Hw2.
      { intros x. subst w2 w1.
        destruct (Z.eqb_spec (Z.of_nat (length rc')) (MAX_MESSAGES cfg)) as [Heq|Hneq];
          destruct (bool_decide_reflect (is_Some (replied_to node))) as [Hs|Hs];
          destruct (too_many_images node); simpl; set_unfold;
          intuition (auto; congruence). }
      assert ((0 < S k' < length (node :: rest))%nat <->
              (k' = 0%nat /\ rest <> []) \/ (0 < k' < length rest)%nat) as Hmsg.
      { destruct rest; simpl; [intuition (auto; lia)|].
        split; [intros ?|intros [[? _]|?]]; try lia.
        destruct k'; [left; split; [done|done] | right; lia]. }
      assert ((exists n, n ∈ take (S k') (node :: rest) /\ too_many_images n = true) <->
              too_many_images node = true
              \/ exists n, n ∈ take k' rest /\ too_many_images n = true) as Himg.
      { simpl. setoid_rewrite elem_of_cons. split.
        - intros (n & [-> | Hn] & Hf); eauto.
        - intros [Hf|(n & Hn & Hf)]; eauto. }
      intros x. rewrite Hws, Hw2, Hmsg, Himg. tauto.
Qed.

(** The two warnings are different strings. *)
Lemma warnings_differ : MAX_MESSAGE_WARNING cfg <> MAX_IMAGE_WARNING cfg.
Proof.
  unfold MAX_MESSAGE_WARNING, MAX_IMAGE_WARNING. intros H.
  apply (f_equal (String.get 7)) in H.
  destruct (0 <? MAX_IMAGES cfg); discriminate H.
Qed.

Lemma assemble_spec today st key leaf nodes :
  message_nodes st !! key = Some leaf ->
  chain_from (objects st) (Some leaf) nodes ->
  let k := Z.to_nat (MAX_MESSAGES cfg) in
  exists ws,
    assemble cfg today st key
    = Done (get_system_prompt cfg today ++ rev (message <$> take k nodes),
            message <$> take k nodes, ws)
    /\ forall x, x ∈ ws <->
         (x = MAX_IMAGE_WARNING cfg
          /\ exists n, n ∈ take k nodes /\ too_many_images n = true)
         \/ (x = MAX_MESSAGE_WARNING cfg /\ (0 < k < length nodes)%nat).
Proof.
  intros Hkey Hchain k. unfold assemble. rewrite Hkey. simpl.
  destruct (collect_chain_spec _ _ _ Hchain (Z.to_nat (MAX_MESSAGES cfg)) [] ∅)
    as (ws & Hrun & Hws); [simpl; lia|].
  simpl in Hrun, Hws.
  replace (MAX_MESSAGES cfg - Z.of_nat 0) with (MAX_MESSAGES cfg) in * by lia.
  rewrite Hrun. simpl. exists ws. split; [done|].
  intros x. rewrite Hws. set_unfold. tauto.
Qed.

End AssemblerFacts.

(** ** After the stream *)

Section AfterStreamFacts.

Variable cfg : Config.

Lemma prefix_lower (n h : string) :
  String.prefix n h = true -> String.prefix (lower n) (lower h) = true.
Proof.
  revert h. induction n as [|a n IH]; intros h H; [by destruct h|].
  destruct h as [|b h]; simpl in *; [done|].
  destruct (Ascii.ascii_dec a b) as [->|]; [|done].
  destruct (Ascii.ascii_dec (lower_char b) (lower_char b)); [by apply IH | done].
Qed.

Lemma contains_lower (n h : string) :
  contains n h = true -> contains (lower n) (lower h) = true.
Proof.
  induction h as [|b h IH]; intros H.
  - destruct n; [done | simpl in H; done].
  - simpl in *. apply orb_true_iff in H as [H|H].
    + apply (prefix_lower n (String b h)) in H. simpl in H. by rewrite H.
    + rewrite (IH H). apply orb_true_r.
Qed.

Lemma list_remove_elem (x : snowflake) (l : list snowflake) :
  x ∈ l ->
  exists l', list_remove x l = Some l'
             /\ (forall y, y ∈ l -> y <> x -> y ∈ l')
             /\ (forall y, y ∈ l' -> y ∈ l)
             /\ (NoDup l -> NoDup l' /\ x ∉ l').
Proof.
  induction l as [|z l IH]; intros Hx; [by apply elem_of_nil in Hx|].
  simpl. destruct (decide (x = z)) as [->|Hne].
  - exists l. split; [done|]. split; [|split].
    + intros y [->|Hy]%elem_of_cons Hyz; done.
    + intros y Hy. by right.
    + intros [Hz Hl]%NoDup_cons. done.
  - apply elem_of_cons in Hx as [->|Hx]; [done|].
    destruct (IH Hx) as (l' & -> & Hkeep & Hsub & Hnd).
    exists (z :: l'). split; [done|]. split; [|split].
    + intros y [->|Hy]%elem_of_cons Hyx; [by left | right; by apply Hkeep].
    + intros y [->|Hy]%elem_of_cons; [by left | right; by apply Hsub].
    + intros [Hz Hl]%NoDup_cons. destruct (Hnd Hl) as [Hnd' Hx'].
      split.
      * apply NoDup_cons. split; [|done]. intros Hz'. by apply Hz, Hsub.
      * intros [->|?]%elem_of_cons; done.
Qed.

(** Lines 218-227: one node per response message, stored in order, each
    holding the whole reply and pointing at the node of the request; the
    ids are taken out of the registry. *)
Lemma register_response_spec reply key request_node (rms : list snowflake) :
  forall st reg,
    message_nodes st !! key = Some request_node ->
    key ∉ rms ->
    NoDup rms ->
    (forall rid, rid ∈ rms -> rid ∈ reg) ->
    exists st' reg',
      register_response cfg reply key rms st reg = Done (st', reg')
      /\ objects st'
         = objects st ++ replicate (length rms) (response_node cfg reply request_node)
      /\ (forall k rid, rms !! k = Some rid ->
            message_nodes st' !! rid = Some (length (objects st) + k)%nat)
      /\ (forall other, other ∉ rms ->
            message_nodes st' !! other = message_nodes st !! other)
      /\ (forall y, y ∈ reg' -> y ∈ reg)
      /\ (NoDup reg -> NoDup reg' /\ forall rid, rid ∈ rms -> rid ∉ reg').
Proof.
  induction rms as [|rid rest IH]; intros st reg Hkey Hnot Hnd Hreg.
  - exists st, reg. simpl. rewrite app_nil_r. repeat split; try done.
    intros rid ?%elem_of_nil. done.
  - apply NoDup_cons in Hnd as [Hrid Hnd].
    apply not_elem_of_cons in Hnot as [Hkr Hnot].
    destruct (list_remove_elem rid reg) as (reg1 & Hrem & Hkeep & Hsub & Hnd1);
      [apply Hreg; by left|].
    simpl. rewrite Hkey. simpl. rewrite Hrem. simpl.
    fold (response_node cfg reply request_node).
    set (st1 := store_node rid (response_node cfg reply request_node) st).
    destruct (IH st1 reg1) as (st' & reg' & Hrun & Hobj & Hnew & Hold & Hsub' & Hnd');
      [..|exists st', reg'].
    + subst st1. simpl. by rewrite lookup_insert_ne.
    + done.
    + done.
    + intros r Hr. apply Hkeep; [apply Hreg; by right|]. by intros ->.
    + split; [done|]. subst st1. simpl in *. split; [|split; [|split; [|split]]].
      * rewrite Hobj, <- app_assoc. done.
      * intros [|k] r Hk; simpl in Hk.
        -- injection Hk as <-. rewrite Hold by done.
           rewrite lookup_insert_eq. f_equal. lia.
        -- rewrite (Hnew k r Hk), length_app. simpl. f_equal. lia.
      * intros other [Hne Hother]%not_elem_of_cons.
        rewrite Hold by done. by rewrite lookup_insert_ne.
      * intros y Hy. by apply Hsub, Hsub'.
      * intros Hndreg. destruct (Hnd1 Hndreg) as [Hnd1' Hrid1].
        destruct (Hnd' Hnd1') as [Hnd'' Hgone]. split; [done|].
        intros r [->|Hr]%elem_of_cons; [|by apply Hgone].
        intros Hin. by apply Hrid1, Hsub'.
Qed.

End AfterStreamFacts.

(** ** The handler *)

Section HandlerFacts.

Variable cfg : Config.

(** With a cap below one message the history is empty and line 146 raises:
    no request is answered. *)
Lemma no_answer_below_one_message fuel env m w w' tr :
  MAX_MESSAGES cfg <= 0 -> on_message cfg fuel env m w <> Finished w' tr.
Proof.
  intros Hmax. unfold on_message.
  destruct (unwanted cfg m); [done|].
  destruct (still_generating m (registry w)); [done|].
  destruct (build_chain cfg fuel (fetch_message env) m None (store w)) as [st| |];
    [|done..].
  unfold assemble.
  destruct (message_nodes st !! Discord.id m) as [leaf|]; simpl; [|done].
  assert (collect_chain cfg (Z.to_nat (MAX_MESSAGES cfg)) (objects st) [] ∅ (Some leaf)
          = Done ([], ∅)) as ->; [|done].
  replace (Z.to_nat (MAX_MESSAGES cfg)) with 0%nat by lia. simpl.
  change (Z.of_nat 0) with 0.
  destruct (Z.ltb_spec 0 (MAX_MESSAGES cfg)); [lia | done].
Qed.

(** A request whose text does not contain "draw me" in any spelling leaves
    every block of its response in the registry. *)
Lemma registry_grows_without_drawing env m st user_warnings reg chunks :
  contains "draw me" (lower (Discord.content m)) = false ->
  let s := stream (Discord.id m) user_warnings (stream_env env) reg chunks in
  after_stream cfg env m st s
  = Finished {| store := st; registry := reg ++ response_messages s |} (trace s).
Proof.
  intros Hdraw s. unfold after_stream. rewrite Hdraw.
  subst s. by rewrite stream_registry.
Qed.

End HandlerFacts.

(** The thread A <- B <- C with [MAX_MESSAGES = 2]: the history is B, C in
    that order after the system prompt, with the message-count warning. *)
Example thread_history :
  assemble local_cfg "November 03 2026" thread_store 13
  = Done (get_system_prompt local_cfg "November 03 2026"
            ++ [message node_B; message node_C],
          [message node_C; message node_B],
          {[ MAX_MESSAGE_WARNING local_cfg ]}).
Proof. vm_compute. reflexivity. Qed.

(** A reply to a reply whose own target has been deleted is answered: the
    handler returns, with the two messages it could walk stored and linked. *)
Example deleted_ancestor_is_tolerated :
  exists w tr,
    on_message local_cfg 2
      {| fetch_message := fetch_B_only;
         today := "November 03 2026";
         completion := fun _ => hello_chunks;
         stream_env := calm_env;
         sd_status := 500 |}
      message_C empty_world
    = Finished w tr
    /\ chain_from (objects (store w)) (message_nodes (store w) !! 13%positive)
         [ {| message := entry_of user "C" "3"; too_many_images := false;
              replied_to := Some 1%nat |};
           {| message := entry_of assistant "B" "7"; too_many_images := false;
              replied_to := None |} ].
Proof.
  eexists _, _. split; [vm_compute; reflexivity|].
  repeat (econstructor; [reflexivity|]). constructor.
Qed.

(** ** More about the scheduler *)

Section SchedulerMore.

Variable message_id : snowflake.
Variable user_warnings : gset string.
Variable env : StreamEnv.

Local Abbreviation step := (on_chunk message_id user_warnings env).
Local Abbreviation run_from := (stream_from message_id user_warnings env).
Local Abbreviation run := (stream message_id user_warnings env).

(** *** A stream without text *)

Lemma stream_silent registry (cs : list (option string)) :
  Forall (fun f => f = "") (fragments cs) ->
  run registry cs
  = match cs with
    | [] => stream_start registry
    | _ => set_previous (stream_start registry) ""
    end.
Proof.
  induction cs as [|c cs IH] using rev_ind; intros Hcs; [done|].
  unfold fragments in Hcs. rewrite fmap_app in Hcs.
  apply Forall_app in Hcs as [Hcs Hc]. apply Forall_inv in Hc.
  rewrite stream_snoc, (IH Hcs).
  assert (cs ++ [c] <> []) as Hne by (by destruct cs).
  destruct (cs ++ [c]) eqn:E; [done|]. clear E Hne.
  unfold on_chunk. rewrite Hc.
  by destruct cs.
Qed.

(** *** A reply that fits into one embed *)

Lemma on_chunk_one_block i c st :
  lists_parallel st -> one_block env st ->
  len (str_join (response_message_contents st) +:+ pending st) <= EMBED_MAX_LENGTH ->
  one_block env (step i c st).
Proof.
  intros Hpar Hone Hfit.
  destruct (on_chunk_shape message_id user_warnings env i c st Hpar)
    as [_ [(_ & Hc & Hm & _)|[(_ & Hwhy & Hc & Hm & _)|(_ & texts & text & Hx & _ & Hc & Hm & _)]]].
  - unfold one_block. by rewrite Hc, Hm.
  - destruct Hone as [[E1 E2]|(t & E1 & E2)].
    + right. exists (pending st). by rewrite Hc, Hm, E1, E2.
    + destruct Hwhy as [Hwhy|(texts & text & Hx & Hover)]; [by rewrite E2 in Hwhy|].
      rewrite E1 in Hx, Hfit.
      destruct texts as [|? [|? ?]]; simplify_eq/=.
      rewrite string_app_nil_r in Hfit.
      unfold overflows in Hover. apply Z.ltb_lt in Hover. lia.
  - destruct Hone as [[E1 E2]|(t & E1 & E2)].
    + rewrite E1 in Hx. by destruct texts.
    + right. rewrite E1 in Hx. destruct texts as [|? [|? ?]]; simplify_eq/=.
      exists (text +:+ pending st). by rewrite Hc, Hm.
Qed.

Lemma fragments_snoc (cs : list (option string)) (c : option string) :
  str_join (fragments (cs ++ [c])) = str_join (fragments cs) +:+ current_content_of c.
Proof.
  unfold fragments. rewrite fmap_app, str_join_app. simpl. by rewrite string_app_nil_r.
Qed.

Lemma stream_one_block registry (cs : list (option string)) :
  len (str_join (fragments cs)) <= EMBED_MAX_LENGTH ->
  one_block env (run registry cs).
Proof.
  induction cs as [|c cs IH] using rev_ind; intros Hfit; [by left|].
  rewrite fragments_snoc, len_app in Hfit.
  pose proof (len_nonneg (current_content_of c)).
  rewrite stream_snoc. apply on_chunk_one_block.
  - apply stream_lists_parallel.
  - apply IH. lia.
  - unfold pending. rewrite stream_join. lia.
Qed.

(** *** Edits go to the newest block *)

Lemma edits_newest_block_app (tr new : list Event) next newest :
  edits_newest_block next newest (tr ++ new)
  = edits_newest_block next newest tr
    && edits_newest_block (foldl blocks_after (next, newest) tr).1
         (foldl blocks_after (next, newest) tr).2 new.
Proof.
  revert next newest. induction tr as [|ev tr IH]; intros next newest; [done|].
  destruct ev; simpl; rewrite ?IH, <- ?andb_assoc; done.
Qed.

Lemma last_last_message (m : snowflake) (l : list snowflake) :
  l <> [] -> last l = Some (last_message m l).
Proof.
  intros Hne. destruct (snoc_cases l) as [->|(l' & x & ->)]; [done|].
  unfold last_message. by rewrite last_snoc, last_last.
Qed.

Lemma on_chunk_newest i c st :
  lists_parallel st ->
  edits_newest_block 0 None (trace st) = true
  /\ foldl blocks_after (0%nat, None) (trace st)
     = (length (response_messages st), last (response_messages st)) ->
  edits_newest_block 0 None (trace (step i c st)) = true
  /\ foldl blocks_after (0%nat, None) (trace (step i c st))
     = (length (response_messages (step i c st)), last (response_messages (step i c st))).
Proof.
  intros Hpar [Hok Hacc].
  destruct (on_chunk_shape message_id user_warnings env i c st Hpar)
    as [_ [(_ & _ & Hm & Ht)|[(_ & _ & _ & Hm & Ht)
          |(_ & texts & text & Hx & _ & _ & Hm & [[Ht _]|(waited & Ht & Hw)])]]];
    rewrite Ht, Hm; clear Ht.
  - done.
  - rewrite edits_newest_block_app, foldl_app, Hok, Hacc. simpl.
    rewrite bool_decide_eq_true_2 by done.
    rewrite length_app, last_snoc. simpl. split; [done|]. f_equal. lia.
  - done.
  - assert (response_messages st <> []) as Hne.
    { intros E. unfold lists_parallel in Hpar. rewrite E, Hx, length_app in Hpar.
      simpl in Hpar. lia. }
    assert (S (length texts) = length (response_messages st)) as Hlen.
    { unfold lists_parallel in Hpar. rewrite Hpar, Hx, length_app. simpl. lia. }
    rewrite !edits_newest_block_app, !foldl_app, Hok, Hacc.
    destruct Hw as [-> | ->]; simpl;
      (rewrite bool_decide_eq_true_2;
       [done | split; [done | by apply last_last_message]]).
Qed.

End SchedulerMore.

Section SchedulerEnv.

Variable message_id : snowflake.
Variable user_warnings : gset string.
Variable env : StreamEnv.

Local Abbreviation step := (on_chunk message_id user_warnings env).
Local Abbreviation run_from := (stream_from message_id user_warnings env).
Local Abbreviation run := (stream message_id user_warnings env).

(** *** The ids of the blocks *)

Lemma stream_messages registry (cs : list (option string)) :
  response_messages (run registry cs)
  = reply_id env <$> seq 0 (length (response_messages (run registry cs))).
Proof.
  induction cs as [|c cs IH] using rev_ind; [done|].
  rewrite stream_snoc, on_chunk_messages.
  destruct (_ && _); [|done].
  rewrite length_app. simpl. rewrite Nat.add_1_r, seq_S, fmap_app. simpl.
  by rewrite <- IH.
Qed.

(** *** Edits while the throttle is closed *)

Lemma on_chunk_closed_throttle i c st :
  throttle_open env i = false ->
  (forall seg block e, Edit seg block e ∈ trace st -> color e = complete) ->
  forall seg block e, Edit seg block e ∈ trace (step i c st) -> color e = complete.
Proof.
  intros Hclosed Hst seg block e.
  destruct (on_chunk_cases message_id user_warnings env i c st)
    as [(_ & E)|[(_ & _ & E)|[(_ & _ & _ & E)|(_ & _ & _ & Hd & E)]]];
    rewrite E; clear E; simpl.
  - apply Hst.
  - intros [Hin|Hin%list_elem_of_singleton]%elem_of_app; [by eapply Hst | done].
  - apply Hst.
  - unfold edit_now in Hd. rewrite Hclosed, andb_false_r, orb_false_r in Hd.
    rewrite Hd.
    intros [Hin|[Hin|Hin%list_elem_of_singleton]%elem_of_app]%elem_of_app.
    + by eapply Hst.
    + destruct (_ && _); [by apply list_elem_of_singleton in Hin | by apply elem_of_nil in Hin].
    + by simplify_eq.
Qed.

Lemma stream_closed_throttle registry (cs : list (option string)) :
  (forall i, throttle_open env i = false) ->
  forall seg block e, Edit seg block e ∈ trace (run registry cs) -> color e = complete.
Proof.
  intros Hclosed.
  induction cs as [|c cs IH] using rev_ind; [by intros seg block e ?%elem_of_nil|].
  rewrite stream_snoc. by apply on_chunk_closed_throttle.
Qed.

(** *** No embed is empty *)

Lemma on_chunk_nonempty i c st :
  lists_parallel st ->
  (forall ev seg e, ev ∈ trace st -> rendered ev = Some (seg, e) -> description e <> "") ->
  forall ev seg e, ev ∈ trace (step i c st) -> rendered ev = Some (seg, e) ->
                   description e <> "".
Proof.
  intros Hpar Hst ev seg e.
  destruct (on_chunk_shape message_id user_warnings env i c st Hpar)
    as [_ [(_ & _ & _ & Ht)|[(Hp & _ & _ & _ & Ht)
          |(Hp & texts & text & _ & _ & _ & _ & [[Ht _]|(waited & Ht & Hw)])]]];
    rewrite Ht; clear Ht.
  - apply Hst.
  - intros [Hin|Hin%list_elem_of_singleton]%elem_of_app Hr; [by eapply Hst|].
    subst ev. simpl in Hr. simplify_eq. simpl. by apply truthy_true_content.
  - apply Hst.
  - intros [Hin|[Hin|Hin%list_elem_of_singleton]%elem_of_app]%elem_of_app Hr.
    + by eapply Hst.
    + destruct Hw as [-> | ->]; [by apply elem_of_nil in Hin|].
      apply list_elem_of_singleton in Hin. by subst ev.
    + subst ev. simpl in Hr. simplify_eq. simpl.
      apply truthy_true_content in Hp. fold (pending st) in Hp.
      intros E. apply len_empty in E. rewrite len_app in E.
      pose proof (len_nonneg text). pose proof (len_nonneg (pending st)).
      apply Hp, len_empty. lia.
Qed.

Lemma stream_nonempty registry (cs : list (option string)) :
  forall ev seg e, ev ∈ trace (run registry cs) -> rendered ev = Some (seg, e) ->
                   description e <> "".
Proof.
  induction cs as [|c cs IH] using rev_ind; [by intros ev seg e ?%elem_of_nil|].
  rewrite stream_snoc. apply on_chunk_nonempty; [apply stream_lists_parallel | done].
Qed.

(** *** The fields of the embeds *)

Lemma stream_fields registry (cs : list (option string)) :
  forall ev seg e, ev ∈ trace (run registry cs) -> rendered ev = Some (seg, e) ->
                   fields e = sorted user_warnings.
Proof.
  induction cs as [|c cs IH] using rev_ind; [by intros ev seg e ?%elem_of_nil|].
  rewrite stream_snoc.
  destruct (on_chunk_trace message_id user_warnings env (length cs) c (run registry cs))
    as (new & -> & Hnew).
  intros ev seg e [Hin|Hin]%elem_of_app Hr; [by eapply IH|].
  by destruct (Hnew ev seg e Hin Hr) as (_ & _ & ?).
Qed.

End SchedulerEnv.

(** *** [sorted] *)

Lemma ascii_compare_refl (a : Ascii.ascii) : Ascii.compare a a = Eq.
Proof. unfold Ascii.compare. apply N.compare_refl. Qed.

Lemma ascii_compare_eq (a b : Ascii.ascii) : Ascii.compare a b = Eq -> a = b.
Proof.
  unfold Ascii.compare. intros H%N.compare_eq.
  by rewrite <- (Ascii.ascii_N_embedding a), <- (Ascii.ascii_N_embedding b), H.
Qed.

Lemma string_compare_trans (c : comparison) (s t u : string) :
  String.compare s t = c -> String.compare t u = c -> String.compare s u = c.
Proof.
  revert t u. induction s as [|a s IH]; intros [|b t] [|d u]; simpl; try congruence.
  unfold Ascii.compare.
  destruct (N.compare_spec (Ascii.N_of_ascii a) (Ascii.N_of_ascii b)) as [E1|L1|L1];
    destruct (N.compare_spec (Ascii.N_of_ascii b) (Ascii.N_of_ascii d)) as [E2|L2|L2];
    intros H1 H2; subst; try congruence.
  - rewrite E1, E2, N.compare_refl. by eapply IH.
  - rewrite E1. by apply N.compare_lt_iff in L2 as ->.
  - rewrite E1. by apply N.compare_gt_iff in L2 as ->.
  - rewrite <- E2. by apply N.compare_lt_iff in L1 as ->.
  - assert (Ascii.N_of_ascii a < Ascii.N_of_ascii d)%N as L by lia.
    by apply N.compare_lt_iff in L as ->.
  - rewrite <- E2. by apply N.compare_gt_iff in L1 as ->.
  - assert (Ascii.N_of_ascii d < Ascii.N_of_ascii a)%N as L by lia.
    by apply N.compare_gt_iff in L as ->.
Qed.

Lemma string_leb_trans (s t u : string) :
  String.leb s t = true -> String.leb t u = true -> String.leb s u = true.
Proof.
  unfold String.leb.
  destruct (String.compare s t) eqn:E1; [| |done];
    destruct (String.compare t u) eqn:E2; try done; intros _ _.
  - by rewrite (string_compare_trans Eq s t u).
  - apply String.compare_eq_iff in E1 as ->. by rewrite E2.
  - apply String.compare_eq_iff in E2 as ->. by rewrite E1.
  - by rewrite (string_compare_trans Lt s t u).
Qed.

Lemma insert_sorted_perm (w : string) (l : list string) : insert_sorted w l ≡ₚ w :: l.
Proof.
  induction l as [|x l IH]; simpl; [done|].
  destruct (String.leb w x); [done|]. rewrite IH. apply Permutation_swap.
Qed.

Lemma insert_sorted_sorted (w : string) (l : list string) :
  StronglySorted (fun a b => String.leb a b = true) l ->
  StronglySorted (fun a b => String.leb a b = true) (insert_sorted w l).
Proof.
  induction 1 as [|x l Hl IH Hx]; simpl; [repeat constructor|].
  destruct (String.leb w x) eqn:E.
  - constructor; [by constructor|]. constructor; [done|].
    eapply Forall_impl; [exact Hx|]. intros y Hy. by eapply string_leb_trans.
  - constructor; [done|]. rewrite insert_sorted_perm. constructor; [|done].
    destruct (String.leb_total w x) as [H|H]; [congruence | done].
Qed.

Lemma sorted_perm (ws : gset string) : sorted ws ≡ₚ elements ws.
Proof.
  unfold sorted. induction (elements ws) as [|w l IH]; simpl; [done|].
  by rewrite insert_sorted_perm, IH.
Qed.

Lemma sorted_sorted (ws : gset string) :
  StronglySorted (fun a b => String.leb a b = true) (sorted ws).
Proof.
  unfold sorted. induction (elements ws) as [|w l IH]; simpl; [constructor|].
  by apply insert_sorted_sorted.
Qed.

Section SchedulerCalm.

Variable message_id : snowflake.
Variable user_warnings : gset string.
Variable env : StreamEnv.

Local Abbreviation step := (on_chunk message_id user_warnings env).
Local Abbreviation run_from := (stream_from message_id user_warnings env).
Local Abbreviation run := (stream message_id user_warnings env).

Lemma displayed_app_none seg (tr new : list Event) :
  renders_of seg new = [] -> displayed seg (tr ++ new) = displayed seg tr.
Proof. intros H. unfold displayed. by rewrite renders_of_app, H, app_nil_r. Qed.

Lemma displayed_app_one seg (tr new : list Event) e :
  renders_of seg new = [e] -> displayed seg (tr ++ new) = Some e.
Proof. intros H. unfold displayed. by rewrite renders_of_app, H, last_snoc. Qed.

Lemma renders_of_reply_other seg k target e new_id :
  seg <> k -> renders_of seg [Reply k target e new_id] = [].
Proof. intros H. unfold renders_of, render_of. simpl. by rewrite decide_False. Qed.

Lemma renders_of_edit_other seg k block e :
  seg <> k -> renders_of seg [Edit k block e] = [].
Proof. intros H. unfold renders_of, render_of. simpl. by rewrite decide_False. Qed.

Lemma renders_below_snoc n k (tr : list Event) ev :
  renders_below n tr -> (n <= k)%nat ->
  (forall seg e, rendered ev = Some (seg, e) -> (seg < k)%nat) ->
  renders_below k (tr ++ [ev]).
Proof.
  intros Htr Hnk Hev ev' seg e [Hin|Hin%list_elem_of_singleton]%elem_of_app Hr.
  - specialize (Htr ev' seg e Hin Hr). lia.
  - subst. by eapply Hev.
Qed.

(** With the previous edit finished and the throttle open, a fragment that
    joins the current segment is shown at once. *)
Lemma on_chunk_free i c st :
  task_done env i = true -> throttle_open env i = true ->
  lists_parallel st ->
  Forall (fun s => s <> "") (response_message_contents st) ->
  truthy (previous_content st) = true ->
  needs_new_segment st (pending st) = false ->
  exists texts text e,
    response_message_contents st = texts ++ [text]
    /\ response_message_contents (step i c st) = texts ++ [text +:+ pending st]
    /\ trace (step i c st) = trace st ++ [Edit (length texts)
                                            (last_message message_id (response_messages st)) e]
    /\ description e = text +:+ pending st.
Proof.
  intros Hdone Hopen Hpar Hne Ht Hn.
  pose proof (needs_new_segment_false _ _ Hn) as Hms.
  destruct (parallel_snoc st Hpar Hms) as (texts & text & Hx).
  assert (text <> "") as Htext.
  { rewrite Hx in Hne. apply Forall_app in Hne as [_ Hne]. by apply Forall_inv in Hne. }
  assert (String.eqb (text +:+ pending st) (pending st) = false) as Hdiff.
  { apply String.eqb_neq. intros E. apply (f_equal len) in E. rewrite len_app in E.
    apply Htext, len_empty. lia. }
  assert (Nat.pred (length (response_messages st)) = length texts) as Hlen.
  { unfold lists_parallel in Hpar. rewrite Hpar, Hx, length_app. simpl. lia. }
  exists texts, text.
  destruct (on_chunk_cases message_id user_warnings env i c st)
    as [(Ht' & _)|[(_ & Hn' & _)|[(_ & _ & Hc & _)|(_ & _ & _ & _ & E)]]].
  - congruence.
  - unfold pending in Hn. congruence.
  - exfalso. simpl in Hc. fold (pending st) in Hc.
    rewrite Hx, append_to_last_snoc, last_content_snoc in Hc.
    destruct Hc as [Hc|Hc]; [congruence|].
    unfold edit_now in Hc. rewrite Hdone, Hopen, orb_true_r, orb_true_r in Hc. done.
  - eexists. rewrite E. simpl. fold (pending st).
    rewrite Hx, append_to_last_snoc, last_content_snoc, Hdone, andb_false_r, Hlen.
    simpl. done.
Qed.

Lemma on_chunk_shows_all i c st :
  task_done env i = true -> throttle_open env i = true ->
  shows_all st -> shows_all (step i c st).
Proof.
  intros Hdone Hopen (Hpar & Hne & Hbelow & Hshow).
  pose proof (on_chunk_parallel message_id user_warnings env i c st Hpar) as Hpar'.
  split; [done|].
  destruct (truthy (previous_content st)) eqn:Ht.
  2:{ destruct (on_chunk_shape message_id user_warnings env i c st Hpar)
        as [_ [(_ & Hc & _ & Htr)|[(Ht' & _)|(Ht' & _)]]]; try congruence.
      by rewrite Hc, Htr. }
  pose proof (truthy_true_content _ Ht) as Hp. fold (pending st) in Hp.
  destruct (needs_new_segment st (pending st)) eqn:Hn.
  - destruct (on_chunk_cases message_id user_warnings env i c st)
      as [(Ht' & _)|[(_ & _ & E)|[(_ & Hn' & _)|(_ & Hn' & _)]]];
      try (unfold pending in Hn; congruence).
    rewrite E. simpl. fold (pending st). rewrite append_to_last_snoc.
    change ("" +:+ pending st) with (pending st).
    assert (length (response_messages st) = length (response_message_contents st))
      as Hlen by done.
    rewrite Hlen. split; [|split].
    + apply Forall_app. split; [done|]. by constructor.
    + rewrite length_app. simpl.
      eapply renders_below_snoc; [exact Hbelow | lia |].
      intros seg e Hr. simpl in Hr. simplify_eq. lia.
    + intros seg text Hl.
      destruct (decide (seg = length (response_message_contents st))) as [->|Hseg].
      * rewrite list_lookup_middle in Hl by done. simplify_eq.
        eexists. split; [apply displayed_app_one, renders_of_reply | done].
      * rewrite lookup_app_l in Hl.
        2:{ apply lookup_lt_Some in Hl. rewrite length_app in Hl. simpl in Hl. lia. }
        destruct (Hshow seg text Hl) as (e & He & Hd).
        exists e. split; [|done].
        by rewrite displayed_app_none by (by apply renders_of_reply_other).
  - destruct (on_chunk_free i c st Hdone Hopen Hpar Hne Ht Hn)
      as (texts & text & e & Hx & -> & -> & Hd).
    split; [|split].
    + rewrite Hx in Hne. apply Forall_app in Hne as [Hne _].
      apply Forall_app. split; [done|]. constructor; [|done].
      intros E. apply (f_equal len) in E. rewrite len_app in E.
      pose proof (len_nonneg text). apply Hp, len_empty.
      pose proof (len_nonneg (pending st)). change (len "") with 0 in E. lia.
    + rewrite Hx in Hbelow. rewrite length_app in *. simpl in *.
      eapply renders_below_snoc; [exact Hbelow | lia |].
      intros seg e' Hr. simpl in Hr. simplify_eq. lia.
    + intros seg text' Hl.
      destruct (decide (seg = length texts)) as [->|Hseg].
      * rewrite list_lookup_middle in Hl by done. simplify_eq.
        exists e. split; [apply displayed_app_one, renders_of_edit | done].
      * rewrite lookup_app_l in Hl.
        2:{ apply lookup_lt_Some in Hl. rewrite length_app in Hl. simpl in Hl. lia. }
        destruct (Hshow seg text') as (e' & He & Hd').
        { rewrite Hx, lookup_app_l; [done|]. by eapply lookup_lt_Some. }
        exists e'. split; [|done].
        by rewrite displayed_app_none by (by apply renders_of_edit_other).
Qed.

Lemma stream_shows_all registry (cs : list (option string)) :
  (forall i, task_done env i = true) -> (forall i, throttle_open env i = true) ->
  shows_all (run registry cs).
Proof.
  intros Hdone Hopen. induction cs as [|c cs IH] using rev_ind.
  - repeat split; [constructor | by intros ev seg e ?%elem_of_nil | done].
  - rewrite stream_snoc. by apply on_chunk_shows_all.
Qed.

End SchedulerCalm.

Section SchedulerGrowth.

Variable message_id : snowflake.
Variable user_warnings : gset string.
Variable env : StreamEnv.

Local Abbreviation step := (on_chunk message_id user_warnings env).
Local Abbreviation run := (stream message_id user_warnings env).

Lemma on_chunk_beginnings i c st : shows_beginnings st -> shows_beginnings (step i c st).
Proof.
  intros [Hpar Hst].
  split; [by apply on_chunk_parallel|].
  assert (forall texts last_text ev seg e,
            response_message_contents st = texts ++ [last_text] ->
            ev ∈ trace st -> rendered ev = Some (seg, e) ->
            forall p, exists text rest,
              (texts ++ [last_text +:+ p]) !! seg = Some text
              /\ text = description e +:+ rest) as Hgrow.
  { intros texts last_text ev seg e Hx Hin Hr p.
    destruct (Hst ev seg e Hin Hr) as (text & rest & Hl & ->).
    rewrite Hx in Hl.
    destruct (decide (seg = length texts)) as [->|Hseg].
    - rewrite list_lookup_middle in Hl by done. injection Hl as ->.
      exists ((description e +:+ rest) +:+ p), (rest +:+ p).
      split; [by rewrite list_lookup_middle | by rewrite string_app_assoc].
    - exists (description e +:+ rest), rest. split; [|done].
      rewrite lookup_app_l in Hl |- *; [done|..];
        apply lookup_lt_Some in Hl; rewrite length_app in Hl; simpl in Hl; lia. }
  destruct (on_chunk_shape message_id user_warnings env i c st Hpar)
    as [_ [(_ & Hc & _ & Ht)|[(_ & _ & Hc & _ & Ht)
          |(_ & texts & text & Hx & _ & Hc & _ & [[Ht _]|(waited & Ht & Hw)])]]];
    rewrite Ht, Hc; clear Ht Hc.
  - exact Hst.
  - intros ev seg e [Hin|Hin%list_elem_of_singleton]%elem_of_app Hr.
    + destruct (Hst ev seg e Hin Hr) as (text & rest & Hl & ->).
      exists (description e +:+ rest), rest. split; [|done].
      by apply lookup_app_l_Some.
    + subst ev. simpl in Hr. simplify_eq. simpl.
      exists (pending st), "". split; [|by rewrite string_app_nil_r].
      assert (length (response_messages st) = length (response_message_contents st))
        as -> by done.
      by apply list_lookup_middle.
  - intros ev seg e Hin Hr. by eapply Hgrow.
  - intros ev seg e [Hin|[Hin|Hin%list_elem_of_singleton]%elem_of_app]%elem_of_app Hr.
    + by eapply Hgrow.
    + destruct Hw as [-> | ->]; [by apply elem_of_nil in Hin|].
      apply list_elem_of_singleton in Hin. by subst ev.
    + subst ev. simpl in Hr. simplify_eq. simpl.
      exists (text +:+ pending st), "". split; [|by rewrite string_app_nil_r].
      by apply list_lookup_middle.
Qed.

Lemma stream_beginnings registry (cs : list (option string)) :
  shows_beginnings (run registry cs).
Proof.
  induction cs as [|c cs IH] using rev_ind.
  - split; [done|]. by intros ev seg e ?%elem_of_nil.
  - rewrite stream_snoc. by apply on_chunk_beginnings.
Qed.

End SchedulerGrowth.

(** ** The store across requests *)

Section StoreFacts.

Variable cfg : Config.

Lemma message_images_raises atts e :
  message_images atts = Raised e -> e = TypeError.
Proof.
  induction atts as [|att atts IH]; simpl; [done|].
  destruct (Discord.content_type att); [|by intros [= <-]].
  destruct (message_images atts) as [rest| |]; simpl; [done | | done].
  intros [= <-]. by apply IH.
Qed.

Lemma message_images_finishes atts : message_images atts <> Unfinished.
Proof.
  induction atts as [|att atts IH]; simpl; [done|].
  destruct (Discord.content_type att); [|done].
  by destruct (message_images atts).
Qed.

(** Lines 89-114 raise [IndexError] (line 89) or [TypeError] (line 99),
    nothing else. *)
Lemma new_message_node_outcome m :
  match new_message_node cfg m with
  | Done node => replied_to node = None
  | Raised e => e = IndexError \/ e = TypeError
  | Unfinished => False
  end.
Proof.
  unfold new_message_node, message_text.
  destruct (by_client cfg m); [destruct (Discord.embeds m); simpl; [by left|]|]; simpl.
  all: destruct (message_images (Discord.attachments m)) as [images|x|] eqn:E; simpl;
    [done | right; by eapply message_images_raises | by eapply message_images_finishes].
Qed.

Lemma store_node_closed key node st :
  store_closed st -> replied_to node = None -> store_closed (store_node key node st).
Proof.
  intros [Hk Ho] Hnode. split; simpl.
  - intros k a. rewrite length_app. simpl.
    destruct (decide (key = k)) as [->|Hne].
    + rewrite lookup_insert_eq. intros [= <-]. lia.
    + rewrite lookup_insert_ne by done. intros H%Hk. lia.
  - intros i n a Hi Ha. rewrite length_app. simpl.
    apply lookup_app_Some in Hi as [Hi|[_ Hi]].
    + specialize (Ho i n a Hi Ha). lia.
    + apply list_lookup_singleton_Some in Hi as [_ <-]. congruence.
Qed.

(** Line 116 or 120 on keys that are present: only the node of [src]
    changes, and only its [replied_to]. *)
Lemma link_closed src dst a b st base :
  store_closed st ->
  message_nodes st !! src = Some a -> message_nodes st !! dst = Some b ->
  (base <= a)%nat ->
  exists st',
    link src dst st = Done st'
    /\ objects st' = alter (set_replied_to b) a (objects st)
    /\ message_nodes st' = message_nodes st
    /\ take base (objects st') = take base (objects st)
    /\ length (objects st') = length (objects st)
    /\ store_closed st'.
Proof.
  intros [Hk Ho] Ha Hb Hbase. unfold link. rewrite Hb, Ha. simpl.
  eexists. split; [done|]. simpl. split; [done|]. split; [done|].
  split; [rewrite take_alter; by rewrite decide_False by lia|].
  split; [apply length_alter|].
  split; simpl.
  - intros k x Hx. rewrite length_alter. by eapply Hk.
  - intros i n x Hi Hx. rewrite length_alter.
    destruct (decide (i = a)) as [->|Hne].
    + rewrite list_lookup_alter_eq in Hi.
      destruct (objects st !! a) as [n0|]; simpl in Hi; [|done].
      injection Hi as <-. simpl in Hx. injection Hx as <-. by eapply Hk.
    + rewrite list_lookup_alter_ne in Hi by done. by eapply Ho.
Qed.

(** The loop of lines 88-130, whatever it walks: it raises nothing but the
    two exceptions of lines 89-114, leaves the node objects that existed
    untouched, forgets no key, and stores the node of the message it starts
    from. *)
Lemma build_chain_keeps fetch fuel :
  forall m previous st base,
    store_closed st ->
    (base <= length (objects st))%nat ->
    match previous with
    | Some p => exists a, message_nodes st !! p = Some a /\ (base <= a)%nat
    | None => True
    end ->
    match build_chain cfg fuel fetch m previous st with
    | Done st' =>
        take base (objects st') = take base (objects st)
        /\ (length (objects st) < length (objects st'))%nat
        /\ store_closed st'
        /\ forall k, is_Some (message_nodes st !! k) \/ k = Discord.id m ->
                     is_Some (message_nodes st' !! k)
    | Raised e => e = IndexError \/ e = TypeError
    | Unfinished => True
    end.
Proof.
  induction fuel as [|fuel IH]; intros m previous st base Hclosed Hbase Hprev; [done|].
  simpl.
  pose proof (new_message_node_outcome m) as Hnode.
  destruct (new_message_node cfg m) as [node|e|]; simpl; [|done..].
  pose proof (store_node_closed (Discord.id m) node st Hclosed Hnode) as Hclosed1.
  set (st1 := store_node (Discord.id m) node st) in *.
  assert (message_nodes st1 !! Discord.id m = Some (length (objects st))) as Hself
    by (subst st1; simpl; by rewrite lookup_insert_eq).
  assert (forall k, is_Some (message_nodes st !! k) \/ k = Discord.id m ->
                    is_Some (message_nodes st1 !! k)) as Hkeys1.
  { intros k [Hk| ->]; [|by rewrite Hself].
    subst st1. simpl. destruct (decide (Discord.id m = k)) as [->|Hne].
    - by rewrite lookup_insert_eq.
    - by rewrite lookup_insert_ne. }
  assert (take base (objects st1) = take base (objects st)) as Htake1.
  { subst st1. simpl. by rewrite take_app_le. }
  assert (length (objects st1) = S (length (objects st))) as Hlen1.
  { subst st1. simpl. rewrite length_app. simpl. lia. }
  assert (exists st2,
            match previous with
            | Some p => link p (Discord.id m) st1
            | None => Done st1
            end = Done st2
            /\ message_nodes st2 = message_nodes st1
            /\ take base (objects st2) = take base (objects st)
            /\ length (objects st2) = S (length (objects st))
            /\ store_closed st2) as (st2 & -> & Hmap2 & Htake2 & Hlen2 & Hclosed2).
  { destruct previous as [p|]; [|by exists st1].
    destruct Hprev as (a & Ha & Hge).
    assert (exists a', message_nodes st1 !! p = Some a' /\ (base <= a')%nat)
      as (a' & Ha' & Hge').
    { destruct (decide (Discord.id m = p)) as [<-|Hne].
      - exists (length (objects st)). by rewrite Hself.
      - exists a. subst st1. simpl. by rewrite lookup_insert_ne. }
    destruct (link_closed p (Discord.id m) a' _ st1 base Hclosed1 Ha' Hself Hge')
      as (st2 & Hrun & _ & Hmap & Htake & Hlen & Hc).
    exists st2. rewrite Htake, Hlen. done. }
  simpl.
  assert (message_nodes st2 !! Discord.id m = Some (length (objects st))) as Hself2
    by (by rewrite Hmap2).
  assert (forall k, is_Some (message_nodes st !! k) \/ k = Discord.id m ->
                    is_Some (message_nodes st2 !! k)) as Hkeys2
    by (intros k Hk; rewrite Hmap2; by apply Hkeys1).
  destruct (Discord.reference m) as [r|]; [|split; [done|split; [lia|done]]].
  destruct (bool_decide_reflect (is_Some (message_nodes st2 !! Discord.message_id r)))
    as [[b Hb]|Hfresh].
  - destruct (link_closed (Discord.id m) (Discord.message_id r) _ b st2 base
                Hclosed2 Hself2 Hb Hbase)
      as (st3 & -> & _ & Hmap3 & Htake3 & Hlen3 & Hclosed3).
    rewrite Htake3, Hlen3, Hmap3. split; [done|]. split; [lia|done].
  - destruct (referenced_message fetch r) as [next|]; [|split; [done|split; [lia|done]]].
    specialize (IH next (Some (Discord.id m)) st2 base Hclosed2).
    destruct (build_chain cfg fuel fetch next (Some (Discord.id m)) st2) as [st'|e|];
      [|apply IH; [lia | eexists; split; [exact Hself2 | exact Hbase]]|done].
    destruct IH as (Htake & Hlen & Hclosed' & Hkeys); [lia | eauto |].
    split; [congruence|]. split; [lia|]. split; [done|].
    intros k Hk. apply Hkeys. left. by apply Hkeys2.
Qed.

(** *** HistoryAssembler on any store *)

(** The loop of lines 136-142 stops after at most [MAX_MESSAGES] rounds,
    also when the nodes refer to each other in a circle. *)
Lemma collect_chain_closed objs fuel :
  (forall i node a, objs !! i = Some node -> replied_to node = Some a ->
                    (a < length objs)%nat) ->
  forall reply_chain user_warnings current,
    match current with Some a => (a < length objs)%nat | None => True end ->
    (Z.to_nat (MAX_MESSAGES cfg - Z.of_nat (length reply_chain)) <= fuel)%nat ->
    exists more ws,
      collect_chain cfg fuel objs reply_chain user_warnings current
      = Done (reply_chain ++ more, ws)
      /\ Z.of_nat (length more)
         <= Z.max 0 (MAX_MESSAGES cfg - Z.of_nat (length reply_chain))
      /\ (is_Some current -> Z.of_nat (length reply_chain) < MAX_MESSAGES cfg ->
          more <> [])
      /\ ws ⊆ user_warnings ∪ {[ MAX_IMAGE_WARNING cfg; MAX_MESSAGE_WARNING cfg ]}.
Proof.
  intros Hobjs. induction fuel as [|fuel IH]; intros rc ws current Hcur Hfuel.
  - exists [], ws. rewrite app_nil_r. split.
    + destruct current as [a|]; simpl; [|done].
      destruct (Z.ltb_spec (Z.of_nat (length rc)) (MAX_MESSAGES cfg)); [lia|done].
    + split; [simpl; lia|]. split; [intros _ ?; lia | apply union_subseteq_l].
  - destruct current as [a|]; simpl.
    2:{ exists [], ws. rewrite app_nil_r. split; [done|]. split; [simpl; lia|].
        split; [by intros [? ?] | apply union_subseteq_l]. }
    destruct (Z.ltb_spec (Z.of_nat (length rc)) (MAX_MESSAGES cfg)) as [Hlt|Hge].
    2:{ exists [], ws. rewrite app_nil_r. split; [done|]. split; [simpl; lia|].
        split; [intros _ ?; lia | apply union_subseteq_l]. }
    destruct (lookup_lt_is_Some_2 objs a Hcur) as [node Hnode].
    rewrite Hnode. simpl.
    set (rc' := rc ++ [message node]).
    set (w1 := if too_many_images node then ws ∪ {[MAX_IMAGE_WARNING cfg]} else ws).
    set (w2 := if (Z.of_nat (length rc') =? MAX_MESSAGES cfg)
                  && bool_decide (is_Some (replied_to node))
               then w1 ∪ {[MAX_MESSAGE_WARNING cfg]} else w1).
    assert (length rc' = S (length rc)) as Hlen
      by (subst rc'; rewrite length_app; simpl; lia).
    destruct (IH rc' w2 (replied_to node)) as (more & ws' & Hrun & Hmore & _ & Hws).
    { destruct (replied_to node) as [b|] eqn:Hb; [|done]. by eapply Hobjs. }
    { rewrite Hlen. lia. }
    exists (message node :: more), ws'. split; [|split; [|split]].
    + rewrite Hrun. subst rc'. by rewrite <- app_assoc.
    + rewrite Hlen in Hmore. simpl. lia.
    + done.
    + assert (w2 ⊆ ws ∪ {[ MAX_IMAGE_WARNING cfg; MAX_MESSAGE_WARNING cfg ]}) as Hw2.
      { intros x. subst w2 w1.
        destruct (_ && _), (too_many_images node); set_unfold; tauto. }
      etrans; [exact Hws|]. apply union_least; [exact Hw2 | apply union_subseteq_r].
Qed.

Lemma get_system_prompt_length today : length (get_system_prompt cfg today) = 1%nat.
Proof. unfold get_system_prompt. by destruct (_ || _). Qed.

Lemma assemble_closed today st key :
  store_closed st -> is_Some (message_nodes st !! key) ->
  exists reply_chain ws,
    assemble cfg today st key
    = Done (get_system_prompt cfg today ++ rev reply_chain, reply_chain, ws)
    /\ Z.of_nat (length reply_chain) <= Z.max 0 (MAX_MESSAGES cfg)
    /\ (1 <= MAX_MESSAGES cfg -> reply_chain <> [])
    /\ ws ⊆ {[ MAX_IMAGE_WARNING cfg; MAX_MESSAGE_WARNING cfg ]}.
Proof.
  intros [Hk Ho] [leaf Hleaf]. unfold assemble. rewrite Hleaf. simpl.
  destruct (collect_chain_closed (objects st) (Z.to_nat (MAX_MESSAGES cfg)) Ho [] ∅ (Some leaf))
    as (more & ws & -> & Hlen & Hne & Hws).
  { by eapply Hk. }
  { simpl. lia. }
  simpl in *. exists more, ws. split; [done|]. split; [lia|].
  split; [intros ?; apply Hne; [done | lia]|].
  intros x Hx. apply Hws in Hx. set_unfold. tauto.
Qed.

(** *** Lines 218-227 on what the stream leaves *)

Lemma list_remove_perm (x : snowflake) (l : list snowflake) :
  x ∈ l -> exists l', list_remove x l = Some l' /\ l ≡ₚ x :: l'.
Proof.
  induction l as [|y l IH]; intros Hx; [by apply elem_of_nil in Hx|].
  simpl. destruct (decide (x = y)) as [->|Hne]; [by eexists|].
  apply elem_of_cons in Hx as [->|Hx]; [done|].
  destruct (IH Hx) as (l' & -> & Hp). eexists. split; [done|].
  rewrite Hp. apply Permutation_swap.
Qed.

Lemma register_response_closed reply key (rms : list snowflake) :
  forall st reg,
    store_closed st -> is_Some (message_nodes st !! key) -> rms ⊆+ reg ->
    exists st' reg',
      register_response cfg reply key rms st reg = Done (st', reg')
      /\ store_closed st'
      /\ reg ≡ₚ rms ++ reg'.
Proof.
  induction rms as [|rid rest IH]; intros st reg Hclosed [a Ha] Hsub.
  - by exists st, reg.
  - simpl. rewrite Ha. simpl.
    destruct (list_remove_perm rid reg) as (reg1 & -> & Hperm).
    { eapply elem_of_submseteq; [|exact Hsub]. by left. }
    simpl.
    set (node := {| message := _; too_many_images := false; replied_to := Some a |}).
    assert (store_closed (store_node rid node st)) as Hclosed1.
    { destruct Hclosed as [Hk Ho]. split; simpl.
      - intros k x. rewrite length_app. simpl.
        destruct (decide (rid = k)) as [->|Hne].
        + rewrite lookup_insert_eq. intros [= <-]. lia.
        + rewrite lookup_insert_ne by done. intros H%Hk. lia.
      - intros i n x Hi Hx. rewrite length_app. simpl.
        apply lookup_app_Some in Hi as [Hi|[_ Hi]].
        + specialize (Ho i n x Hi Hx). lia.
        + apply list_lookup_singleton_Some in Hi as [_ <-]. simpl in Hx.
          injection Hx as <-. specialize (Hk key a Ha). lia. }
    destruct (IH (store_node rid node st) reg1 Hclosed1) as (st' & reg' & -> & Hc & Hp).
    + simpl. destruct (decide (rid = key)) as [->|Hne].
      * by rewrite lookup_insert_eq.
      * by rewrite lookup_insert_ne.
    + rewrite Hperm in Hsub. by apply (submseteq_app_inv_l _ _ [rid]) in Hsub.
    + exists st', reg'. split; [done|]. split; [done|].
      rewrite Hperm, Hp. done.
Qed.

End StoreFacts.

Section WalkFacts.

Variable cfg : Config.
Variable fetch : snowflake -> Fetched.

Lemma ascent_ends_nonempty known m path stop :
  ascent_ends fetch known m path stop -> exists rest, path = m :: rest.
Proof. destruct 1; eauto. Qed.

Lemma linked_up_cons base target node next rest :
  linked_up base target (node :: next :: rest)
  = set_replied_to (S base) node :: linked_up (S base) target (next :: rest).
Proof. done. Qed.

Lemma linked_up_length base target built :
  length (linked_up base target built) = length built.
Proof.
  revert base. induction built as [|n [|n' rest] IH]; intros base; [done..|].
  rewrite linked_up_cons. simpl in *. by rewrite IH.
Qed.

(** Linking changes nothing but [replied_to]. *)
Lemma linked_up_same base target built :
  Forall2 (fun n0 node => message node = message n0
                          /\ too_many_images node = too_many_images n0)
          built (linked_up base target built).
Proof.
  revert base. induction built as [|n [|n' rest] IH]; intros base.
  - constructor.
  - simpl. constructor; [by destruct target | constructor].
  - rewrite linked_up_cons. constructor; [done | apply IH].
Qed.

(** A chain stays a chain when more node objects are allocated. *)
Lemma chain_from_app objs more a nodes :
  chain_from objs a nodes -> chain_from (objs ++ more) a nodes.
Proof.
  induction 1 as [|a node rest Hobj _ IH]; [constructor|].
  econstructor; [|exact IH]. by apply lookup_app_l_Some.
Qed.

(** Nodes stored in a row, linked each to the next and the last to the head
    of a chain that was there before, form a chain that continues with
    that chain. *)
Lemma chain_from_linked_up built target tail :
  built <> [] ->
  Forall (fun n => replied_to n = None) built ->
  forall pre,
    match target with
    | Some a => chain_from pre (Some a) tail
    | None => tail = []
    end ->
    chain_from (pre ++ linked_up (length pre) target built) (Some (length pre))
      (linked_up (length pre) target built ++ tail).
Proof.
  induction built as [|n [|n' rest] IH]; intros Hne Hnone pre Htail; [done| |].
  - simpl. econstructor; [by apply list_lookup_middle|].
    apply Forall_inv in Hnone.
    destruct target as [a|]; simpl.
    + by apply chain_from_app.
    + rewrite Hnone, Htail. constructor.
  - rewrite linked_up_cons. simpl.
    econstructor; [by apply list_lookup_middle|]. simpl.
    apply Forall_inv_tail in Hnone.
    specialize (IH ltac:(done) Hnone (pre ++ [set_replied_to (S (length pre)) n])).
    rewrite length_app in IH. simpl in IH.
    replace (length pre + 1)%nat with (S (length pre)) in IH by lia.
    rewrite <- app_assoc in IH. apply IH.
    destruct target as [a|]; [by apply chain_from_app | done].
Qed.

(** The loop of lines 88-130 along a walk that ends at the root of the
    conversation or at a cached message: it stores one node per message
    walked, links each to the next and the last to the cached node, and
    returns. *)
Lemma build_chain_walk known m path stop :
  ascent_ends fetch known m path stop ->
  forall fuel st previous built,
    (forall k, k ∈ known <-> is_Some (message_nodes st !! k)) ->
    Forall2 (fun msg node => new_message_node cfg msg = Done node) path built ->
    (length path <= fuel)%nat ->
    (forall key, stop = Some key -> key ∉ (Discord.id <$> path)) ->
    match previous with
    | Some key => key <> Discord.id m
                  /\ exists a, message_nodes st !! key = Some a
                               /\ (a < length (objects st))%nat
    | None => True
    end ->
    exists st',
      build_chain cfg fuel fetch m previous st = Done st'
      /\ objects st'
         = relinked st previous
           ++ linked_up (length (objects st))
                (stop ≫= (fun key => message_nodes st !! key)) built
      /\ message_nodes st' !! Discord.id m = Some (length (objects st))
      /\ forall k, k ∈ known -> k <> Discord.id m ->
                   message_nodes st' !! k = message_nodes st !! k.
Proof.
  induction 1 as [known m Href
                 |known m r Href Hcached Hother
                 |known m r m' path stop Href Hfresh Hnext Hid Hrest IH];
    intros fuel st previous built Hknown Hbuilt Hfuel Hstop Hprev.
  all: destruct fuel as [|fuel]; [simpl in Hfuel; lia|].
  all: apply Forall2_cons_inv_l in Hbuilt as (node & built' & Hnode & Hbuilt' & ->).
  all: simpl; rewrite Hnode; simpl.
  all: set (base := length (objects st)).
  all: destruct (store_and_link st previous (Discord.id m) node Hprev)
         as (st2 & -> & Hobj2 & Hmap2).
  all: simpl; rewrite Href.
  - (* the message has no reference *)
    apply Forall2_nil_inv_l in Hbuilt' as ->.
    exists st2. split; [done|]. split; [done|]. rewrite Hmap2. split.
    + by rewrite lookup_insert_eq.
    + intros k _ Hk. by rewrite lookup_insert_ne.
  - (* the reply target is cached *)
    apply Forall2_nil_inv_l in Hbuilt' as ->.
    apply Hknown in Hcached as [b Hb].
    assert (message_nodes st2 !! Discord.message_id r = Some b) as Hb2
      by (by rewrite Hmap2, lookup_insert_ne).
    rewrite bool_decide_eq_true_2 by (by rewrite Hb2).
    unfold link. rewrite Hb2. simpl. rewrite Hmap2, lookup_insert_eq. simpl.
    eexists. split; [done|]. simpl. rewrite Hb. simpl. split; [|split].
    + rewrite Hobj2, alter_app_r_alt by (by rewrite relinked_length).
      by rewrite relinked_length, Nat.sub_diag.
    + by rewrite lookup_insert_eq.
    + intros k _ Hk. by rewrite lookup_insert_ne.
  - (* the walk goes on *)
    assert (message_nodes st2 !! Discord.message_id r = None) as Hnew.
    { rewrite Hmap2. apply eq_None_not_Some. intros Hsome.
      apply Hfresh. apply elem_of_union.
      destruct (decide (Discord.id m = Discord.message_id r)) as [E|E].
      - right. by apply elem_of_singleton.
      - left. apply Hknown. by rewrite lookup_insert_ne in Hsome. }
    rewrite bool_decide_eq_false_2 by (rewrite Hnew; by intros [? ?]).
    rewrite Hnext.
    destruct (ascent_ends_nonempty _ _ _ _ Hrest) as (rest & ->).
    assert (stop ≫= (fun key => message_nodes st2 !! key)
            = stop ≫= (fun key => message_nodes st !! key)) as Htarget.
    { destruct stop as [key|]; [|done]. simpl. rewrite Hmap2.
      apply lookup_insert_ne. intros E. apply (Hstop key eq_refl).
      rewrite fmap_cons, E. by left. }
    destruct (IH fuel st2 (Some (Discord.id m)) built')
      as (st' & Hrun & Hobj & Hleaf & Hkeep).
    + intros k. rewrite Hmap2, elem_of_union, elem_of_singleton, Hknown.
      destruct (decide (Discord.id m = k)) as [->|Hk].
      * rewrite lookup_insert_eq. split; [eauto | by right].
      * rewrite lookup_insert_ne by done. split; [by intros [?|?] | by left].
    + done.
    + simpl in Hfuel |- *. lia.
    + intros key Hkey Hin. apply (Hstop key Hkey). rewrite fmap_cons. by right.
    + split.
      * intros E. apply Hfresh. rewrite E, Hid. apply elem_of_union. right.
        by apply elem_of_singleton.
      * exists base. rewrite Hmap2, lookup_insert_eq, Hobj2, length_app, relinked_length.
        split; [done | simpl; lia].
    + exists st'. split; [done|].
      assert (length (objects st2) = S base) as Hlen2
        by (rewrite Hobj2, length_app, relinked_length; simpl; lia).
      apply Forall2_cons_inv_l in Hbuilt' as (node' & built'' & _ & _ & ->).
      split; [|split].
      * rewrite Hobj, Hlen2, Htarget. unfold relinked at 1. simpl.
        rewrite Hmap2, lookup_insert_eq, Hlen2, Hobj2.
        rewrite alter_app_r_alt by (by rewrite relinked_length).
        rewrite relinked_length, Nat.sub_diag. simpl. by rewrite <- app_assoc.
      * rewrite Hkeep.
        -- by rewrite Hmap2, lookup_insert_eq.
        -- apply elem_of_union. right. by apply elem_of_singleton.
        -- intros E. apply Hfresh. rewrite <- Hid, <- E. apply elem_of_union. right.
           by apply elem_of_singleton.
      * intros k Hk Hkm. rewrite Hkeep.
        -- by rewrite Hmap2, lookup_insert_ne.
        -- apply elem_of_union. by left.
        -- intros E. apply Hfresh. rewrite <- Hid, <- E. apply elem_of_union. by left.
Qed.

Lemma buildable_all (path : list Message) :
  Forall (buildable cfg) path ->
  exists built,
    Forall2 (fun msg node => new_message_node cfg msg = Done node) path built.
Proof.
  induction 1 as [|msg path (node & Hnode) _ (built & IH)].
  - exists []. constructor.
  - exists (node :: built). by constructor.
Qed.

Lemma built_unlinked (path : list Message) (built : list MessageNode) :
  Forall2 (fun msg node => new_message_node cfg msg = Done node) path built ->
  Forall (fun n => replied_to n = None) built.
Proof.
  induction 1 as [|msg node path built Hnode _ IH]; [done|].
  constructor; [by eapply new_message_node_unlinked | done].
Qed.

(** What the walk leaves in the store, for the request at the top level. *)
Lemma build_chain_walk_top m path stop st fuel tail :
  ascent_ends fetch (dom (message_nodes st)) m path stop ->
  Forall (buildable cfg) path ->
  (length path <= fuel)%nat ->
  match stop with
  | Some key => (key ∉ (Discord.id <$> path))
                /\ exists a, message_nodes st !! key = Some a
                             /\ chain_from (objects st) (Some a) tail
  | None => tail = []
  end ->
  exists st' nodes,
    build_chain cfg fuel fetch m None st = Done st'
    /\ objects st' = objects st ++ nodes
    /\ message_nodes st' !! Discord.id m = Some (length (objects st))
    /\ (forall k, is_Some (message_nodes st !! k) -> k <> Discord.id m ->
                  message_nodes st' !! k = message_nodes st !! k)
    /\ chain_from (objects st') (Some (length (objects st))) (nodes ++ tail)
    /\ Forall2 (fun msg node =>
                  exists built, new_message_node cfg msg = Done built
                                /\ message node = message built
                                /\ too_many_images node = too_many_images built)
               path nodes.
Proof.
  intros Hwalk Hbuild Hfuel Hstop.
  destruct (buildable_all path Hbuild) as (built & Hbuilt).
  destruct (build_chain_walk _ _ _ _ Hwalk fuel st None built)
    as (st' & Hrun & Hobj & Hleaf & Hkeep); [|done..| |done|].
  { intros k. by rewrite elem_of_dom. }
  { intros key ->. by destruct Hstop. }
  unfold relinked in Hobj. simpl in Hobj.
  set (target := stop ≫= (fun key => message_nodes st !! key)) in *.
  exists st', (linked_up (length (objects st)) target built).
  split; [done|]. split; [done|]. split; [done|]. split; [|split].
  - intros k Hk Hne. apply Hkeep; [by apply elem_of_dom | done].
  - rewrite Hobj. apply chain_from_linked_up.
    + destruct (ascent_ends_nonempty _ _ _ _ Hwalk) as (rest & ->).
      by inversion Hbuilt.
    + by eapply built_unlinked.
    + subst target. destruct stop as [key|]; [|done].
      destruct Hstop as (_ & a & Ha & Hchain). simpl. by rewrite Ha.
  - clear -Hbuilt.
    pose proof (linked_up_same (length (objects st)) target built) as Hsame.
    revert Hsame. generalize (linked_up (length (objects st)) target built).
    induction Hbuilt as [|msg node path built Hnode _ IH]; intros nodes Hsame.
    + inversion Hsame. constructor.
    + inversion Hsame as [|? stored ? nodes' Hs Hrest]; subst.
      constructor; [by exists node | by apply IH].
Qed.

End WalkFacts.

(** ** Texts *)

Lemma prefix_app (s t : string) : String.prefix s (s +:+ t) = true.
Proof.
  induction s as [|a s IH]; [by destruct t|].
  rewrite string_app_cons. simpl. by destruct (Ascii.ascii_dec a a).
Qed.

Lemma drop_chars_app (s t : string) : drop_chars (String.length s) (s +:+ t) = t.
Proof. induction s as [|a s IH]; [done|]. rewrite string_app_cons. simpl. exact IH. Qed.

Lemma lstrip_head (s : string) c s' : lstrip s = String c s' -> isspace c = false.
Proof.
  induction s as [|a s IH]; simpl; [done|].
  destruct (isspace a) eqn:E; [done|]. by intros [= <- _].
Qed.

Section NodeMore.

Variable cfg : Config.

Lemma message_images_untyped (atts : list Attachment) att :
  att ∈ atts -> Discord.content_type att = None ->
  message_images atts = Raised TypeError.
Proof.
  intros Hin Hnone. induction atts as [|a atts IH]; [by apply elem_of_nil in Hin|].
  simpl. destruct (Discord.content_type a) eqn:Ha.
  - apply elem_of_cons in Hin as [->|Hin]; [congruence|]. by rewrite (IH Hin).
  - done.
Qed.

Lemma MAX_IMAGES_blind : contains "vision" (LLM cfg) = false -> MAX_IMAGES cfg = 0.
Proof. intros H. unfold MAX_IMAGES, LLM_VISION_SUPPORT. by rewrite H. Qed.

End NodeMore.

(** With a cap below one message, lines 136-142 collect nothing. *)
Lemma assemble_nothing cfg today st key leaf :
  MAX_MESSAGES cfg <= 0 -> message_nodes st !! key = Some leaf ->
  assemble cfg today st key = Done (get_system_prompt cfg today, [], ∅).
Proof.
  intros Hmax Hleaf. unfold assemble. rewrite Hleaf. simpl.
  assert (collect_chain cfg (Z.to_nat (MAX_MESSAGES cfg)) (objects st) [] ∅ (Some leaf)
          = Done ([], ∅)) as ->.
  { replace (Z.to_nat (MAX_MESSAGES cfg)) with 0%nat by lia. simpl.
    change (Z.of_nat 0) with 0.
    destruct (Z.ltb_spec 0 (MAX_MESSAGES cfg)); [lia | done]. }
  simpl. by rewrite app_nil_r.
Qed.

Lemma store_closed_empty : store_closed empty_store.
Proof.
  split.
  - intros key a H. change (message_nodes empty_store) with (∅ : gmap positive nat) in H.
    by rewrite lookup_empty in H.
  - by intros i node a H.
Qed.

Lemma split_from_skip (sep : string) (k : nat) (s : string) :
  split_from sep k s = split_from sep 0 (drop_chars k s).
Proof.
  revert k. induction s as [|c s IH]; intros [|k]; try done.
  simpl. apply IH.
Qed.

Lemma str_split_match (sep : string) (c : Ascii.ascii) (s : string) :
  sep <> "" ->
  String.prefix sep (String c s) = true ->
  str_split sep (String c s)
  = "" :: str_split sep (drop_chars (String.length sep) (String c s)).
Proof.
  intros Hsep Hp. unfold str_split. cbn [split_from]. rewrite Hp, split_from_skip.
  destruct sep; [done|]. done.
Qed.

Lemma str_split_miss (sep : string) (c : Ascii.ascii) (s : string) :
  String.prefix sep (String c s) = false ->
  str_split sep (String c s)
  = match str_split sep s with
    | piece :: pieces => String c piece :: pieces
    | [] => [String c ""]
    end.
Proof. intros Hp. unfold str_split. cbn [split_from]. by rewrite Hp. Qed.

Lemma prefix_split (p s : string) :
  String.prefix p s = true -> s = p +:+ drop_chars (String.length p) s.
Proof.
  revert s. induction p as [|a p IH]; intros s H; [done|].
  destruct s as [|b s]; simpl in H; [done|].
  destruct (Ascii.ascii_dec a b) as [->|]; [|done].
  rewrite string_app_cons. simpl. f_equal. by apply IH.
Qed.

Lemma contains_here (n h : string) : String.prefix n h = true -> contains n h = true.
Proof. intros H. destruct h; simpl in *; by rewrite H. Qed.

Lemma contains_later (n : string) (c : Ascii.ascii) (h : string) :
  contains n h = true -> contains n (String c h) = true.
Proof. intros H. simpl. rewrite H. apply orb_true_r. Qed.

Lemma contains_app_r (n pre h : string) :
  contains n h = true -> contains n (pre +:+ h) = true.
Proof.
  intros H. induction pre as [|c pre IH]; [done|].
  rewrite string_app_cons. by apply contains_later.
Qed.

Lemma contains_cons_false (n : string) (c : Ascii.ascii) (h : string) :
  String.prefix n (String c h) = false -> contains n h = false ->
  contains n (String c h) = false.
Proof. intros H1 H2. simpl in *. by rewrite H1, H2. Qed.

Lemma drop_chars_length (k : nat) (s : string) :
  (String.length (drop_chars k s) <= String.length s)%nat.
Proof.
  revert s. induction k as [|k IH]; intros [|c s]; simpl; try lia.
  specialize (IH s). lia.
Qed.

(** What [split] returns: a first piece without the separator; when it is
    the only piece, it is the whole string; otherwise the string is the
    first piece, the separator, and a rest that splits into the other
    pieces. *)
Lemma str_split_spec (sep : string) :
  sep <> "" ->
  forall n s, (String.length s <= n)%nat ->
    exists first pieces,
      str_split sep s = first :: pieces
      /\ contains sep first = false
      /\ (pieces = [] -> s = first)
      /\ (pieces <> [] ->
          exists after, s = first +:+ sep +:+ after
                        /\ str_split sep after = pieces).
Proof.
  intros Hsep. induction n as [|n IH]; intros s Hn.
  - destruct s; [|simpl in Hn; lia].
    exists "", []. split; [done|]. split; [by destruct sep|]. done.
  - destruct s as [|c s].
    { exists "", []. split; [done|]. split; [by destruct sep|]. done. }
    destruct (String.prefix sep (String c s)) eqn:Hp.
    + rewrite (str_split_match sep c s Hsep Hp).
      set (after := drop_chars (String.length sep) (String c s)).
      destruct (IH after) as (first & pieces & Hsplit & _).
      { subst after. destruct sep as [|a sep]; [done|]. simpl.
        pose proof (drop_chars_length (String.length sep) s). simpl in Hn. lia. }
      exists "", (first :: pieces). split; [by rewrite Hsplit|].
      split; [by destruct sep|]. split; [done|]. intros _.
      exists after. split; [|done]. by apply prefix_split.
    + rewrite (str_split_miss sep c s Hp).
      destruct (IH s) as (first & pieces & -> & Hfirst & Hone & Hmore);
        [simpl in Hn; lia|].
      exists (String c first), pieces. split; [done|]. split; [|split].
      * apply contains_cons_false; [|done].
        destruct pieces as [|p ps].
        -- by rewrite <- (Hone eq_refl).
        -- destruct (Hmore ltac:(done)) as (after & Hs & _).
           destruct (String.prefix sep (String c first)) eqn:E; [|done].
           rewrite Hs, <- string_app_cons in Hp.
           rewrite (prefix_split _ _ E), string_app_assoc, prefix_app in Hp. done.
      * intros Hnil. by rewrite (Hone Hnil).
      * intros Hne. destruct (Hmore Hne) as (after & Hs & Hsplit).
        exists after. by rewrite Hs.
Qed.

Lemma str_split_pieces (sep s : string) :
  sep <> "" ->
  exists first pieces,
    str_split sep s = first :: pieces
    /\ contains sep first = false
    /\ (pieces = [] -> s = first)
    /\ (pieces <> [] ->
        exists after, s = first +:+ sep +:+ after /\ str_split sep after = pieces).
Proof. intros Hsep. by apply (str_split_spec sep Hsep (String.length s) s). Qed.

(** [split] finds a second piece exactly when the separator occurs. *)
Lemma str_split_second (sep s : string) :
  sep <> "" ->
  (contains sep s = false -> str_split sep s !! 1%nat = None)
  /\ (contains sep s = true ->
      exists before mid after,
        s = before +:+ sep +:+ mid +:+ after
        /\ contains sep before = false
        /\ contains sep mid = false
        /\ (after = "" \/ String.prefix sep after = true)
        /\ str_split sep s !! 1%nat = Some mid).
Proof.
  intros Hsep.
  destruct (str_split_pieces sep s Hsep) as (first & pieces & Hsplit & Hfirst & Hone & Hmore).
  destruct pieces as [|second more].
  - rewrite <- (Hone eq_refl) in Hfirst. split; [by rewrite Hsplit | congruence].
  - destruct (Hmore ltac:(done)) as (rest & Hs & Hrest).
    split.
    { intros Hno. rewrite Hs in Hno.
      rewrite (contains_app_r sep first) in Hno; [done|].
      apply contains_here, prefix_app. }
    intros _.
    destruct (str_split_pieces sep rest Hsep)
      as (mid & pieces' & Hsplit' & Hmid & Hone' & Hmore').
    rewrite Hrest in Hsplit'. injection Hsplit' as -> ->.
    destruct pieces' as [|third more'].
    + pose proof (Hone' eq_refl) as ->.
      exists first, mid, "". rewrite string_app_nil_r, Hsplit.
      split; [done|]. split; [done|]. split; [done|]. split; [by left | done].
    + destruct (Hmore' ltac:(done)) as (rest' & Hs' & _).
      exists first, mid, (sep +:+ rest'). rewrite Hsplit, <- Hs'.
      split; [done|]. split; [done|]. split; [done|].
      split; [right; apply prefix_app | done].
Qed.

(** Line 192 raises [IndexError] exactly when the text does not contain
    "draw me" in this spelling. *)
Lemma prompt_text_raises (content : string) :
  prompt_text content = Raised IndexError <-> contains "draw me" content = false.
Proof.
  unfold prompt_text.
  destruct (str_split_second "draw me" content ltac:(done)) as [Hno Hyes].
  destruct (contains "draw me" content).
  - destruct (Hyes eq_refl) as (before & mid & after & _ & _ & _ & _ & ->). simpl.
    split; discriminate.
  - by rewrite (Hno eq_refl).
Qed.

(** The first piece of a split is where the string starts. *)
Lemma str_split_head (sep s : string) :
  sep <> "" -> String.prefix (hd "" (str_split sep s)) s = true.
Proof.
  intros Hsep.
  destruct (str_split_pieces sep s Hsep) as (first & pieces & -> & _ & Hone & Hmore).
  simpl. destruct pieces as [|p ps].
  - pose proof (Hone eq_refl) as ->.
    rewrite <- (string_app_nil_r first) at 2. apply prefix_app.
  - destruct (Hmore ltac:(done)) as (after & -> & _). apply prefix_app.
Qed.

(** ** Statuses around empty fragments *)

Section SchedulerStatus.

Variable message_id : snowflake.
Variable user_warnings : gset string.
Variable env : StreamEnv.

Local Abbreviation step := (on_chunk message_id user_warnings env).
Local Abbreviation run_from := (stream_from message_id user_warnings env).
Local Abbreviation run := (stream message_id user_warnings env).




End SchedulerStatus.

(** * The specification, statement by statement *)

(** C1: the code does not do what the specification says.  A direct message
    "hello" is answered in one block, 1001; when the handler returns, 1001
    is still in [in_progress_message_ids] and has no node, and a reply to
    block 1001 makes the handler wait at line 81.  The same happens to
    "draw me a cat" when the image service does not answer 200 (the
    [return] of line 215). *)
Lemma registry_keeps_block_id :
  (exists w tr,
      on_message local_cfg 1 hello_env greeting empty_world = Finished w tr
      /\ registry w = [1001%positive]
      /\ message_nodes (store w) !! 1001%positive = None
      /\ on_message local_cfg 1 hello_env follow_up w = Waiting)
  /\ (exists w tr,
        on_message local_cfg 1 hello_env drawing empty_world = Finished w tr
        /\ registry w = [1001%positive]).
Proof.
  split.
  - eexists _, _. split; [vm_compute; reflexivity|]. vm_compute. done.
  - eexists _, _. split; [vm_compute; reflexivity|]. vm_compute. done.
Qed.

(** C2.  Whatever the stream's last chunk carries, the texts of the segments,
    joined in order, are the fragments before it, joined in order: with an
    empty terminal fragment nothing that was received is missing.  The
    fragments "Hel", "lo ", "world" followed by the empty terminal one (a
    chunk without content, or with the empty string) give one segment, and
    the last embed sent for it carries "Hello world" and the colour of
    [complete], whatever the clock and the edit task do. *)
Theorem segments_concatenate_to_fragments :
  (forall message_id user_warnings env registry
          (cs : list (option string)) (terminal : option string),
      str_join (response_message_contents
              (stream message_id user_warnings env registry (cs ++ [terminal])))
      = str_join (fragments cs))
  /\ (forall message_id user_warnings env registry,
        Forall (fun terminal =>
          let st := stream message_id user_warnings env registry
                      [Some "Hel"; Some "lo "; Some "world"; terminal] in
          response_messages st = [reply_id env 0]
          /\ response_message_contents st = ["Hello world"]
          /\ displayed 0 (trace st)
             = Some {| description := "Hello world"; color := complete;
                       fields := sorted user_warnings |})
        [None; Some ""]).
Proof.
  split.
  - intros message_id user_warnings env registry cs terminal.
    rewrite stream_snoc, on_chunk_join by apply stream_lists_parallel.
    apply stream_join.
  - intros message_id user_warnings env registry.
    apply Forall_cons_2; [|apply Forall_cons_2; [|apply Forall_nil_2]];
      cbv -[sorted task_done throttle_open reply_id];
      destruct (task_done env 2), (throttle_open env 2), (task_done env 3); done.
Qed.

(** C3, as stated, fails: a single fragment of 4097 characters becomes a
    segment of 4097 characters. *)
Lemma long_fragment_exceeds_cap :
  exists s,
    s ∈ response_message_contents
          (stream 1 ∅ calm_env [] [Some (str_mul "a" 4097); None])
    /\ EMBED_MAX_LENGTH < len s.
Proof.
  exists (str_mul "a" 4097). split.
  - assert (response_message_contents
              (stream 1 ∅ calm_env [] [Some (str_mul "a" 4097); None])
            = [str_mul "a" 4097]) as -> by (vm_compute; reflexivity).
    by apply list_elem_of_singleton.
  - vm_compute. reflexivity.
Qed.

(** C3, amended.  When no fragment of the stream is longer than
    [EMBED_MAX_LENGTH], then after every number of chunks no segment's text
    is longer than [EMBED_MAX_LENGTH], and neither is the description of any
    embed sent so far. *)
Theorem segments_within_cap message_id user_warnings env registry
    (cs : list (option string)) (n : nat) :
  Forall within_cap (fragments cs) ->
  let st := stream message_id user_warnings env registry (take n cs) in
  Forall within_cap (response_message_contents st)
  /\ renders_within_cap (trace st).
Proof.
  intros Hcs st.
  assert (capped st) as (H1 & _ & H2); [|done].
  apply stream_from_capped.
  - unfold fragments in *. rewrite fmap_take. by apply Forall_take.
  - repeat split; [constructor | | by intros ev seg e ?%elem_of_nil].
    unfold within_cap, EMBED_MAX_LENGTH. simpl. done.
Qed.

(** The stream "Hel", "lo ", "world" and its end, after all four chunks. *)
Lemma segments_within_cap_witness :
  Forall within_cap (fragments [Some "Hel"; Some "lo "; Some "world"; None])
  /\ Forall within_cap
       (response_message_contents
          (stream 1 ∅ calm_env []
             (take 4 [Some "Hel"; Some "lo "; Some "world"; None])))
  /\ renders_within_cap
       (trace (stream 1 ∅ calm_env []
                 (take 4 [Some "Hel"; Some "lo "; Some "world"; None]))).
Proof.
  assert (Forall within_cap (fragments [Some "Hel"; Some "lo "; Some "world"; None]))
    as H by (repeat constructor; vm_compute; discriminate).
  split; [exact H|].
  exact (segments_within_cap 1 ∅ calm_env [] _ 4 H).
Defined.







(** The one case in which a block is left with the colour of [incomplete]:
    it is created by a fragment that the next fragment does not fit behind.
    Line 162 looks only for the empty fragment, where line 176 also looks
    for the overflow. *)
Lemma opening_embed_stays_incomplete :
  let st := stream 1 ∅ calm_env [] [Some (str_mul "a" 4096); Some "b"; None] in
  response_message_contents st = [str_mul "a" 4096; "b"]
  /\ renders_of 0 (trace st)
     = [{| description := str_mul "a" 4096; color := incomplete; fields := [] |}].
Proof. vm_compute. split; reflexivity. Qed.

(** C6, as stated, fails: every node holds the whole reply.  The request
    "draw me a cat" is answered with 4097 characters in two blocks, 1001 and
    1002; the first segment's text is 4096 characters long, and the node
    created for block 1001 holds all 4097. *)
Lemma node_holds_more_than_its_segment :
  exists w tr a node,
    on_message local_cfg 1 long_env drawing empty_world = Finished w tr
    /\ message_nodes (store w) !! 1001%positive = Some a
    /\ objects (store w) !! a = Some node
    /\ content (message node) = Text (str_mul "a" 4096 +:+ "b")
    /\ response_message_contents
         (stream 15 ∅ calm_env [] (completion long_env [])) !! 0%nat
       = Some (str_mul "a" 4096).
Proof.
  eexists _, _, 1%nat, _. split; [vm_compute; reflexivity|].
  split; [vm_compute; reflexivity|]. split; [vm_compute; reflexivity|].
  split; vm_compute; reflexivity.
Qed.

(** C6, amended.  When the request text contains "draw me" and the image
    service answers 200, so that lines 217-227 are reached, then for a
    response whose blocks have distinct ids, none of them the id of the
    request, the handler returns having created exactly one node per
    segment: the node of the block of each segment has the role assistant,
    its content is the text of all segments of the response joined in
    order, and its [replied_to] is the node of the request. *)
Theorem response_nodes_hold_whole_reply cfg env (m : Message) (st : Store)
    user_warnings registry (chunks : list (option string)) (request_node : nat) :
  let s := stream (Discord.id m) user_warnings (stream_env env) registry chunks in
  contains "draw me" (Discord.content m) = true ->
  sd_status env = 200 ->
  message_nodes st !! Discord.id m = Some request_node ->
  Discord.id m ∉ response_messages s ->
  NoDup (response_messages s) ->
  exists w tr,
    after_stream cfg env m st s = Finished w tr
    /\ length (objects (store w))
       = (length (objects st) + length (response_message_contents s))%nat
    /\ forall seg rid,
         response_messages s !! seg = Some rid ->
         message_nodes (store w) !! rid = Some (length (objects st) + seg)%nat
         /\ objects (store w) !! (length (objects st) + seg)%nat
            = Some {| message :=
                        {| role := assistant;
                           content := Text (str_join (response_message_contents s));
                           name := Some (str_id (client_user_id cfg)) |};
                      too_many_images := false;
                      replied_to := Some request_node |}.
Proof.
  intros s Hdraw Hsd Hkey Hnot Hnd. unfold after_stream.
  pose proof (contains_lower "draw me" _ Hdraw) as Hlower.
  change (lower "draw me") with "draw me" in Hlower.
  rewrite Hlower, Hdraw, Hsd. simpl.
  destruct (register_response_spec cfg (str_join (response_message_contents s))
              (Discord.id m) request_node (response_messages s) st
              (in_progress_message_ids s) Hkey Hnot Hnd)
    as (st' & reg' & -> & Hobj & Hnew & _).
  { intros rid Hrid. subst s. rewrite stream_registry. apply elem_of_app. by right. }
  eexists _, _. split; [done|]. simpl. split.
  - rewrite Hobj, length_app, length_replicate.
    pose proof (stream_lists_parallel (Discord.id m) user_warnings (stream_env env)
                  registry chunks) as Hpar.
    unfold lists_parallel in Hpar. fold s in Hpar. by rewrite Hpar.
  - intros seg rid Hseg. split; [by apply Hnew|].
    rewrite Hobj, lookup_app_r by lia.
    replace (length (objects st) + seg - length (objects st))%nat with seg by lia.
    apply lookup_replicate_2. by eapply lookup_lt_Some.
Qed.

(** The second block of a 4097-character answer to "draw me a cat". *)
Lemma response_nodes_hold_whole_reply_witness :
  exists w tr,
    after_stream local_cfg long_env drawing drawing_store
      (stream 15 ∅ calm_env [] [Some (str_mul "a" 4096); Some "b"; None])
    = Finished w tr
    /\ length (objects (store w)) = (1 + 2)%nat
    /\ message_nodes (store w) !! 1002%positive = Some (1 + 1)%nat
    /\ objects (store w) !! (1 + 1)%nat
       = Some {| message :=
                   {| role := assistant;
                      content := Text (str_mul "a" 4096 +:+ "b");
                      name := Some "7" |};
                 too_many_images := false;
                 replied_to := Some 0%nat |}.
Proof.
  assert (response_messages
            (stream (Discord.id drawing) ∅ (stream_env long_env) []
               [Some (str_mul "a" 4096); Some "b"; None])
          = [1001%positive; 1002%positive]) as Hrm by (vm_compute; reflexivity).
  assert (response_message_contents
            (stream (Discord.id drawing) ∅ (stream_env long_env) []
               [Some (str_mul "a" 4096); Some "b"; None])
          = [str_mul "a" 4096; "b"]) as Hrc by (vm_compute; reflexivity).
  destruct (response_nodes_hold_whole_reply local_cfg long_env drawing drawing_store
              ∅ [] [Some (str_mul "a" 4096); Some "b"; None] 0%nat)
    as (w & tr & Hrun & Hlen & Hnodes).
  - reflexivity.
  - reflexivity.
  - reflexivity.
  - rewrite Hrm. intros [H|[H|H]%elem_of_cons]%elem_of_cons; try done.
    by apply elem_of_nil in H.
  - rewrite Hrm. apply NoDup_cons. split.
    + intros H%list_elem_of_singleton. done.
    + apply NoDup_singleton.
  - exists w, tr. split; [exact Hrun|].
    rewrite Hrc in Hlen. split; [exact Hlen|].
    destruct (Hnodes 1%nat 1002%positive) as [Hmap Hobj]; [by rewrite Hrm|].
    rewrite Hrc in Hobj. split; [exact Hmap | exact Hobj].
Defined.

(** C7.  For a reply chain of [L] nodes, none of them flagged for too many
    images, and a cap [MAX_MESSAGES] of at least one, the assembler returns
    the system prompt followed by the messages of the [min L MAX_MESSAGES]
    newest nodes, oldest first; the warnings are empty when
    [L <= MAX_MESSAGES], and they contain the message-count warning exactly
    when [MAX_MESSAGES < L]. *)
Theorem history_takes_newest_messages cfg today st key leaf
    (nodes : list MessageNode) :
  1 <= MAX_MESSAGES cfg ->
  message_nodes st !! key = Some leaf ->
  chain_from (objects st) (Some leaf) nodes ->
  Forall (fun n => too_many_images n = false) nodes ->
  exists reply_chain user_warnings,
    assemble cfg today st key
    = Done (get_system_prompt cfg today ++ rev reply_chain, reply_chain, user_warnings)
    /\ reply_chain = message <$> take (Z.to_nat (MAX_MESSAGES cfg)) nodes
    /\ Z.of_nat (length reply_chain) = Z.min (Z.of_nat (length nodes)) (MAX_MESSAGES cfg)
    /\ (Z.of_nat (length nodes) <= MAX_MESSAGES cfg -> user_warnings = ∅)
    /\ (MAX_MESSAGE_WARNING cfg ∈ user_warnings
        <-> MAX_MESSAGES cfg < Z.of_nat (length nodes)).
Proof.
  intros Hmax Hkey Hchain Hclean.
  destruct (assemble_spec cfg today st key leaf nodes Hkey Hchain) as (ws & Hrun & Hws).
  exists (message <$> take (Z.to_nat (MAX_MESSAGES cfg)) nodes), ws.
  split; [done|]. split; [done|].
  assert (forall n, n ∈ take (Z.to_nat (MAX_MESSAGES cfg)) nodes ->
                    too_many_images n = true -> False) as Hnone.
  { intros n Hn Hf. apply (subseteq_take _ nodes) in Hn.
    rewrite Forall_forall in Hclean. rewrite (Hclean n Hn) in Hf. done. }
  split; [|split].
  - rewrite length_fmap, length_take. lia.
  - intros Hshort. apply set_eq. intros x. rewrite Hws. split.
    + intros [(_ & n & Hn & Hf)|(_ & Hk)]; [by destruct (Hnone n) | lia].
    + by intros ?%not_elem_of_empty.
  - rewrite Hws. split.
    + intros [(_ & n & Hn & Hf)|(_ & Hk)]; [by destruct (Hnone n) | lia].
    + intros Hlong. right. split; [done | lia].
Qed.

(** The thread A <- B <- C with a cap of two messages. *)
Lemma history_takes_newest_messages_witness :
  exists reply_chain user_warnings,
    assemble local_cfg "November 03 2026" thread_store 13
    = Done (get_system_prompt local_cfg "November 03 2026" ++ rev reply_chain,
            reply_chain, user_warnings)
    /\ reply_chain
       = message <$> take (Z.to_nat (MAX_MESSAGES local_cfg)) [node_C; node_B; node_A]
    /\ Z.of_nat (length reply_chain)
       = Z.min (Z.of_nat (length [node_C; node_B; node_A])) (MAX_MESSAGES local_cfg)
    /\ (Z.of_nat (length [node_C; node_B; node_A]) <= MAX_MESSAGES local_cfg ->
        user_warnings = ∅)
    /\ (MAX_MESSAGE_WARNING local_cfg ∈ user_warnings
        <-> MAX_MESSAGES local_cfg < Z.of_nat (length [node_C; node_B; node_A])).
Proof.
  apply (history_takes_newest_messages local_cfg "November 03 2026" thread_store 13 2%nat
           [node_C; node_B; node_A]).
  - simpl. lia.
  - reflexivity.
  - repeat (econstructor; [reflexivity|]). constructor.
  - repeat constructor.
Defined.

(** C8, as stated, fails: attachments that are not images are not counted.
    With a cap of one image, a message with two PDF attachments gets a node
    that is not flagged. *)
Lemma other_attachments_are_not_counted :
  exists node,
    new_message_node vision_cfg two_pdfs = Done node
    /\ MAX_IMAGES vision_cfg < Z.of_nat (length (Discord.attachments two_pdfs))
    /\ too_many_images node = false.
Proof. eexists. split; [reflexivity|]. split; [|reflexivity]. vm_compute. reflexivity. Qed.

(** C8, amended.  For a non-negative cap [MAX_IMAGES] and a message with
    more than [MAX_IMAGES] image attachments (attachments whose content type
    contains "image"), the node built for it is flagged, the image
    references of its content are the first [MAX_IMAGES] image attachments
    (none at all for a Mistral model, whose content is plain text), and
    every history assembled from a chain that has a node so flagged among
    its first [MAX_MESSAGES] contains the image-limit warning. *)
Theorem too_many_images_is_flagged cfg (m : Message) (node : MessageNode) :
  0 <= MAX_IMAGES cfg ->
  new_message_node cfg m = Done node ->
  MAX_IMAGES cfg
    < Z.of_nat (length (filter (fun a => is_image a = true) (Discord.attachments m))) ->
  too_many_images node = true
  /\ image_parts (content (message node))
     = (if contains "mistral" (LLM cfg) then []
        else take (Z.to_nat (MAX_IMAGES cfg))
               (image_part <$> filter (fun a => is_image a = true) (Discord.attachments m)))
  /\ Z.of_nat (length (image_parts (content (message node)))) <= MAX_IMAGES cfg
  /\ forall today st key leaf nodes stored (i : nat),
       message_nodes st !! key = Some leaf ->
       chain_from (objects st) (Some leaf) nodes ->
       nodes !! i = Some stored ->
       too_many_images stored = too_many_images node ->
       Z.of_nat i < MAX_MESSAGES cfg ->
       exists messages reply_chain user_warnings,
         assemble cfg today st key = Done (messages, reply_chain, user_warnings)
         /\ reply_chain !! i = Some (message stored)
         /\ MAX_IMAGE_WARNING cfg ∈ user_warnings.
Proof.
  intros Hcap Hnode Hmany.
  destruct (new_message_node_spec cfg m node Hnode) as (Hflag & _ & Hparts).
  rewrite length_fmap in Hflag.
  assert (too_many_images node = true) as Htrue.
  { rewrite Hflag. by apply Z.ltb_lt. }
  rewrite slice_to_nonneg in Hparts by done.
  split; [done|]. split; [done|]. split.
  - rewrite Hparts. destruct (contains "mistral" (LLM cfg)); [simpl; lia|].
    rewrite length_take. lia.
  - intros today st key leaf nodes stored i Hkey Hchain Hi Hsame Hin.
    destruct (assemble_spec cfg today st key leaf nodes Hkey Hchain) as (ws & Hrun & Hws).
    eexists _, _, ws. split; [exact Hrun|].
    assert (take (Z.to_nat (MAX_MESSAGES cfg)) nodes !! i = Some stored) as Htake
      by (rewrite lookup_take_lt by lia; done).
    split.
    + by rewrite list_lookup_fmap, Htake.
    + apply Hws. left. split; [done|]. exists stored. split.
      * by eapply list_elem_of_lookup_2.
      * by rewrite Hsame.
Qed.

(** Two photos where one image is allowed. *)
Lemma too_many_images_is_flagged_witness :
  too_many_images photo_node = true
  /\ image_parts (content (message photo_node)) = [ImagePart "u1" "low"]
  /\ exists messages reply_chain user_warnings,
       assemble vision_cfg "November 03 2026" photo_store 22
       = Done (messages, reply_chain, user_warnings)
       /\ reply_chain !! 0%nat = Some (message photo_node)
       /\ MAX_IMAGE_WARNING vision_cfg ∈ user_warnings.
Proof.
  assert (0 <= MAX_IMAGES vision_cfg) as Hcap by (vm_compute; discriminate).
  assert (new_message_node vision_cfg two_photos = Done photo_node) as Hnode
    by reflexivity.
  assert (MAX_IMAGES vision_cfg
          < Z.of_nat (length (filter (fun a => is_image a = true)
                                (Discord.attachments two_photos)))) as Hmany
    by (vm_compute; reflexivity).
  destruct (too_many_images_is_flagged vision_cfg two_photos photo_node Hcap Hnode Hmany)
    as (Hflag & Hparts & _ & Hhistory).
  split; [exact Hflag|]. split; [exact Hparts|].
  apply (Hhistory "November 03 2026" photo_store 22%positive 0%nat [photo_node] photo_node 0%nat).
  - reflexivity.
  - econstructor; [reflexivity|]. constructor.
  - reflexivity.
  - reflexivity.
  - vm_compute. reflexivity.
Defined.

(** C9.  When the walk up the reply chain reaches a message whose reply
    target is not cached and cannot be fetched ([NotFound] or
    [HTTPException]), and building the nodes of the messages walked raises
    nothing, then the loop returns normally: the chain of the request
    consists of the nodes of the messages walked up to that point, the
    history is assembled from it ([min] of the number of messages walked and
    [MAX_MESSAGES] entries), and the message-count warning is present exactly
    when more than [MAX_MESSAGES] messages were walked. *)
Theorem fetch_failure_truncates_chain cfg fetch today (m : Message)
    (path : list Message) (st : Store) (fuel : nat) :
  1 <= MAX_MESSAGES cfg ->
  ascent_fails fetch (dom (message_nodes st)) m path ->
  Forall (buildable cfg) path ->
  (length path <= fuel)%nat ->
  exists st' leaf nodes messages reply_chain user_warnings,
    build_chain cfg fuel fetch m None st = Done st'
    /\ message_nodes st' !! Discord.id m = Some leaf
    /\ chain_from (objects st') (Some leaf) nodes
    /\ Forall2 (fun msg node =>
                  exists built, new_message_node cfg msg = Done built
                                /\ message node = message built
                                /\ too_many_images node = too_many_images built)
               path nodes
    /\ assemble cfg today st' (Discord.id m) = Done (messages, reply_chain, user_warnings)
    /\ Z.of_nat (length reply_chain) = Z.min (Z.of_nat (length path)) (MAX_MESSAGES cfg)
    /\ (MAX_MESSAGE_WARNING cfg ∈ user_warnings
        <-> MAX_MESSAGES cfg < Z.of_nat (length path)).
Proof.
  intros Hmax Hwalk Hbuild Hfuel.
  assert (exists built,
            Forall2 (fun msg node => new_message_node cfg msg = Done node) path built)
    as (built & Hbuilt).
  { clear Hwalk Hfuel. induction Hbuild as [|msg path (node & Hnode) _ (built & IH)].
    - exists []. constructor.
    - exists (node :: built). by constructor. }
  destruct (build_chain_ascent cfg fetch _ _ _ Hwalk fuel st None built)
    as (st' & Hrun & Hobj & Hleaf & _); [|done..|].
  { intros k. by rewrite elem_of_dom. }
  unfold relinked in Hobj. simpl in Hobj.
  pose proof (Forall2_length _ _ _ Hbuilt) as Hlen.
  assert (chain_from (objects st') (Some (length (objects st)))
            (linked_nodes (length (objects st)) built)) as Hchain.
  { rewrite Hobj. apply chain_from_linked.
    - destruct (ascent_fails_nonempty _ _ _ _ Hwalk) as (rest & ->).
      by inversion Hbuilt.
    - clear -Hbuilt. induction Hbuilt as [|msg node path built Hnode _ IH]; [done|].
      constructor; [by eapply new_message_node_unlinked | done]. }
  destruct (assemble_spec cfg today st' _ _ _ Hleaf Hchain) as (ws & Hasm & Hws).
  eexists st', _, _, _, _, ws. split; [done|]. split; [done|]. split; [done|].
  split; [|split; [exact Hasm|split]].
  - clear -Hbuilt. pose proof (linked_nodes_same (length (objects st)) built) as Hsame.
    revert Hsame. generalize (linked_nodes (length (objects st)) built).
    induction Hbuilt as [|msg node path built Hnode _ IH]; intros nodes Hsame.
    + inversion Hsame. constructor.
    + inversion Hsame as [|? stored ? nodes' Hs Hrest]; subst.
      constructor; [by exists node | by apply IH].
  - rewrite length_fmap, length_take, linked_nodes_length. lia.
  - rewrite Hws, linked_nodes_length. split.
    + intros [(Heq & _)|(_ & Hk)]; [by apply warnings_differ in Heq | lia].
    + intros Hlong. right. split; [done | lia].
Qed.

(** C replies to B, whose own reply target has been deleted. *)
Lemma fetch_failure_truncates_chain_witness :
  exists st' leaf nodes messages reply_chain user_warnings,
    build_chain local_cfg 2 fetch_B_only message_C None empty_store = Done st'
    /\ message_nodes st' !! Discord.id message_C = Some leaf
    /\ chain_from (objects st') (Some leaf) nodes
    /\ Forall2 (fun msg node =>
                  exists built, new_message_node local_cfg msg = Done built
                                /\ message node = message built
                                /\ too_many_images node = too_many_images built)
               [message_C; message_B] nodes
    /\ assemble local_cfg "November 03 2026" st' (Discord.id message_C)
       = Done (messages, reply_chain, user_warnings)
    /\ Z.of_nat (length reply_chain)
       = Z.min (Z.of_nat (length [message_C; message_B])) (MAX_MESSAGES local_cfg)
    /\ (MAX_MESSAGE_WARNING local_cfg ∈ user_warnings
        <-> MAX_MESSAGES local_cfg < Z.of_nat (length [message_C; message_B])).
Proof.
  apply (fetch_failure_truncates_chain local_cfg fetch_B_only "November 03 2026"
           message_C [message_C; message_B] empty_store 2).
  - simpl. lia.
  - eapply fails_above; [reflexivity | | reflexivity | reflexivity |].
    + simpl. intros [H|H]%elem_of_union.
      * by apply elem_of_empty in H.
      * by apply elem_of_singleton in H.
    + eapply fails_here; [reflexivity | | reflexivity | by left].
      simpl. intros [[H|H]%elem_of_union|H]%elem_of_union.
      * by apply elem_of_empty in H.
      * by apply elem_of_singleton in H.
      * by apply elem_of_singleton in H.
  - repeat constructor; eexists; reflexivity.
  - simpl. lia.
Defined.

(** C10.  The [reply] calls of a response, in the order they are made, pair
    the request with the first block, and every block with the next one:
    the first block answers the triggering message, each later block answers
    the block before it. *)
Theorem blocks_form_reply_chain message_id user_warnings env registry
    (cs : list (option string)) :
  let st := stream message_id user_warnings env registry cs in
  reply_links (trace st)
  = zip (message_id :: response_messages st) (response_messages st).
Proof.
  unfold stream.
  apply (stream_from_invariant message_id user_warnings env
           (linked message_id)); [apply on_chunk_linked | done].
Qed.

(** * Further properties of the code *)

(** X1.  Text reaches Discord only once a further chunk has been read: when
    no chunk before the last one carries text, the loop sends nothing,
    creates no block and leaves the registry as it found it, whatever the
    last chunk carries. *)
Theorem no_text_no_reply message_id user_warnings env registry
    (cs : list (option string)) (last_chunk : option string) :
  Forall (fun f => f = "") (fragments cs) ->
  let st := stream message_id user_warnings env registry (cs ++ [last_chunk]) in
  trace st = [] /\ response_messages st = [] /\ in_progress_message_ids st = registry.
Proof.
  intros Hcs st. subst st.
  rewrite stream_snoc, (stream_silent _ _ _ _ _ Hcs).
  unfold on_chunk. by destruct cs.
Qed.

(** Two chunks without text, then one with text and nothing after it. *)
Lemma no_text_no_reply_witness :
  Forall (fun f => f = "") (fragments [None; Some ""])
  /\ let st := stream 1 ∅ calm_env [5%positive] ([None; Some ""] ++ [Some "Hello"]) in
     trace st = [] /\ response_messages st = [] /\ in_progress_message_ids st = [5%positive].
Proof.
  assert (Forall (fun f => f = "") (fragments [None; Some ""])) as H
    by (by repeat constructor).
  split; [exact H|].
  exact (no_text_no_reply 1 ∅ calm_env [5%positive] [None; Some ""] (Some "Hello") H).
Defined.

(** X2.  A reply whose text fits into one embed is sent in one block: when
    the fragments before the last chunk are not all empty and together no
    longer than [EMBED_MAX_LENGTH], the loop ends with exactly one segment,
    holding all of that text, in the first block Discord created, and that
    block's id is the only one added to the registry. *)
Theorem short_reply_is_one_block message_id user_warnings env registry
    (body : list (option string)) (terminal : option string) :
  str_join (fragments body) <> "" ->
  len (str_join (fragments body)) <= EMBED_MAX_LENGTH ->
  let st := stream message_id user_warnings env registry (body ++ [terminal]) in
  response_message_contents st = [str_join (fragments body)]
  /\ response_messages st = [reply_id env 0]
  /\ in_progress_message_ids st = registry ++ [reply_id env 0].
Proof.
  intros Hne Hfit st.
  assert (one_block env st) as Hone.
  { subst st. rewrite stream_snoc. apply on_chunk_one_block.
    - apply stream_lists_parallel.
    - by apply stream_one_block.
    - unfold pending. by rewrite stream_join. }
  assert (str_join (response_message_contents st) = str_join (fragments body)) as Hjoin.
  { subst st. rewrite stream_snoc, on_chunk_join by apply stream_lists_parallel.
    apply stream_join. }
  destruct Hone as [[E _]|(text & E1 & E2)].
  - rewrite E in Hjoin. by destruct Hne.
  - rewrite E1 in Hjoin. simpl in Hjoin. rewrite string_app_nil_r in Hjoin.
    subst st. rewrite stream_registry, E1, E2, Hjoin. done.
Qed.

(** "Hello world" while edits are slow to finish. *)
Lemma short_reply_is_one_block_witness :
  let st := stream 1 ∅ slow_env [5%positive]
              ([Some "Hel"; Some "lo "; Some "world"] ++ [None]) in
  response_message_contents st = ["Hello world"]
  /\ response_messages st = [1001%positive]
  /\ in_progress_message_ids st = [5%positive; 1001%positive].
Proof.
  apply (short_reply_is_one_block 1 ∅ slow_env [5%positive]
           [Some "Hel"; Some "lo "; Some "world"] None).
  - discriminate.
  - vm_compute. discriminate.
Defined.

(** X3.  The blocks of a response are filled one after the other: in the
    order of the calls, the [reply] calls create the segments 0, 1, 2, ...,
    and every edit is sent for the segment created last, to the block that
    the last [reply] returned.  A block that has a successor is never edited
    again. *)
Theorem edits_go_to_newest_block message_id user_warnings env registry
    (cs : list (option string)) :
  edits_newest_block 0 None
    (trace (stream message_id user_warnings env registry cs)) = true.
Proof.
  assert (edits_newest_block 0 None
            (trace (stream message_id user_warnings env registry cs)) = true
          /\ foldl blocks_after (0%nat, None)
               (trace (stream message_id user_warnings env registry cs))
             = (length (response_messages (stream message_id user_warnings env registry cs)),
                last (response_messages (stream message_id user_warnings env registry cs))))
    as [H _]; [|exact H].
  induction cs as [|c cs IH] using rev_ind; [done|].
  rewrite stream_snoc. apply on_chunk_newest; [apply stream_lists_parallel | exact IH].
Qed.

(** X4.  While the response is streamed no id leaves the registry: it is
    the registry as it was, followed by the ids of the blocks of this
    response in the order Discord created them, one block per segment. *)
Theorem block_ids_are_registered_in_order message_id user_warnings env registry
    (cs : list (option string)) :
  let st := stream message_id user_warnings env registry cs in
  response_messages st
  = reply_id env <$> seq 0 (length (response_message_contents st))
  /\ in_progress_message_ids st = registry ++ response_messages st.
Proof.
  intros st. subst st. split; [|apply stream_registry].
  pose proof (stream_lists_parallel message_id user_warnings env registry cs) as Hpar.
  unfold lists_parallel in Hpar. rewrite <- Hpar. apply stream_messages.
Qed.

(** X5.  While the edit budget is used up (the condition of line 180 is
    false at every chunk), the only edits dispatched are the final ones:
    every edit sent carries the colour of [complete]. *)
Theorem closed_throttle_sends_final_edits_only message_id user_warnings env registry
    (cs : list (option string)) (seg : nat) (block : snowflake) (e : Embed) :
  (forall i, throttle_open env i = false) ->
  Edit seg block e ∈ trace (stream message_id user_warnings env registry cs) ->
  color e = complete.
Proof.
  intros Hclosed Hin.
  by eapply (stream_closed_throttle message_id user_warnings env registry cs Hclosed).
Qed.

(** "Hello world" with the budget used up: the one edit sent is the final one. *)
Lemma closed_throttle_sends_final_edits_only_witness :
  color {| description := "Hello world"; color := complete; fields := [] |} = complete.
Proof.
  apply (closed_throttle_sends_final_edits_only 1 ∅ throttled_env []
           [Some "Hel"; Some "lo "; Some "world"; None] 0 1001).
  - reflexivity.
  - apply (list_elem_of_lookup_2 _ 1%nat). vm_compute. reflexivity.
Defined.

(** X6.  When every edit has finished by the next chunk and the edit budget
    is never used up, the blocks keep up with the stream: after any number
    of chunks, the embed sent last for each segment carries all the text
    the segment holds at that point. *)
Theorem free_outside_shows_every_fragment message_id user_warnings env registry
    (cs : list (option string)) (seg : nat) (text : string) :
  (forall i, task_done env i = true) ->
  (forall i, throttle_open env i = true) ->
  let st := stream message_id user_warnings env registry cs in
  response_message_contents st !! seg = Some text ->
  exists e, displayed seg (trace st) = Some e /\ description e = text.
Proof.
  intros Hdone Hopen st Hl.
  destruct (stream_shows_all message_id user_warnings env registry cs Hdone Hopen)
    as (_ & _ & _ & Hshow).
  by apply Hshow.
Qed.

(** What the block shows after the chunks "Hel", "lo ", "world". *)
Lemma free_outside_shows_every_fragment_witness :
  exists e,
    displayed 0 (trace (stream 1 ∅ calm_env [] [Some "Hel"; Some "lo "; Some "world"]))
    = Some e
    /\ description e = "Hello ".
Proof.
  apply (free_outside_shows_every_fragment 1 ∅ calm_env []
           [Some "Hel"; Some "lo "; Some "world"] 0 "Hello ").
  - reflexivity.
  - reflexivity.
  - vm_compute. reflexivity.
Defined.

(** X7.  Every embed the loop sends, on creating a block or on editing it,
    lists the warnings of the request as its fields: each warning once, in
    ascending order of the strings. *)
Theorem embeds_list_warnings_in_order message_id user_warnings env registry
    (cs : list (option string)) (ev : Event) (seg : nat) (e : Embed) :
  ev ∈ trace (stream message_id user_warnings env registry cs) ->
  rendered ev = Some (seg, e) ->
  (forall w, w ∈ fields e <-> w ∈ user_warnings)
  /\ NoDup (fields e)
  /\ StronglySorted (fun a b => String.leb a b = true) (fields e).
Proof.
  intros Hin Hr.
  rewrite (stream_fields message_id user_warnings env registry cs ev seg e Hin Hr).
  split; [|split].
  - intros w. by rewrite sorted_perm, elem_of_elements.
  - rewrite sorted_perm. apply NoDup_elements.
  - apply sorted_sorted.
Qed.

(** Two warnings, given in the other order. *)
Lemma embeds_list_warnings_in_order_witness :
  let e := {| description := "Hi"; color := complete; fields := ["a"; "b"] |} in
  (forall w, w ∈ fields e <-> w ∈ ({[ "b"; "a" ]} : gset string))
  /\ NoDup (fields e)
  /\ StronglySorted (fun a b => String.leb a b = true) (fields e).
Proof.
  apply (embeds_list_warnings_in_order 1 {[ "b"; "a" ]} calm_env [] [Some "Hi"; None]
           (Reply 0 1 {| description := "Hi"; color := complete; fields := ["a"; "b"] |} 1001)
           0).
  - apply (list_elem_of_lookup_2 _ 0%nat). vm_compute. reflexivity.
  - reflexivity.
Defined.

(** X8.  The loop never sends an embed without text: the description of
    every embed it sends, on creating a block or on editing it, is not
    empty. *)
Theorem no_embed_is_empty message_id user_warnings env registry
    (cs : list (option string)) (ev : Event) (seg : nat) (e : Embed) :
  ev ∈ trace (stream message_id user_warnings env registry cs) ->
  rendered ev = Some (seg, e) ->
  description e <> "".
Proof.
  intros Hin Hr.
  by eapply (stream_nonempty message_id user_warnings env registry cs).
Qed.

(** The block created for "a". *)
Lemma no_embed_is_empty_witness :
  description {| description := "a"; color := complete; fields := [] |} <> "".
Proof.
  apply (no_embed_is_empty 1 ∅ calm_env [] [Some "a"; Some ""; Some "b"; None]
           (Reply 0 1 {| description := "a"; color := complete; fields := [] |} 1001) 0).
  - apply (list_elem_of_lookup_2 _ 0%nat). vm_compute. reflexivity.
  - reflexivity.
Defined.

(** X9.  A mention of the client at the very start of a user's message is
    taken off, together with the white space that follows it: the text
    that goes into the history does not start with white space.  A text
    that does not start with the mention is taken as it is. *)
Theorem leading_mention_is_stripped cfg (m : Message) :
  by_client cfg m = false ->
  (forall rest,
      Discord.content m = client_mention cfg +:+ rest ->
      message_text cfg m = Done (lstrip rest)
      /\ forall c s, lstrip rest = String c s -> isspace c = false)
  /\ (String.prefix (client_mention cfg) (Discord.content m) = false ->
      message_text cfg m = Done (Discord.content m)).
Proof.
  intros Huser. unfold message_text. rewrite Huser.
  unfold mbind, Outcome_bind. cbv beta iota. split.
  - intros rest ->. rewrite prefix_app, drop_chars_app. split; [done|].
    intros c s. apply lstrip_head.
  - by intros ->.
Qed.

(** A mention followed by two blanks. *)
Lemma leading_mention_is_stripped_witness :
  message_text local_cfg mentioning = Done "what is this?".
Proof.
  destruct (leading_mention_is_stripped local_cfg mentioning) as [H _]; [reflexivity|].
  destruct (H "  what is this?") as [Htext _]; [reflexivity|].
  exact Htext.
Defined.

(** X10.  For a model whose name does not contain "vision" the cap on
    images is zero: the node of a message carries no image reference, it is
    flagged exactly when the message has an attachment whose content type
    contains "image", and the warning shown for it reads "Can't see
    images". *)
Theorem blind_model_flags_every_image cfg (m : Message) (node : MessageNode) :
  contains "vision" (LLM cfg) = false ->
  new_message_node cfg m = Done node ->
  image_parts (content (message node)) = []
  /\ (too_many_images node = true
      <-> exists att, att ∈ Discord.attachments m /\ is_image att = true)
  /\ MAX_IMAGE_WARNING cfg = "⚠️ Can't see images".
Proof.
  intros Hblind Hnode.
  pose proof (MAX_IMAGES_blind cfg Hblind) as Hzero.
  destruct (new_message_node_spec cfg m node Hnode) as (Hflag & _ & Hparts).
  rewrite Hzero in Hflag, Hparts. split; [|split].
  - rewrite Hparts. by destruct (contains "mistral" (LLM cfg)).
  - rewrite Hflag, length_fmap, Z.ltb_lt. split.
    + intros Hlen.
      destruct (filter (fun a => is_image a = true) (Discord.attachments m))
        as [|att l] eqn:E; [simpl in Hlen; lia|].
      assert (att ∈ filter (fun a => is_image a = true) (Discord.attachments m)) as Hin
        by (rewrite E; by left).
      apply list_elem_of_filter in Hin as [Himg Hin]. by exists att.
    + intros (att & Hin & Himg).
      assert (att ∈ filter (fun a => is_image a = true) (Discord.attachments m)) as Hf
        by (by apply list_elem_of_filter).
      destruct (filter _ _); [by apply elem_of_nil in Hf | simpl; lia].
  - unfold MAX_IMAGE_WARNING. by rewrite Hzero.
Qed.

(** Two photos sent to a model without vision. *)
Lemma blind_model_flags_every_image_witness :
  exists node,
    new_message_node local_cfg two_photos = Done node
    /\ image_parts (content (message node)) = []
    /\ (too_many_images node = true
        <-> exists att, att ∈ Discord.attachments two_photos /\ is_image att = true)
    /\ MAX_IMAGE_WARNING local_cfg = "⚠️ Can't see images".
Proof.
  eexists. split; [reflexivity|].
  apply (blind_model_flags_every_image local_cfg two_photos); reflexivity.
Defined.

(** X11.  An attachment for which Discord gives no content type makes the
    handler raise [TypeError] at line 99, before anything is sent: the
    request gets no answer. *)
Theorem untyped_attachment_raises cfg (fuel : nat) env (m : Message) (w : World)
    (att : Attachment) :
  unwanted cfg m = false ->
  still_generating m (registry w) = false ->
  (by_client cfg m = true -> Discord.embeds m <> []) ->
  att ∈ Discord.attachments m ->
  Discord.content_type att = None ->
  on_message cfg (S fuel) env m w = Crashed TypeError (registry w) [].
Proof.
  intros Hwanted Hfree Hembed Hin Hnone. unfold on_message.
  rewrite Hwanted, Hfree. simpl.
  assert (new_message_node cfg m = Raised TypeError) as ->; [|done].
  unfold new_message_node, message_text.
  rewrite (message_images_untyped _ att Hin Hnone).
  destruct (by_client cfg m); [|done].
  destruct (Discord.embeds m); [by destruct Hembed | done].
Qed.

(** A photo and an upload without content type. *)
Lemma untyped_attachment_raises_witness :
  on_message vision_cfg 1 hello_env untyped_upload empty_world
  = Crashed TypeError [] [].
Proof.
  apply (untyped_attachment_raises vision_cfg 0 hello_env untyped_upload empty_world
           {| Discord.url := "u2"; Discord.content_type := None |}).
  - reflexivity.
  - reflexivity.
  - discriminate.
  - right. left.
  - reflexivity.
Defined.

(** X12.  A message of the client that carries no embed cannot be walked:
    when the request replies to one that is not cached (such as the replies
    of lines 210 and 212, which carry a file or a plain text), line 89
    raises [IndexError] and the request gets no answer. *)
Theorem reply_to_bare_client_message_raises cfg (fuel : nat) env (m : Message)
    (w : World) (r : MessageReference) (b : Message) :
  unwanted cfg m = false ->
  still_generating m (registry w) = false ->
  buildable cfg m ->
  Discord.reference m = Some r ->
  Discord.message_id r <> Discord.id m ->
  message_nodes (store w) !! Discord.message_id r = None ->
  referenced_message (fetch_message env) r = Some b ->
  by_client cfg b = true ->
  Discord.embeds b = [] ->
  on_message cfg (S (S fuel)) env m w = Crashed IndexError (registry w) [].
Proof.
  intros Hwanted Hfree (node & Hnode) Href Hne Hfresh Hget Hclient Hbare.
  unfold on_message. rewrite Hwanted, Hfree.
  assert (build_chain cfg (S (S fuel)) (fetch_message env) m None (store w)
          = Raised IndexError) as ->; [|done].
  simpl. rewrite Hnode. simpl. rewrite Href.
  rewrite bool_decide_eq_false_2.
  2:{ rewrite lookup_insert_ne by done. rewrite Hfresh. by intros [? ?]. }
  rewrite Hget.
  unfold new_message_node, message_text. by rewrite Hclient, Hbare.
Qed.

(** A reply to the generated image. *)
Lemma reply_to_bare_client_message_raises_witness :
  on_message local_cfg 2 hello_env nice_cat empty_world = Crashed IndexError [] [].
Proof.
  apply (reply_to_bare_client_message_raises local_cfg 0 hello_env nice_cat empty_world
           {| Discord.message_id := 1003; Discord.resolved := Some image_reply |}
           image_reply).
  - reflexivity.
  - reflexivity.
  - eexists. reflexivity.
  - reflexivity.
  - discriminate.
  - reflexivity.
  - reflexivity.
  - reflexivity.
  - reflexivity.
Defined.

(** X13.  The walk up the reply chain stops at the first message that has
    no reference or whose reply target is cached, without fetching that
    target.  It adds one node object per message walked and changes none of
    the node objects that were there; the chain of the request is then the
    nodes of the messages walked followed by the chain of the cached
    message, and the history is assembled from the first [MAX_MESSAGES]
    nodes of it. *)
Theorem walk_stops_at_root_or_cache cfg fetch today (m : Message)
    (path : list Message) (stop : option snowflake) (st : Store) (fuel : nat)
    (tail : list MessageNode) :
  ascent_ends fetch (dom (message_nodes st)) m path stop ->
  Forall (buildable cfg) path ->
  (length path <= fuel)%nat ->
  match stop with
  | Some key => (key ∉ (Discord.id <$> path))
                /\ exists a, message_nodes st !! key = Some a
                             /\ chain_from (objects st) (Some a) tail
  | None => tail = []
  end ->
  exists st' leaf nodes user_warnings,
    build_chain cfg fuel fetch m None st = Done st'
    /\ objects st' = objects st ++ nodes
    /\ message_nodes st' !! Discord.id m = Some leaf
    /\ chain_from (objects st') (Some leaf) (nodes ++ tail)
    /\ Forall2 (fun msg node =>
                  exists built, new_message_node cfg msg = Done built
                                /\ message node = message built
                                /\ too_many_images node = too_many_images built)
               path nodes
    /\ assemble cfg today st' (Discord.id m)
       = Done (get_system_prompt cfg today
                 ++ rev (message <$> take (Z.to_nat (MAX_MESSAGES cfg)) (nodes ++ tail)),
               message <$> take (Z.to_nat (MAX_MESSAGES cfg)) (nodes ++ tail),
               user_warnings).
Proof.
  intros Hwalk Hbuild Hfuel Hstop.
  destruct (build_chain_walk_top cfg fetch m path stop st fuel tail Hwalk Hbuild Hfuel Hstop)
    as (st' & nodes & Hrun & Hobj & Hleaf & _ & Hchain & Hsame).
  destruct (assemble_spec cfg today st' _ _ _ Hleaf Hchain) as (ws & Hasm & _).
  by exists st', (length (objects st)), nodes, ws.
Qed.

(** D replies to C, whose chain C, B, A is cached. *)
Lemma walk_stops_at_root_or_cache_witness :
  exists st' leaf nodes user_warnings,
    build_chain local_cfg 1 (fun _ => NotFound) message_D None thread_store = Done st'
    /\ objects st' = objects thread_store ++ nodes
    /\ message_nodes st' !! Discord.id message_D = Some leaf
    /\ chain_from (objects st') (Some leaf) (nodes ++ [node_C; node_B; node_A])
    /\ Forall2 (fun msg node =>
                  exists built, new_message_node local_cfg msg = Done built
                                /\ message node = message built
                                /\ too_many_images node = too_many_images built)
               [message_D] nodes
    /\ assemble local_cfg "November 03 2026" st' (Discord.id message_D)
       = Done (get_system_prompt local_cfg "November 03 2026"
                 ++ rev (message <$> take (Z.to_nat (MAX_MESSAGES local_cfg))
                                       (nodes ++ [node_C; node_B; node_A])),
               message <$> take (Z.to_nat (MAX_MESSAGES local_cfg))
                             (nodes ++ [node_C; node_B; node_A]),
               user_warnings).
Proof.
  apply (walk_stops_at_root_or_cache local_cfg (fun _ => NotFound) "November 03 2026"
           message_D [message_D] (Some 13%positive) thread_store 1
           [node_C; node_B; node_A]).
  - apply (ends_at_cached _ _ message_D
             {| Discord.message_id := 13; Discord.resolved := None |});
      [reflexivity | | discriminate].
    apply elem_of_dom. by exists 2%nat.
  - repeat constructor. eexists. reflexivity.
  - simpl. lia.
  - split.
    + intros [H|H]%elem_of_cons; [discriminate H | by apply elem_of_nil in H].
    + exists 2%nat. split; [reflexivity|].
      repeat (econstructor; [reflexivity|]). constructor.
Defined.

(** X14.  A reply to a block of an answer that has been registered (lines
    218-227) continues the conversation with the whole answer: the walk
    stops at the block's node, and the chain of the new request is its own
    node, then the node holding the whole answer, then the chain of the
    request that was answered. *)
Theorem reply_to_registered_block_sees_whole_answer cfg fetch (fuel : nat)
    (reply : string) (key : snowflake) (request_node : nat)
    (rms reg : list snowflake) (st : Store) (request_chain : list MessageNode)
    (k : nat) (rid : snowflake) (m : Message) (r : MessageReference) :
  message_nodes st !! key = Some request_node ->
  chain_from (objects st) (Some request_node) request_chain ->
  key ∉ rms -> NoDup rms -> (forall x, x ∈ rms -> x ∈ reg) ->
  rms !! k = Some rid ->
  Discord.reference m = Some r ->
  Discord.message_id r = rid ->
  Discord.id m <> rid ->
  buildable cfg m ->
  exists st1 reg1 st2 leaf node,
    register_response cfg reply key rms st reg = Done (st1, reg1)
    /\ build_chain cfg (S fuel) fetch m None st1 = Done st2
    /\ message_nodes st2 !! Discord.id m = Some leaf
    /\ chain_from (objects st2) (Some leaf)
         (node :: response_node cfg reply request_node :: request_chain)
    /\ (exists built, new_message_node cfg m = Done built
                      /\ message node = message built
                      /\ too_many_images node = too_many_images built).
Proof.
  intros Hkey Hchain Hnot Hnd Hreg Hk Href Hrid Hne Hbuild.
  destruct (register_response_spec cfg reply key request_node rms st reg Hkey Hnot Hnd Hreg)
    as (st1 & reg1 & Hrun & Hobj & Hnew & _).
  pose proof (Hnew k rid Hk) as Hblock.
  assert (chain_from (objects st1) (Some (length (objects st) + k)%nat)
            (response_node cfg reply request_node :: request_chain)) as Hchain1.
  { rewrite Hobj. econstructor.
    - rewrite lookup_app_r by lia.
      replace (length (objects st) + k - length (objects st))%nat with k by lia.
      apply lookup_replicate_2. by eapply lookup_lt_Some.
    - simpl. by apply chain_from_app. }
  destruct (build_chain_walk_top cfg fetch m [m] (Some rid) st1 (S fuel)
              (response_node cfg reply request_node :: request_chain))
    as (st2 & nodes & Hrun2 & _ & Hleaf & _ & Hchain2 & Hsame).
  - rewrite <- Hrid. apply ends_at_cached; [done | | by rewrite Hrid].
    apply elem_of_dom. rewrite Hrid. by eexists.
  - by repeat constructor.
  - simpl. lia.
  - split; [|by eexists].
    intros [H|H]%elem_of_cons; [by apply Hne | by apply elem_of_nil in H].
  - apply Forall2_cons_inv_l in Hsame as (node & rest & Hnode & Hrest & ->).
    apply Forall2_nil_inv_l in Hrest as ->.
    by exists st1, reg1, st2, (length (objects st1)), node.
Qed.

(** A follow-up to block 1001 of the answer to "draw me a cat". *)
Lemma reply_to_registered_block_sees_whole_answer_witness :
  exists st1 reg1 st2 leaf node,
    register_response local_cfg "A cat." 15 [1001%positive] drawing_store [1001%positive]
    = Done (st1, reg1)
    /\ build_chain local_cfg 1 (fun _ => NotFound) follow_up None st1 = Done st2
    /\ message_nodes st2 !! Discord.id follow_up = Some leaf
    /\ chain_from (objects st2) (Some leaf)
         (node :: response_node local_cfg "A cat." 0
               :: [ {| message := entry_of user "draw me a cat" "3";
                       too_many_images := false;
                       replied_to := None |} ])
    /\ (exists built, new_message_node local_cfg follow_up = Done built
                      /\ message node = message built
                      /\ too_many_images node = too_many_images built).
Proof.
  apply (reply_to_registered_block_sees_whole_answer local_cfg (fun _ => NotFound) 0
           "A cat." 15 0 [1001%positive] [1001%positive] drawing_store _ 0 1001 follow_up
           {| Discord.message_id := 1001; Discord.resolved := None |}).
  - reflexivity.
  - econstructor; [reflexivity|]. constructor.
  - intros [H|H]%elem_of_cons; [discriminate H | by apply elem_of_nil in H].
  - apply NoDup_singleton.
  - done.
  - reflexivity.
  - reflexivity.
  - reflexivity.
  - discriminate.
  - eexists. reflexivity.
Defined.

(** X15.  Whatever the links between the node objects, even when they run
    in a circle, the loop of lines 136-142 ends: for a request that has a
    node and a cap of at least one message, the history is the system
    prompt followed by at least one and at most [MAX_MESSAGES] messages, and
    the only warnings are the two the module defines. *)
Theorem history_is_bounded cfg today (st : Store) (key : snowflake) :
  store_closed st ->
  is_Some (message_nodes st !! key) ->
  1 <= MAX_MESSAGES cfg ->
  exists messages reply_chain user_warnings,
    assemble cfg today st key = Done (messages, reply_chain, user_warnings)
    /\ messages = get_system_prompt cfg today ++ rev reply_chain
    /\ 1 <= Z.of_nat (length reply_chain) <= MAX_MESSAGES cfg
    /\ Z.of_nat (length messages) <= 1 + MAX_MESSAGES cfg
    /\ user_warnings ⊆ {[ MAX_IMAGE_WARNING cfg; MAX_MESSAGE_WARNING cfg ]}.
Proof.
  intros Hclosed Hkey Hmax.
  destruct (assemble_closed cfg today st key Hclosed Hkey)
    as (reply_chain & ws & Hrun & Hlen & Hne & Hws).
  exists (get_system_prompt cfg today ++ rev reply_chain), reply_chain, ws.
  split; [done|]. split; [done|].
  assert (1 <= Z.of_nat (length reply_chain)) as Hone.
  { specialize (Hne Hmax). destruct reply_chain; [done | simpl; lia]. }
  split; [lia|]. split; [|done].
  rewrite length_app, length_rev, get_system_prompt_length. lia.
Qed.

Lemma history_is_bounded_witness :
  exists messages reply_chain user_warnings,
    assemble local_cfg "November 03 2026" circle_store 11
    = Done (messages, reply_chain, user_warnings)
    /\ messages = get_system_prompt local_cfg "November 03 2026" ++ rev reply_chain
    /\ 1 <= Z.of_nat (length reply_chain) <= MAX_MESSAGES local_cfg
    /\ Z.of_nat (length messages) <= 1 + MAX_MESSAGES local_cfg
    /\ user_warnings
       ⊆ {[ MAX_IMAGE_WARNING local_cfg; MAX_MESSAGE_WARNING local_cfg ]}.
Proof.
  apply (history_is_bounded local_cfg "November 03 2026" circle_store 11).
  - split.
    + intros key a H. simpl in *.
      apply lookup_insert_Some in H as [[_ <-]|[_ H]]; [simpl; lia|].
      apply lookup_singleton_Some in H as [_ <-]. simpl. lia.
    + intros [|[|i]] node a H; simpl in H; [| |done];
        injection H as <-; intros [= <-]; simpl; lia.
  - by exists 0%nat.
  - simpl. lia.
Defined.

(** X16.  A run of the handler on a store whose references all lead to
    node objects never raises [KeyError] or [ValueError]: the lookups in
    [message_nodes] (lines 116, 120, 135 and 225) and the [remove] of line
    227 always succeed, whatever ids Discord gives to the blocks.  When
    the run returns, the references of the store it leaves again all lead
    to node objects. *)
Theorem handler_never_raises_key_or_value_error cfg (fuel : nat) env
    (m : Message) (w : World) :
  store_closed (store w) ->
  match on_message cfg fuel env m w with
  | Crashed e _ _ => e <> KeyError /\ e <> ValueError
  | Finished w' _ => store_closed (store w')
  | _ => True
  end.
Proof.
  intros Hclosed. unfold on_message.
  destruct (unwanted cfg m); [done|].
  destruct (still_generating m (registry w)); [done|].
  pose proof (build_chain_keeps cfg (fetch_message env) fuel m None (store w) 0
                Hclosed ltac:(lia) I) as Hbuild.
  destruct (build_chain cfg fuel (fetch_message env) m None (store w)) as [st|e|];
    [|by destruct Hbuild as [-> | ->]|done].
  destruct Hbuild as (_ & _ & Hclosed' & Hkeys).
  assert (is_Some (message_nodes st !! Discord.id m)) as Hkey by (apply Hkeys; by right).
  destruct (assemble_closed cfg (today env) st (Discord.id m) Hclosed' Hkey)
    as (reply_chain & ws & -> & _).
  destruct reply_chain as [|entry reply_chain]; [done|].
  unfold after_stream.
  destruct (contains "draw me" (lower (Discord.content m))); [|done].
  destruct (contains "draw me" (Discord.content m)); [|done].
  destruct (sd_status env =? 200); [|done].
  set (s := stream _ _ _ _ _).
  destruct (register_response_closed cfg (str_join (response_message_contents s))
              (Discord.id m) (response_messages s) st (in_progress_message_ids s)
              Hclosed' Hkey) as (st' & reg' & -> & Hclosed'' & _); [|done].
  subst s. rewrite stream_registry. apply submseteq_inserts_l. done.
Qed.

(** The request "draw me a cat" on the empty store. *)
Lemma handler_never_raises_key_or_value_error_witness :
  match on_message local_cfg 1 long_env drawing empty_world with
  | Crashed e _ _ => e <> KeyError /\ e <> ValueError
  | Finished w' _ => store_closed (store w')
  | _ => True
  end.
Proof.
  apply (handler_never_raises_key_or_value_error local_cfg 1 long_env drawing empty_world).
  exact store_closed_empty.
Defined.

(** X17.  With [MAX_MESSAGES] below one nothing is ever sent: a run for a
    request that gets past the filter and the wait of line 81 never returns
    normally and never reaches the completion.  Either the walk up the reply
    chain has not ended within [fuel] iterations, or the run ends in an
    exception raised before the completion is asked for (at the latest the
    [IndexError] of line 146), with the registry as it was. *)
Theorem nothing_is_sent_below_one_message cfg (fuel : nat) env (m : Message) (w : World) :
  MAX_MESSAGES cfg <= 0 ->
  unwanted cfg m = false ->
  still_generating m (registry w) = false ->
  on_message cfg fuel env m w = OutOfFuel
  \/ exists e, on_message cfg fuel env m w = Crashed e (registry w) [].
Proof.
  intros Hmax Hwanted Hfree. unfold on_message. rewrite Hwanted, Hfree.
  destruct (build_chain cfg fuel (fetch_message env) m None (store w)) as [st|e|];
    [|right; by eexists|by left].
  right.
  destruct (message_nodes st !! Discord.id m) as [leaf|] eqn:Hleaf.
  - rewrite (assemble_nothing cfg (today env) st _ leaf Hmax Hleaf). by eexists.
  - unfold assemble. rewrite Hleaf. simpl. by eexists.
Qed.

(** "hello" with a cap of no message. *)
Lemma nothing_is_sent_below_one_message_witness :
  on_message mute_cfg 1 hello_env greeting empty_world = OutOfFuel
  \/ exists e, on_message mute_cfg 1 hello_env greeting empty_world = Crashed e [] [].
Proof.
  apply (nothing_is_sent_below_one_message mute_cfg 1 hello_env greeting empty_world).
  - simpl. lia.
  - reflexivity.
  - reflexivity.
Defined.

(** X18.  The text sent to the image service is what stands between the
    first "draw me" of the request and the next one (or the end of the
    text), without the white space around it: when the text contains
    "draw me", line 192 yields [strip mid] for a decomposition of the text
    into [before], "draw me", [mid] and [after], where neither [before] nor
    [mid] contains "draw me" and [after] is empty or starts with it.  When
    the text does not contain "draw me" in this spelling, line 192 raises
    [IndexError]. *)
Theorem drawing_prompt_is_between_markers (content : string) :
  (contains "draw me" content = false -> prompt_text content = Raised IndexError)
  /\ (contains "draw me" content = true ->
      exists before mid after,
        content = before +:+ "draw me" +:+ mid +:+ after
        /\ contains "draw me" before = false
        /\ contains "draw me" mid = false
        /\ (after = "" \/ String.prefix "draw me" after = true)
        /\ prompt_text content = Done (strip mid)).
Proof.
  split; [apply prompt_text_raises|].
  intros Hyes.
  destruct (str_split_second "draw me" content ltac:(done)) as [_ H].
  destruct (H Hyes) as (before & mid & after & Hs & Hb & Hm & Ha & Hsecond).
  exists before, mid, after. unfold prompt_text. rewrite Hsecond. done.
Qed.

(** The request "please draw me  a cat draw me a dog" asks for "a cat". *)
Example drawing_prompt_of_two_requests :
  prompt_text "please draw me  a cat draw me a dog" = Done "a cat".
Proof. vm_compute. reflexivity. Qed.

(** "say draw me a cat". *)
Lemma drawing_prompt_is_between_markers_witness :
  exists before mid after,
    "say draw me a cat" = before +:+ "draw me" +:+ mid +:+ after
    /\ contains "draw me" before = false
    /\ contains "draw me" mid = false
    /\ (after = "" \/ String.prefix "draw me" after = true)
    /\ prompt_text "say draw me a cat" = Done (strip mid).
Proof.
  destruct (drawing_prompt_is_between_markers "say draw me a cat") as [_ H].
  apply H. reflexivity.
Defined.

(** X19.  Line 190 looks for "draw me" in the lowered text and line 192
    splits the text as it was written.  A request that contains "draw me"
    only in another spelling ("Draw me", "DRAW ME") is answered in full,
    and then line 192 raises [IndexError]: the image service is not asked,
    and the ids of all blocks of the answer stay in the registry. *)
Theorem other_spelling_raises_after_the_answer cfg env (m : Message) (st : Store)
    user_warnings registry (chunks : list (option string)) :
  contains "draw me" (lower (Discord.content m)) = true ->
  prompt_text (Discord.content m) = Raised IndexError ->
  let s := stream (Discord.id m) user_warnings (stream_env env) registry chunks in
  after_stream cfg env m st s
  = Crashed IndexError (registry ++ response_messages s) (trace s).
Proof.
  intros Hlower Hraise s. apply prompt_text_raises in Hraise.
  unfold after_stream. rewrite Hlower, Hraise.
  subst s. by rewrite stream_registry.
Qed.

Lemma other_spelling_raises_after_the_answer_witness :
  let s := stream 19 ∅ calm_env [] hello_chunks in
  after_stream local_cfg hello_env shouted_drawing empty_store s
  = Crashed IndexError ([] ++ response_messages s) (trace s).
Proof.
  apply (other_spelling_raises_after_the_answer local_cfg hello_env shouted_drawing
           empty_store ∅ [] hello_chunks).
  - vm_compute. reflexivity.
  - vm_compute. reflexivity.
Defined.

(** X20.  The module sets up a client only for a model name that starts
    with "local" or with "mistral" (the key looked up in [LLM_CONFIG] is the
    part of the name before its first "-"); the only exception line 41
    raises is [KeyError].  When the Mistral endpoint is chosen the name
    starts with "mistral", so the requests are sent in the form that
    endpoint takes: the content of every message is a plain string, and the
    system prompt does not ask for Discord ids as names. *)
Theorem endpoint_follows_model_name cfg :
  match llm_base_url cfg with
  | Done url =>
      (url = "http://localhost:1234/v1" /\ String.prefix "local" (LLM cfg) = true)
      \/ (url = "https://api.mistral.ai/v1"
          /\ String.prefix "mistral" (LLM cfg) = true
          /\ (forall m node, new_message_node cfg m = Done node ->
                exists text, content (message node) = Text text)
          /\ forall today,
               get_system_prompt cfg today
               = [ {| role := system;
                      content := Text (CUSTOM_SYSTEM_PROMPT cfg +:+ "
Current date: " +:+ today);
                      name := None |} ])
  | Raised e => e = KeyError
  | Unfinished => False
  end.
Proof.
  unfold llm_base_url, LLM_CONFIG.
  pose proof (str_split_head "-" (LLM cfg) ltac:(done)) as Hhead.
  destruct (String.eqb_spec (hd "" (str_split "-" (LLM cfg))) "local") as [E|_].
  { simpl. left. by rewrite E in Hhead. }
  destruct (String.eqb_spec (hd "" (str_split "-" (LLM cfg))) "mistral") as [E|_];
    [|done].
  simpl. right. rewrite E in Hhead. split; [done|]. split; [done|].
  pose proof (contains_here _ _ Hhead) as Hm.
  split.
  - intros m node Hnode. unfold new_message_node in Hnode.
    destruct (message_text cfg m) as [text| |]; simpl in Hnode; try done.
    destruct (message_images (Discord.attachments m)); simpl in Hnode; try done.
    injection Hnode as <-. simpl. rewrite Hm. by eexists.
  - intros today. unfold get_system_prompt. by rewrite Hm, orb_true_r.
Qed.

(** X21.  For a request that gets past the filter and the wait, whose walk
    up the reply chain ends at a message without a reference or at a cached
    message, and a cap of at least one message, the completion is asked
    for with the system prompt followed by the messages of the first
    [MAX_MESSAGES] nodes of the chain (the nodes of the messages walked,
    then the cached chain), oldest first; the response is streamed as replies
    to the request, with the warnings the assembler has set, and lines
    190-227 run on the store that holds the new nodes. *)
Theorem completion_is_asked_with_the_chain cfg env (fuel : nat) (m : Message)
    (w : World) (path : list Message) (stop : option snowflake)
    (tail : list MessageNode) :
  unwanted cfg m = false ->
  still_generating m (registry w) = false ->
  1 <= MAX_MESSAGES cfg ->
  ascent_ends (fetch_message env) (dom (message_nodes (store w))) m path stop ->
  Forall (buildable cfg) path ->
  (length path <= fuel)%nat ->
  match stop with
  | Some key => (key ∉ (Discord.id <$> path))
                /\ exists a, message_nodes (store w) !! key = Some a
                             /\ chain_from (objects (store w)) (Some a) tail
  | None => tail = []
  end ->
  exists st' nodes user_warnings,
    let chain := take (Z.to_nat (MAX_MESSAGES cfg)) (nodes ++ tail) in
    objects st' = objects (store w) ++ nodes
    /\ Forall2 (fun msg node =>
                  exists built, new_message_node cfg msg = Done built
                                /\ message node = message built
                                /\ too_many_images node = too_many_images built)
               path nodes
    /\ (forall x, x ∈ user_warnings <->
          (x = MAX_IMAGE_WARNING cfg
           /\ exists n, n ∈ chain /\ too_many_images n = true)
          \/ (x = MAX_MESSAGE_WARNING cfg
              /\ (Z.to_nat (MAX_MESSAGES cfg) < length (nodes ++ tail))%nat))
    /\ on_message cfg fuel env m w
       = after_stream cfg env m st'
           (stream (Discord.id m) user_warnings (stream_env env) (registry w)
              (completion env
                 (get_system_prompt cfg (today env) ++ rev (message <$> chain)))).
Proof.
  intros Hwanted Hfree Hmax Hwalk Hbuild Hfuel Hstop.
  destruct (build_chain_walk_top cfg (fetch_message env) m path stop (store w) fuel tail
              Hwalk Hbuild Hfuel Hstop)
    as (st' & nodes & Hrun & Hobj & Hleaf & _ & Hchain & Hsame).
  destruct (assemble_spec cfg (today env) st' _ _ _ Hleaf Hchain) as (ws & Hasm & Hws).
  exists st', nodes, ws. cbv zeta. split; [done|]. split; [done|]. split.
  { intros x. rewrite Hws. split.
    - intros [?|[? ?]]; [by left | right; split; [done | lia]].
    - intros [?|[? ?]]; [by left | right; split; [done | lia]]. }
  unfold on_message. rewrite Hwanted, Hfree, Hrun, Hasm.
  destruct (message <$> take (Z.to_nat (MAX_MESSAGES cfg)) (nodes ++ tail))
    as [|entry entries] eqn:E; [|done].
  exfalso. apply (f_equal length) in E. rewrite length_fmap, length_take, length_app in E.
  destruct (ascent_ends_nonempty _ _ _ _ _ Hwalk) as (rest & ->).
  apply Forall2_length in Hsame. simpl in *. lia.
Qed.

(** D replies to C in the cached thread A, B, C. *)
Lemma completion_is_asked_with_the_chain_witness :
  exists st' nodes user_warnings,
    let chain := take (Z.to_nat (MAX_MESSAGES local_cfg))
                   (nodes ++ [node_C; node_B; node_A]) in
    objects st' = objects thread_store ++ nodes
    /\ Forall2 (fun msg node =>
                  exists built, new_message_node local_cfg msg = Done built
                                /\ message node = message built
                                /\ too_many_images node = too_many_images built)
               [message_D] nodes
    /\ (forall x, x ∈ user_warnings <->
          (x = MAX_IMAGE_WARNING local_cfg
           /\ exists n, n ∈ chain /\ too_many_images n = true)
          \/ (x = MAX_MESSAGE_WARNING local_cfg
              /\ (Z.to_nat (MAX_MESSAGES local_cfg)
                  < length (nodes ++ [node_C; node_B; node_A]))%nat))
    /\ on_message local_cfg 1 hello_env message_D
         {| store := thread_store; registry := [] |}
       = after_stream local_cfg hello_env message_D st'
           (stream (Discord.id message_D) user_warnings (stream_env hello_env) []
              (completion hello_env
                 (get_system_prompt local_cfg (today hello_env)
                    ++ rev (message <$> chain)))).
Proof.
  apply (completion_is_asked_with_the_chain local_cfg hello_env 1 message_D
           {| store := thread_store; registry := [] |}
           [message_D] (Some 13%positive) [node_C; node_B; node_A]).
  - reflexivity.
  - reflexivity.
  - simpl. lia.
  - apply (ends_at_cached _ _ message_D
             {| Discord.message_id := 13; Discord.resolved := None |});
      [reflexivity | | discriminate].
    apply elem_of_dom. by exists 2%nat.
  - repeat constructor. eexists. reflexivity.
  - simpl. lia.
  - split.
    + intros [H|H]%elem_of_cons; [discriminate H | by apply elem_of_nil in H].
    + exists 2%nat. split; [reflexivity|].
      repeat (econstructor; [reflexivity|]). constructor.
Defined.

(** X22.  Text once shown is never taken back: after any number of chunks,
    every embed that has been sent for a segment, on creating its block or
    on editing it, shows a beginning of the text the segment holds by
    then. *)
Theorem shown_text_is_never_taken_back message_id user_warnings env registry
    (cs : list (option string)) (ev : Event) (seg : nat) (e : Embed) :
  let st := stream message_id user_warnings env registry cs in
  ev ∈ trace st ->
  rendered ev = Some (seg, e) ->
  exists text rest,
    response_message_contents st !! seg = Some text
    /\ text = description e +:+ rest.
Proof.
  intros st Hin Hr.
  destruct (stream_beginnings message_id user_warnings env registry cs) as [_ H].
  by apply (H ev seg e).
Qed.

(** The edit that showed "Hello ". *)
Lemma shown_text_is_never_taken_back_witness :
  let st := stream 1 ∅ calm_env [] [Some "Hel"; Some "lo "; Some "world"; None] in
  exists text rest,
    response_message_contents st !! 0%nat = Some text
    /\ text = "Hello " +:+ rest.
Proof.
  apply (shown_text_is_never_taken_back 1 ∅ calm_env []
           [Some "Hel"; Some "lo "; Some "world"; None]
           (Edit 0 1001 {| description := "Hello "; color := incomplete; fields := [] |})
           0 {| description := "Hello "; color := incomplete; fields := [] |}).
  - apply (list_elem_of_lookup_2 _ 1%nat). vm_compute. reflexivity.
  - reflexivity.
Defined.

(** X23.  A request whose text does not contain "draw me" in any spelling
    returns with the ids of all the blocks of its answer still in
    [in_progress_message_ids]; from then on, every message that replies to
    one of these blocks and gets past the filter is held in the loop of
    line 81. *)
Theorem replies_to_plain_answers_wait cfg env (m : Message) (st : Store)
    user_warnings registry (chunks : list (option string))
    (fuel : nat) later (m' : Message) (r : MessageReference) :
  contains "draw me" (lower (Discord.content m)) = false ->
  let s := stream (Discord.id m) user_warnings (stream_env env) registry chunks in
  Discord.reference m' = Some r ->
  Discord.message_id r ∈ response_messages s ->
  unwanted cfg m' = false ->
  exists w tr,
    after_stream cfg env m st s = Finished w tr
    /\ on_message cfg fuel later m' w = Waiting.
Proof.
  intros Hplain s Href Hblock Hwanted.
  eexists _, _. split; [by apply registry_grows_without_drawing|].
  unfold on_message, still_generating. rewrite Hwanted, Href. simpl.
  rewrite bool_decide_eq_true_2; [done|].
  apply elem_of_app. by right.
Qed.

(** "hello" and a later reply to its block 1001. *)
Lemma replies_to_plain_answers_wait_witness :
  exists w tr,
    after_stream local_cfg hello_env greeting empty_store
      (stream 10 ∅ calm_env [] hello_chunks)
    = Finished w tr
    /\ on_message local_cfg 1 hello_env follow_up w = Waiting.
Proof.
  apply (replies_to_plain_answers_wait local_cfg hello_env greeting empty_store ∅ []
           hello_chunks 1 hello_env follow_up
           {| Discord.message_id := 1001; Discord.resolved := None |}).
  - reflexivity.
  - reflexivity.
  - apply (list_elem_of_lookup_2 _ 0%nat). vm_compute. reflexivity.
  - reflexivity.
Defined.

(** X24.  Whatever the loop of lines 88-130 walks and whatever the fetches
    give, when it returns it has only added to the store: the node objects
    that existed are unchanged (also their [replied_to]), at least one node
    object is new, every id that had a node still has one, and the request
    has one. *)
Theorem chain_building_only_adds cfg fetch (fuel : nat) (m : Message) (st st' : Store) :
  store_closed st ->
  build_chain cfg fuel fetch m None st = Done st' ->
  (exists new, new <> [] /\ objects st' = objects st ++ new)
  /\ (forall key, is_Some (message_nodes st !! key) ->
                  is_Some (message_nodes st' !! key))
  /\ is_Some (message_nodes st' !! Discord.id m).
Proof.
  intros Hclosed Hrun.
  pose proof (build_chain_keeps cfg fetch fuel m None st (length (objects st))
                Hclosed ltac:(lia) I) as H.
  rewrite Hrun in H. destruct H as (Htake & Hlen & _ & Hkeys).
  split; [|split].
  - exists (drop (length (objects st)) (objects st')). split.
    + intros E. apply (f_equal length) in E. rewrite length_drop in E. simpl in E. lia.
    + rewrite <- (take_drop (length (objects st)) (objects st')) at 1.
      by rewrite Htake, firstn_all.
  - intros key Hkey. apply Hkeys. by left.
  - apply Hkeys. by right.
Qed.

(** C replies to B, which is fetched and whose own target has been
    deleted; the store holds the node of the message with the two photos. *)
Lemma chain_building_only_adds_witness :
  exists st',
    build_chain local_cfg 2 fetch_B_only message_C None photo_store = Done st'
    /\ (exists new, new <> [] /\ objects st' = objects photo_store ++ new)
    /\ (forall key, is_Some (message_nodes photo_store !! key) ->
                    is_Some (message_nodes st' !! key))
    /\ is_Some (message_nodes st' !! Discord.id message_C).
Proof.
  eexists. split; [vm_compute; reflexivity|].
  apply (chain_building_only_adds local_cfg fetch_B_only 2 message_C photo_store).
  - split.
    + intros key a H. unfold photo_store in H. simpl in H.
      apply lookup_singleton_Some in H as [_ <-]. simpl. lia.
    + intros [|i] node a H; simpl in H; [|done]. injection H as <-. done.
  - vm_compute. reflexivity.
Defined.
